(** * Intrusive doubly-linked list ([intrusive_list.h])

    A shallow embedding of [intrusive::list_element], [intrusive::list_iterator]
    and [intrusive::list] over an explicit heap of link nodes, together with the
    chain invariant of the container and the properties of its operations. *)

From stdpp Require Import relations functions.
From stdpp Require Import base option list gmap.

(** * Definitions *)

(** ** Memory model *)

(** Addresses of link nodes.  A C++ pointer [list_element*] is either
    [nullptr] ([None]) or the address of a node. *)
Abbreviation loc := positive.
Abbreviation ptr := (option positive).

(** [struct list_element { list_element *next = nullptr, *prev = nullptr; }] *)
Record list_element : Type := Node { next : ptr; prev : ptr }.

Global Instance list_element_eq_dec : EqDecision list_element.
Proof. solve_decision. Defined.

(** The heap holds every live link node: the nodes embedded in the caller's
    elements and the sentinels ([fake]) of the lists. *)
Abbreviation heap := (gmap positive list_element).

(** Outcome of running a piece of code on a heap. *)
Inductive result (A : Type) : Type :=
| Done (a : A) (h : heap)   (* normal completion *)
| Fault                     (* a null or dangling pointer was dereferenced *)
| OutOfFuel.                 (* the fuel of a loop ran out *)
Arguments Done {A} a h.
Arguments Fault {A}.
Arguments OutOfFuel {A}.

(** State-and-error monad threading the heap through the code. *)
Definition M (A : Type) : Type := heap → result A.

Global Instance M_ret : MRet M := λ A a h, Done a h.
Global Instance M_bind : MBind M := λ A B k m h,
  match m h with
  | Done a h' => k a h'
  | Fault => Fault
  | OutOfFuel => OutOfFuel
  end.

Definition fault {A} : M A := λ _, Fault.
Definition out_of_fuel {A} : M A := λ _, OutOfFuel.

(** [p->fld] as an rvalue. *)
Definition load {A} (fld : list_element → A) (p : ptr) : M A := λ h,
  match p with
  | None => Fault
  | Some a => match h !! a with
              | Some nd => Done (fld nd) h
              | None => Fault
              end
  end.

(** [p->next = v] and [p->prev = v]. *)
Definition store_next (p v : ptr) : M unit := λ h,
  match p with
  | None => Fault
  | Some a => match h !! a with
              | Some nd => Done tt (<[a := Node v (prev nd)]> h)
              | None => Fault
              end
  end.

Definition store_prev (p v : ptr) : M unit := λ h,
  match p with
  | None => Fault
  | Some a => match h !! a with
              | Some nd => Done tt (<[a := Node (next nd) v]> h)
              | None => Fault
              end
  end.

(** [*p = v] for a whole node record. *)
Definition store (p : ptr) (v : list_element) : M unit := λ h,
  match p with
  | None => Fault
  | Some a => match h !! a with
              | Some _ => Done tt (<[a := v]> h)
              | None => Fault
              end
  end.

(** Construction of a node in fresh storage: both links start out null. *)
Definition alloc (a : loc) : M unit := λ h,
  match h !! a with
  | None => Done tt (<[a := Node None None]> h)
  | Some _ => Fault
  end.

(** ** [list_element] *)

(** [list_element::unlink] *)
Definition unlink (this : ptr) : M unit :=
  n ← load next this;
  (if bool_decide (n ≠ None) then
     p ← load prev this; store_prev n p
   else mret tt);;
  p ← load prev this;
  (if bool_decide (p ≠ None) then
     n ← load next this; store_next p n
   else mret tt);;
  store_next this None;;
  store_prev this None.

(** ** [list_iterator] *)

Record list_iterator : Type := Iter { current : ptr }.

(** [operator*] / [operator->]: the referenced node, seen as an element. *)
Definition it_deref (it : list_iterator) : ptr := current it.

(** [operator++] *)
Definition it_incr (it : list_iterator) : M list_iterator :=
  n ← load next (current it); mret (Iter n).

(** [operator--] *)
Definition it_decr (it : list_iterator) : M list_iterator :=
  p ← load prev (current it); mret (Iter p).

(** [operator==] and [operator!=] *)
Definition it_eq (a b : list_iterator) : bool :=
  bool_decide (current a = current b).
Definition it_neq (a b : list_iterator) : bool :=
  bool_decide (current a ≠ current b).

(** ** [list]

    A list object is its sentinel [fake]; [this] is the address of [fake]. *)

(** [list::list()] *)
Definition list_ctor (this : loc) : M unit :=
  alloc this;;
  store_next (Some this) (Some this);;
  store_prev (Some this) (Some this).

(** [list::clear]; the [while] loop runs on fuel. *)
Fixpoint clear (fuel : nat) (this : loc) : M unit :=
  match fuel with
  | O => out_of_fuel
  | S fuel' =>
      n ← load next (Some this);
      if bool_decide (n ≠ Some this) then
        unlink n;; clear fuel' this
      else mret tt
  end.

(** [list::~list] *)
Definition list_dtor (fuel : nat) (this : loc) : M unit := clear fuel this.

(** [list::push_back] *)
Definition push_back (this : loc) (val : loc) : M unit :=
  let cur := Some val in
  store_next cur (Some this);;
  p ← load prev (Some this);
  store_prev cur p;;
  p ← load prev (Some this);
  store_next p cur;;
  store_prev (Some this) cur.

(** [list::pop_back] *)
Definition pop_back (this : loc) : M unit :=
  p ← load prev (Some this); unlink p.

(** [list::back] *)
Definition back (this : loc) : M ptr := load prev (Some this).

(** [list::push_front] *)
Definition push_front (this : loc) (val : loc) : M unit :=
  let cur := Some val in
  store_prev cur (Some this);;
  n ← load next (Some this);
  store_next cur n;;
  n ← load next (Some this);
  store_prev n cur;;
  store_next (Some this) cur.

(** [list::pop_front] *)
Definition pop_front (this : loc) : M unit :=
  n ← load next (Some this); unlink n.

(** [list::front] *)
Definition front (this : loc) : M ptr := load next (Some this).

(** [list::empty] *)
Definition empty (this : loc) : M bool :=
  n ← load next (Some this); mret (bool_decide (Some this = n)).

(** [list::begin] and [list::end] *)
Definition begin_ (this : loc) : M list_iterator :=
  n ← load next (Some this); mret (Iter n).
Definition end_ (this : loc) : list_iterator := Iter (Some this).

(** [list::insert] *)
Definition insert_ (this : loc) (pos : list_iterator) (val : loc)
  : M list_iterator :=
  let list_ent := it_deref pos in
  let new_list_ent := Some val in
  store_next new_list_ent list_ent;;
  p ← load prev list_ent;
  store_prev new_list_ent p;;
  p ← load prev list_ent;
  store_next p new_list_ent;;
  store_prev list_ent new_list_ent;;
  mret (Iter new_list_ent).

(** [list::erase] *)
Definition erase (this : loc) (pos : list_iterator) : M list_iterator :=
  let list_ent := it_deref pos in
  ret ← load next list_ent;
  unlink list_ent;;
  mret (Iter ret).

(** [list::splice] *)
Definition splice (this : loc) (pos : list_iterator) (other : loc)
    (first last : list_iterator) : M unit :=
  if it_eq first last then mret tt
  else
    let to_right := it_deref pos in
    to_left ← load prev to_right;
    last' ← it_decr last;
    let from_right := it_deref last' in
    let from_left := it_deref first in
    store_next to_left from_left;;
    store_prev to_right from_right;;
    fr_next ← load next from_right;
    fl_prev ← load prev from_left;
    store_next fl_prev fr_next;;
    fl_prev ← load prev from_left;
    fr_next ← load next from_right;
    store_prev fr_next fl_prev;;
    store_prev from_left to_left;;
    store_next from_right to_right.

(** [std::swap] on two node records. *)
Definition std_swap (a b : ptr) : M unit :=
  tmp ← load id a;
  vb ← load id b;
  store a vb;;
  store b tmp.

(** [list::swap] *)
Definition swap (this rhs : loc) : M unit :=
  my_next ← load next (Some this);
  my_prev ← load prev (Some this);
  store_prev my_next (Some rhs);;
  store_next my_prev (Some rhs);;
  rhs_next ← load next (Some rhs);
  rhs_prev ← load prev (Some rhs);
  store_prev rhs_next (Some this);;
  store_next rhs_prev (Some this);;
  std_swap (Some this) (Some rhs).

(** [list::list(list&&)] *)
Definition list_move_ctor (fuel : nat) (this rhs : loc) : M unit :=
  list_ctor this;;
  swap this rhs;;
  clear fuel rhs.

(** [list::operator=(list&&)] *)
Definition list_move_assign (fuel : nat) (this rhs : loc) : M loc :=
  swap this rhs;;
  clear fuel rhs;;
  mret this.

(** Reading a list from [begin()] to [end()]:
    [for (it = begin(); it != end(); ++it) out.push_back(&*it);] *)
Fixpoint walk (fuel : nat) (it e : list_iterator) : M (list loc) :=
  match fuel with
  | O => out_of_fuel
  | S fuel' =>
      if it_neq it e then
        match it_deref it with
        | None => fault
        | Some a => it' ← it_incr it; r ← walk fuel' it' e; mret (a :: r)
        end
      else mret []
  end.

Definition to_list (fuel : nat) (this : loc) : M (list loc) :=
  b ← begin_ this; walk fuel b (end_ this).

(** The same loop through the reverse direction:
    [for (it = end(); it != begin(); ) { --it; out.push_back(&*it); }] *)
Fixpoint walk_back (fuel : nat) (it b : list_iterator) : M (list loc) :=
  match fuel with
  | O => out_of_fuel
  | S fuel' =>
      if it_neq it b then
        it' ← it_decr it;
        match it_deref it' with
        | None => fault
        | Some a => r ← walk_back fuel' it' b; mret (a :: r)
        end
      else mret []
  end.

Definition to_list_rev (fuel : nat) (this : loc) : M (list loc) :=
  b ← begin_ this; walk_back fuel (end_ this) b.

(** ** Field views of the heap *)

(** [a->next] and [a->prev] as seen in [h]; [None] when [a] is not a live
    node. *)
Definition next_of (h : heap) (a : loc) : option ptr := next <$> h !! a.
Definition prev_of (h : heap) (a : loc) : option ptr := prev <$> h !! a.

(** The heap after [a->next = v], respectively [a->prev = v]. *)
Definition set_next (a : loc) (v : ptr) (h : heap) : heap :=
  alter (λ nd, Node v (prev nd)) a h.
Definition set_prev (a : loc) (v : ptr) (h : heap) : heap :=
  alter (λ nd, Node (next nd) v) a h.

Definition live (h : heap) (a : loc) : Prop := is_Some (h !! a).

(** A detached node: [next == prev == nullptr]. *)
Definition detached (h : heap) (a : loc) : Prop :=
  h !! a = Some (Node None None).

(** ** Chains and cycles of link nodes *)

(** [a] and [b] are adjacent: [a->next == b] and [b->prev == a]. *)
Definition link (h : heap) (a b : loc) : Prop :=
  next_of h a = Some (Some b) ∧ prev_of h b = Some (Some a).

(** Consecutive nodes of [x :: r] are adjacent. *)
Fixpoint chain (h : heap) (x : loc) (r : list loc) : Prop :=
  match r with
  | [] => True
  | y :: r' => link h x y ∧ chain h y r'
  end.

(** The nodes of [c], in this order and without repetition, form one
    circular doubly-linked chain. *)
Definition cycle (h : heap) (c : list loc) : Prop :=
  match c with
  | [] => False
  | x :: r => NoDup (x :: r) ∧ chain h x (r ++ [x])
  end.

(** The list whose sentinel is [f] holds exactly the nodes [xs], from
    [begin()] to [end()]. *)
Definition is_list (h : heap) (f : loc) (xs : list loc) : Prop :=
  cycle h (f :: xs).

(** The heap after linking the detached node [e] between [p] and [pos]
    ([insert], [push_back]). *)
Definition link_before (pos p e : loc) (h : heap) : heap :=
  set_prev pos (Some e) (set_next p (Some e)
    (set_prev e (Some p) (set_next e (Some pos) h))).

(** The heap after linking the detached node [e] between [f] and [n]
    ([push_front]). *)
Definition link_after (f n e : loc) (h : heap) : heap :=
  set_next f (Some e) (set_prev n (Some e)
    (set_next e (Some n) (set_prev e (Some f) h))).

(** The heap after [x] has been unlinked from between [p] and [n]. *)
Definition unlinked (x n p : loc) (h : heap) : heap :=
  set_prev x None (set_next x None
    (set_next p (Some n) (set_prev n (Some p) h))).

(** Decision procedures, used to evaluate the invariant on concrete heaps. *)
Global Instance link_dec (h : heap) (a b : loc) : Decision (link h a b).
Proof. unfold link. apply _. Defined.

Global Instance chain_dec (h : heap) (x : loc) (r : list loc) :
  Decision (chain h x r).
Proof. revert x. induction r; intros x; simpl; apply _. Defined.

Global Instance cycle_dec (h : heap) (c : list loc) : Decision (cycle h c).
Proof. destruct c; simpl; apply _. Defined.

Global Instance is_list_dec (h : heap) (f : loc) (xs : list loc) :
  Decision (is_list h f xs).
Proof. unfold is_list. apply _. Defined.

Global Instance detached_dec (h : heap) (a : loc) : Decision (detached h a).
Proof. unfold detached. apply _. Defined.

Global Instance live_dec (h : heap) (a : loc) : Decision (live h a).
Proof. unfold live. apply _. Defined.

(** ** Pushing and popping at both ends, against a reference sequence *)

Inductive op : Type :=
| PushBack (e : loc)
| PushFront (e : loc)
| PopBack
| PopFront.

(** One call on the list [f]. *)
Definition exec (f : loc) (o : op) : M unit :=
  match o with
  | PushBack e => push_back f e
  | PushFront e => push_front f e
  | PopBack => pop_back f
  | PopFront => pop_front f
  end.

Fixpoint run_ops (f : loc) (ops : list op) : M unit :=
  match ops with
  | [] => mret tt
  | o :: ops' => exec f o;; run_ops f ops'
  end.

(** The same call on a reference sequence container (a deque of element
    addresses). *)
Definition ref_step (s : list loc) (o : op) : list loc :=
  match o with
  | PushBack e => s ++ [e]
  | PushFront e => e :: s
  | PopBack => removelast s
  | PopFront => tail s
  end.

Definition ref_run (ops : list op) (s : list loc) : list loc :=
  fold_left ref_step ops s.

(** What a call requires of the heap it runs on.  A pop requires [empty()] to
    answer [false]; a push requires its argument to be a live node and, when
    [strict] is set, a detached one. *)
Definition pre (strict : bool) (f : loc) (o : op) (h : heap) : Prop :=
  match o with
  | PushBack e | PushFront e => if strict then detached h e else live h e
  | PopBack | PopFront => empty f h = Done false h
  end.

Fixpoint respects (strict : bool) (f : loc) (ops : list op) (h : heap) : Prop :=
  match ops with
  | [] => True
  | o :: ops' =>
      pre strict f o h
      ∧ match exec f o h with
        | Done _ h' => respects strict f ops' h'
        | _ => True
        end
  end.

(** ** Programs over several lists and elements *)

(** A program state: the heap and the addresses of the list objects that have
    been constructed. *)
Record world : Type := World { w_heap : heap; w_lists : list loc }.

(** The calls a program can make.  Iterators are given by the node they
    reference. *)
Inductive call : Type :=
| NewElement (e : loc)
| NewList (f : loc)
| MoveConstruct (d s : loc)
| MoveAssign (d s : loc)
| SwapWith (a b : loc)
| ClearList (f : loc)
| PushBackOn (f e : loc)
| PushFrontOn (f e : loc)
| PopBackOn (f : loc)
| PopFrontOn (f : loc)
| InsertAt (f pos e : loc)
| EraseAt (f pos : loc)
| SpliceAt (this pos other first last : loc).

Definition run_call (fuel : nat) (c : call) : M unit :=
  match c with
  | NewElement e => alloc e
  | NewList f => list_ctor f
  | MoveConstruct d s => list_move_ctor fuel d s
  | MoveAssign d s => list_move_assign fuel d s;; mret tt
  | SwapWith a b => swap a b
  | ClearList f => clear fuel f
  | PushBackOn f e => push_back f e
  | PushFrontOn f e => push_front f e
  | PopBackOn f => pop_back f
  | PopFrontOn f => pop_front f
  | InsertAt f pos e => insert_ f (Iter (Some pos)) e;; mret tt
  | EraseAt f pos => erase f (Iter (Some pos));; mret tt
  | SpliceAt this pos other first last =>
      splice this (Iter (Some pos)) other (Iter (Some first)) (Iter (Some last))
  end.

(** The list objects that exist after a call. *)
Definition lists_after (c : call) (L : list loc) : list loc :=
  match c with
  | NewList f => f :: L
  | MoveConstruct d _ => d :: L
  | _ => L
  end.

(** [xs] is what a walk of the list [f] from [begin()] to [end()] yields. *)
Definition elements (h : heap) (f : loc) (xs : list loc) : Prop :=
  ∃ fuel, to_list fuel f h = Done xs h.

(** The precondition of a call: objects are constructed in fresh storage,
    lists passed to a call exist, pushed and inserted elements are detached,
    pops find the list non-empty, iterators point into the list they are used
    with ([erase]: at an element), and the range [first, last) of [splice] is a
    range of [other] that does not contain [pos]. *)
Definition pre_call (w : world) (c : call) : Prop :=
  let h := w_heap w in
  let L := w_lists w in
  match c with
  | NewElement e => h !! e = None
  | NewList f => h !! f = None
  | MoveConstruct d s => h !! d = None ∧ s ∈ L
  | MoveAssign d s => d ∈ L ∧ s ∈ L
  | SwapWith a b => a ∈ L ∧ b ∈ L
  | ClearList f => f ∈ L
  | PushBackOn f e | PushFrontOn f e => f ∈ L ∧ detached h e
  | PopBackOn f | PopFrontOn f => f ∈ L ∧ empty f h = Done false h
  | InsertAt f pos e =>
      f ∈ L ∧ detached h e ∧ ∃ xs, elements h f xs ∧ pos ∈ f :: xs
  | EraseAt f pos => f ∈ L ∧ ∃ xs, elements h f xs ∧ pos ∈ xs
  | SpliceAt this pos other first last =>
      this ∈ L ∧ other ∈ L
      ∧ (∃ xs, elements h this xs ∧ pos ∈ this :: xs)
      ∧ ∃ k1 mid k2,
          elements h other (k1 ++ mid ++ k2)
          ∧ first = hd other (mid ++ k2) ∧ last = hd other k2
          ∧ (pos ∉ mid)
  end.

(** One call, made with its precondition satisfied and running to
    completion. *)
Definition step (w w' : world) : Prop :=
  ∃ c fuel,
    pre_call w c
    ∧ run_call fuel c (w_heap w) = Done tt (w_heap w')
    ∧ w_lists w' = lists_after c (w_lists w).

(** The states a program can reach from the empty heap. *)
Definition reachable (w : world) : Prop :=
  rtc step (World ∅ []) w.

(** The one shape of call on which [splice] goes wrong: a non-empty range
    ([first != last]) is moved to the position at which it ends
    ([pos == last]).  The call is within the precondition of [splice]; this
    predicate only singles it out. *)
Definition splices_before_last (c : call) : Prop :=
  match c with
  | SpliceAt _ pos _ first last => first ≠ last ∧ pos = last
  | _ => False
  end.

Global Instance splices_before_last_dec (c : call) :
  Decision (splices_before_last c).
Proof. destruct c; simpl; apply _. Defined.

(** A step of a program that makes no call of that shape, and the states such
    a program can reach. *)
Definition step_avoiding (w w' : world) : Prop :=
  ∃ c fuel,
    pre_call w c
    ∧ ¬ splices_before_last c
    ∧ run_call fuel c (w_heap w) = Done tt (w_heap w')
    ∧ w_lists w' = lists_after c (w_lists w).

Definition reachable_avoiding (w : world) : Prop :=
  rtc step_avoiding (World ∅ []) w.

(** The invariant as a program can observe it: every node with two non-null
    links is the [prev] of its [next] and the [next] of its [prev]; no node
    has just one null link; every list can be walked from [begin()] to
    [end()] and back, the backward walk giving the reverse of the forward one;
    and the sentinel of a list is its own [next] and [prev] exactly when the
    walk finds no element, which is also exactly when [empty()] answers
    [true]. *)
Definition chain_invariant (w : world) : Prop :=
  let h := w_heap w in
  (∀ a n p, h !! a = Some (Node (Some n) (Some p)) →
     prev_of h n = Some (Some a) ∧ next_of h p = Some (Some a))
  ∧ (∀ a n p, h !! a = Some (Node n p) → n = None ↔ p = None)
  ∧ (∀ f, f ∈ w_lists w →
       ∃ xs, to_list (S (length xs)) f h = Done xs h
             ∧ to_list_rev (S (length xs)) f h = Done (rev xs) h
             ∧ ((next_of h f = Some (Some f) ∧ prev_of h f = Some (Some f))
                ↔ xs = [])
             ∧ empty f h = Done (bool_decide (xs = [])) h).

(** The invariant in terms of the contents [c f] of every list [f]: the
    lists are well formed, no sentinel is an element of another list, and
    every node outside the lists is detached. *)
Definition inv_with (h : heap) (L : list loc) (c : loc → list loc) : Prop :=
  NoDup L
  ∧ (∀ f, f ∈ L → is_list h f (c f))
  ∧ (∀ f g, f ∈ L → g ∈ L → f ≠ g → g ∉ f :: c f)
  ∧ (∀ a, live h a → detached h a ∨ ∃ f, f ∈ L ∧ a ∈ f :: c f).

Definition Inv (w : world) : Prop := ∃ c, inv_with (w_heap w) (w_lists w) c.

(** Completion of a call for every sufficiently large loop budget. *)
Definition runs_to (m : nat → M unit) (h h' : heap) : Prop :=
  ∃ N, ∀ fuel, N ≤ fuel → m fuel h = Done tt h'.

(** ** Sample states *)

(** The heap a piece of code leaves behind ([∅] if it does not complete). *)
Definition heap_of {A} (r : result A) : heap :=
  match r with Done _ h => h | _ => ∅ end.

(** A list [1] holding the elements [10; 11], and a detached element [12]. *)
Definition sample_heap : heap :=
  heap_of ((list_ctor 1;; alloc 10;; alloc 11;; alloc 12;;
            push_back 1 10;; push_back 1 11) ∅).

(** A freshly constructed, empty list [1] next to a detached element [12]. *)
Definition empty_heap : heap := heap_of ((list_ctor 1;; alloc 12) ∅).

(** Two lists, [1] holding [10; 11] and [2] holding nothing, and a detached
    element [12]. *)
Definition two_lists_heap : heap :=
  heap_of ((list_ctor 1;; list_ctor 2;; alloc 10;; alloc 11;; alloc 12;;
            push_back 1 10;; push_back 1 11) ∅).

(** The heap after [push_back] has been called twice with the element [12]
    on the empty list [1]. *)
Definition pushed_twice_heap : heap :=
  heap_of (run_ops 1 [PushBack 12; PushBack 12] empty_heap).

(** The state after a call that needs no loop budget. *)
Definition after (c : call) (w : world) : world :=
  World (heap_of (run_call 0 c (w_heap w))) (lists_after c (w_lists w)).

(** A program that builds the list [1] = [10; 11; 12] ... *)
Definition three_elements : world :=
  after (PushBackOn 1 12) (after (PushBackOn 1 11) (after (PushBackOn 1 10)
    (after (NewElement 12) (after (NewElement 11) (after (NewElement 10)
      (after (NewList 1) (World ∅ []))))))).

(** ... and then moves the range [11, 12) in front of [12], within the list. *)
Definition spliced_in_place : world :=
  after (SpliceAt 1 12 1 11 12) three_elements.

(** ** Further operations *)

(** Postfix [operator++(int)] and [operator--(int)]:
    the iterator is copied, advanced with the prefix operator, and the copy is
    returned.  The result pairs the value returned with the iterator as the
    call leaves it. *)
Definition it_post_incr (it : list_iterator)
  : M (list_iterator * list_iterator) :=
  let old := it in
  it' ← it_incr it;
  mret (old, it').

Definition it_post_decr (it : list_iterator)
  : M (list_iterator * list_iterator) :=
  let old := it in
  it' ← it_decr it;
  mret (old, it').

(** [n] applications of [operator++]: [while (n--) ++it;]. *)
Fixpoint advance (n : nat) (it : list_iterator) : M list_iterator :=
  match n with
  | O => mret it
  | S n' => it' ← it_incr it; advance n' it'
  end.

(** The nodes a call constructs: the list operations themselves never
    allocate. *)
Definition allocated (c : call) : gset loc :=
  match c with
  | NewElement e => {[ e ]}
  | NewList f => {[ f ]}
  | MoveConstruct d _ => {[ d ]}
  | _ => ∅
  end.

(** A piece of code that neither creates nor releases a node. *)
Definition keeps_dom {A} (m : M A) : Prop :=
  ∀ h a h', m h = Done a h' → dom h' = dom h.

(** The end of the lifetime of a node: its storage is released. *)
Definition free (a : loc) : M unit := λ h,
  match h !! a with
  | Some _ => Done tt (delete a h)
  | None => Fault
  end.

(** A list object going out of scope: [list::~list] runs, then the storage of
    the object, which holds the sentinel, is released. *)
Definition list_destroy (fuel : nat) (this : loc) : M unit :=
  list_dtor fuel this;; free this.

(** * Properties *)

(** ** Field views of the heap *)

Section fields.
Implicit Types (h : heap) (a b : loc) (v : ptr).

Lemma live_next_of h a v : next_of h a = Some v → live h a.
Proof. unfold next_of, live. destruct (h !! a); naive_solver. Qed.

Lemma live_prev_of h a v : prev_of h a = Some v → live h a.
Proof. unfold prev_of, live. destruct (h !! a); naive_solver. Qed.

Lemma live_set_next h a v b : live (set_next a v h) b ↔ live h b.
Proof.
  unfold live, set_next. destruct (decide (a = b)) as [->|].
  - rewrite lookup_alter_eq. apply fmap_is_Some.
  - by rewrite lookup_alter_ne.
Qed.

Lemma live_set_prev h a v b : live (set_prev a v h) b ↔ live h b.
Proof.
  unfold live, set_prev. destruct (decide (a = b)) as [->|].
  - rewrite lookup_alter_eq. apply fmap_is_Some.
  - by rewrite lookup_alter_ne.
Qed.

Lemma next_of_set_next_eq h a v : live h a → next_of (set_next a v h) a = Some v.
Proof.
  intros [nd Hnd]. unfold next_of, set_next.
  by rewrite lookup_alter_eq, Hnd.
Qed.

Lemma next_of_set_next_ne h a v b : a ≠ b → next_of (set_next a v h) b = next_of h b.
Proof. intros. unfold next_of, set_next. by rewrite lookup_alter_ne. Qed.

Lemma next_of_set_prev h a v b : next_of (set_prev a v h) b = next_of h b.
Proof.
  unfold next_of, set_prev. destruct (decide (a = b)) as [->|].
  - rewrite lookup_alter_eq. by destruct (h !! b).
  - by rewrite lookup_alter_ne.
Qed.

Lemma prev_of_set_prev_eq h a v : live h a → prev_of (set_prev a v h) a = Some v.
Proof.
  intros [nd Hnd]. unfold prev_of, set_prev.
  by rewrite lookup_alter_eq, Hnd.
Qed.

Lemma prev_of_set_prev_ne h a v b : a ≠ b → prev_of (set_prev a v h) b = prev_of h b.
Proof. intros. unfold prev_of, set_prev. by rewrite lookup_alter_ne. Qed.

Lemma prev_of_set_next h a v b : prev_of (set_next a v h) b = prev_of h b.
Proof.
  unfold prev_of, set_next. destruct (decide (a = b)) as [->|].
  - rewrite lookup_alter_eq. by destruct (h !! b).
  - by rewrite lookup_alter_ne.
Qed.

(** A node is determined by its two fields. *)
Lemma lookup_fields h a n p :
  h !! a = Some (Node n p) ↔ next_of h a = Some n ∧ prev_of h a = Some p.
Proof.
  unfold next_of, prev_of. destruct (h !! a) as [[n' p']|]; simpl; naive_solver.
Qed.

Lemma heap_ext h1 h2 :
  (∀ a, next_of h1 a = next_of h2 a) →
  (∀ a, prev_of h1 a = prev_of h2 a) →
  h1 = h2.
Proof.
  intros Hn Hp. apply map_eq. intros a.
  specialize (Hn a). specialize (Hp a). unfold next_of, prev_of in *.
  destruct (h1 !! a) as [[]|], (h2 !! a) as [[]|]; simpl in *; congruence.
Qed.

Lemma detached_fields h a :
  detached h a ↔ next_of h a = Some None ∧ prev_of h a = Some None.
Proof. apply lookup_fields. Qed.

(** Overwriting a field with the value it already has changes nothing. *)
Lemma set_next_id h a v : next_of h a = Some v → set_next a v h = h.
Proof.
  intros H. apply heap_ext; intros b.
  - destruct (decide (a = b)) as [->|].
    + rewrite next_of_set_next_eq; eauto using live_next_of.
    + by rewrite next_of_set_next_ne.
  - by rewrite prev_of_set_next.
Qed.

Lemma set_prev_id h a v : prev_of h a = Some v → set_prev a v h = h.
Proof.
  intros H. apply heap_ext; intros b.
  - by rewrite next_of_set_prev.
  - destruct (decide (a = b)) as [->|].
    + rewrite prev_of_set_prev_eq; eauto using live_prev_of.
    + by rewrite prev_of_set_prev_ne.
Qed.

(** *** Running the memory primitives *)

Lemma run_load_next {B} h a v (k : ptr → M B) :
  next_of h a = Some v → (load next (Some a) ≫= k) h = k v h.
Proof.
  unfold next_of, mbind, M_bind, load. destruct (h !! a); naive_solver.
Qed.

Lemma run_load_prev {B} h a v (k : ptr → M B) :
  prev_of h a = Some v → (load prev (Some a) ≫= k) h = k v h.
Proof.
  unfold prev_of, mbind, M_bind, load. destruct (h !! a); naive_solver.
Qed.

Lemma run_store_next {B} h a v (k : unit → M B) :
  live h a → (store_next (Some a) v ≫= k) h = k tt (set_next a v h).
Proof.
  intros [nd Hnd]. unfold mbind, M_bind, store_next, set_next. rewrite Hnd.
  f_equal. apply map_eq. intros b. destruct (decide (a = b)) as [->|].
  - by rewrite lookup_insert_eq, lookup_alter_eq, Hnd.
  - by rewrite lookup_insert_ne, lookup_alter_ne.
Qed.

Lemma run_store_prev {B} h a v (k : unit → M B) :
  live h a → (store_prev (Some a) v ≫= k) h = k tt (set_prev a v h).
Proof.
  intros [nd Hnd]. unfold mbind, M_bind, store_prev, set_prev. rewrite Hnd.
  f_equal. apply map_eq. intros b. destruct (decide (a = b)) as [->|].
  - by rewrite lookup_insert_eq, lookup_alter_eq, Hnd.
  - by rewrite lookup_insert_ne, lookup_alter_ne.
Qed.

Lemma run_ret {A B} (x : A) (k : A → M B) h : (mret x ≫= k) h = k x h.
Proof. reflexivity. Qed.

Lemma run_bind_assoc {A B C} (m : M A) (k1 : A → M B) (k2 : B → M C) h :
  ((m ≫= k1) ≫= k2) h = (m ≫= (λ x, k1 x ≫= k2)) h.
Proof. unfold mbind, M_bind. by destruct (m h). Qed.

Lemma run_bind_ret {A} (m : M A) h : (m ≫= mret) h = m h.
Proof. unfold mbind, M_bind. by destruct (m h). Qed.

Lemma run_bind_ext {A B} (m : M A) (k1 k2 : A → M B) h :
  (∀ x h', k1 x h' = k2 x h') → (m ≫= k1) h = (m ≫= k2) h.
Proof. intros H. unfold mbind, M_bind. by destruct (m h). Qed.

Lemma run_bind_Done {A B} (m : M A) (k : A → M B) h x h' :
  m h = Done x h' → (m ≫= k) h = k x h'.
Proof. unfold mbind, M_bind. by intros ->. Qed.

Lemma insert_node h a n p :
  live h a → <[a := Node n p]> h = set_prev a p (set_next a n h).
Proof.
  intros [nd Hnd]. unfold set_prev, set_next. apply map_eq. intros b.
  destruct (decide (a = b)) as [<-|].
  - by rewrite lookup_insert_eq, !lookup_alter_eq, Hnd.
  - by rewrite lookup_insert_ne, !lookup_alter_ne.
Qed.

Lemma run_load_node {B} h a n p (k : list_element → M B) :
  next_of h a = Some n → prev_of h a = Some p →
  (load id (Some a) ≫= k) h = k (Node n p) h.
Proof.
  intros Hn Hp. assert (h !! a = Some (Node n p)) as H by by apply lookup_fields.
  unfold mbind, M_bind, load. by rewrite H.
Qed.

Lemma run_store {B} h a n p (k : unit → M B) :
  live h a →
  (store (Some a) (Node n p) ≫= k) h = k tt (set_prev a p (set_next a n h)).
Proof.
  intros L. rewrite <-insert_node by done. destruct L as [nd Hnd].
  unfold mbind, M_bind, store. by rewrite Hnd.
Qed.

Lemma run_final_store h a n p :
  live h a →
  store (Some a) (Node n p) h = Done tt (set_prev a p (set_next a n h)).
Proof.
  intros H. rewrite <-(run_bind_ret (store _ _)). by rewrite run_store.
Qed.

Lemma run_final_store_next h a v :
  live h a → store_next (Some a) v h = Done tt (set_next a v h).
Proof.
  intros H. rewrite <-(run_bind_ret (store_next _ _)).
  by rewrite run_store_next.
Qed.

Lemma run_final_store_prev h a v :
  live h a → store_prev (Some a) v h = Done tt (set_prev a v h).
Proof.
  intros H. rewrite <-(run_bind_ret (store_prev _ _)).
  by rewrite run_store_prev.
Qed.

Lemma run_final_load_next h a v :
  next_of h a = Some v → load next (Some a) h = Done v h.
Proof.
  intros H. rewrite <-(run_bind_ret (load _ _)). by rewrite (run_load_next _ _ v).
Qed.

Lemma run_final_load_prev h a v :
  prev_of h a = Some v → load prev (Some a) h = Done v h.
Proof.
  intros H. rewrite <-(run_bind_ret (load _ _)). by rewrite (run_load_prev _ _ v).
Qed.
End fields.

(** *** Tactics for running straight-line code on a symbolic heap *)

Ltac solve_live :=
  repeat first [rewrite live_set_next | rewrite live_set_prev];
  first [ assumption
        | eapply live_next_of; eassumption
        | eapply live_prev_of; eassumption
        | eexists; eassumption ].

Ltac fld :=
  repeat first
    [ rewrite next_of_set_prev
    | rewrite prev_of_set_next
    | rewrite next_of_set_next_eq by solve_live
    | rewrite prev_of_set_prev_eq by solve_live
    | rewrite next_of_set_next_ne by congruence
    | rewrite prev_of_set_prev_ne by congruence ].

Ltac fld_done := fld; first [eassumption | reflexivity].

Ltac step :=
  cbn [current it_deref]; cbv beta iota;
  first
    [ rewrite run_bind_assoc
    | rewrite run_ret
    | erewrite run_load_next by fld_done
    | erewrite run_load_prev by fld_done
    | erewrite run_load_node by fld_done
    | rewrite run_store by solve_live
    | rewrite run_final_store by solve_live
    | rewrite run_store_next by solve_live
    | rewrite run_store_prev by solve_live
    | rewrite run_final_store_next by solve_live
    | rewrite run_final_store_prev by solve_live
    | erewrite run_final_load_next by fld_done
    | erewrite run_final_load_prev by fld_done
    | rewrite bool_decide_true by congruence
    | rewrite bool_decide_false by (intros ?; congruence) ].

Ltac steps := repeat step; cbn [current it_deref]; cbv beta iota.

Section unlink_run.
Implicit Types (h : heap) (a n p : loc).

Lemma unlink_linked h a n p :
  next_of h a = Some (Some n) → prev_of h a = Some (Some p) →
  live h n → live h p →
  unlink (Some a) h =
    Done tt (set_prev a None (set_next a None
               (set_next p (Some n) (set_prev n (Some p) h)))).
Proof.
  intros Hn Hp Ln Lp. unfold unlink.
  step. step. step. step.
  assert (prev_of (set_prev n (Some p) h) a = Some (Some p)) as Hp'.
  { destruct (decide (n = a)) as [->|]; fld; done. }
  steps. reflexivity.
Qed.
End unlink_run.

(** ** Chains and cycles of link nodes *)

Section chains.
Implicit Types (h : heap) (a b x y z : loc) (r l : list loc) (v : ptr).

Lemma chain_app_cons h x r y z r2 :
  chain h x (r ++ y :: z :: r2) ↔ chain h x (r ++ [y]) ∧ chain h y (z :: r2).
Proof.
  revert x. induction r as [|w r IH]; intros x; simpl.
  - tauto.
  - rewrite IH. simpl. tauto.
Qed.

Lemma chain_app h x r y r2 :
  chain h x (r ++ y :: r2) ↔ chain h x (r ++ [y]) ∧ chain h y r2.
Proof.
  destruct r2 as [|z r2]; [simpl; tauto | apply chain_app_cons].
Qed.

Lemma link_set_next_ne h a v x y :
  a ≠ x → link (set_next a v h) x y ↔ link h x y.
Proof. intros. unfold link. by rewrite next_of_set_next_ne, prev_of_set_next. Qed.

Lemma link_set_prev_ne h a v x y :
  a ≠ y → link (set_prev a v h) x y ↔ link h x y.
Proof. intros. unfold link. by rewrite prev_of_set_prev_ne, next_of_set_prev. Qed.

(** A segment [x :: r ++ [y]] reads the [next] fields of [x :: r] and the
    [prev] fields of [r ++ [y]] only. *)
Lemma chain_set_next h a v x r y :
  a ∉ (x :: r) → chain (set_next a v h) x (r ++ [y]) ↔ chain h x (r ++ [y]).
Proof.
  revert x. induction r as [|w r IH]; intros x Hx; simpl.
  - rewrite link_set_next_ne; [done|]. set_solver.
  - rewrite link_set_next_ne, IH; [done| |]; set_solver.
Qed.

Lemma chain_set_prev h a v x r :
  a ∉ r → chain (set_prev a v h) x r ↔ chain h x r.
Proof.
  revert x. induction r as [|w r IH]; intros x Hx; simpl; [done|].
  rewrite link_set_prev_ne, IH; [done| |]; set_solver.
Qed.

Lemma chain_ext h h' x r :
  (∀ a, a ∈ (x :: r) → h' !! a = h !! a) → chain h x r → chain h' x r.
Proof.
  revert x. induction r as [|w r IH]; intros x Hx; simpl; [done|].
  intros [[Hn Hp] Hc]. split.
  - split; unfold next_of, prev_of in *; rewrite Hx; set_solver.
  - apply IH; [|done]. intros a Ha. apply Hx. set_solver.
Qed.

Lemma NoDup_middle (l k : list loc) x :
  NoDup (l ++ x :: k) ↔ (x ∉ l) ∧ (x ∉ k) ∧ NoDup (l ++ k).
Proof.
  rewrite !NoDup_app, NoDup_cons. set_solver.
Qed.

Lemma NoDup_snoc (l : list loc) x : NoDup (l ++ [x]) ↔ (x ∉ l) ∧ NoDup l.
Proof. rewrite NoDup_middle, app_nil_r. set_solver. Qed.

Lemma cycle_rotate h l1 l2 : cycle h (l1 ++ l2) → cycle h (l2 ++ l1).
Proof.
  destruct l1 as [|x r1]; [by rewrite app_nil_r|].
  destruct l2 as [|y r2]; [by rewrite app_nil_r|].
  simpl. intros [Hnd Hc]. split.
  - revert Hnd. rewrite ?NoDup_cons, ?NoDup_middle, ?NoDup_app. set_solver.
  - revert Hc. rewrite <-!app_assoc. simpl.
    intros [? ?]%chain_app. by apply chain_app.
Qed.

Lemma cycle_ext h h' c :
  (∀ a, a ∈ c → h' !! a = h !! a) → cycle h c → cycle h' c.
Proof.
  destruct c as [|x r]; [done|]. intros Hx [Hnd Hc]. split; [done|].
  eapply chain_ext; [|done]. intros a Ha. apply Hx. set_solver.
Qed.

Lemma chain_next h x y r : chain h x (y :: r) → next_of h x = Some (Some y).
Proof. by intros [[? _] _]. Qed.

Lemma chain_snoc_prev h x r p y :
  chain h x (r ++ [p; y]) → prev_of h y = Some (Some p).
Proof. rewrite chain_app_cons. simpl. by intros [_ [[_ ?] _]]. Qed.

(** Every node of a cycle is linked to nodes of the same cycle. *)
Lemma cycle_elem h c x :
  cycle h c → x ∈ c →
  ∃ n p, n ∈ c ∧ p ∈ c ∧ link h x n ∧ link h p x.
Proof.
  intros Hc (l1 & l2 & ->)%list_elem_of_split.
  apply cycle_rotate in Hc. simpl in Hc. destruct Hc as [_ Hc].
  destruct (l2 ++ l1) as [|n r] eqn:E.
  - apply app_eq_nil in E as [-> ->]. simpl in *. exists x, x.
    set_solver.
  - assert (∃ r' p, n :: r = r' ++ [p]) as (r' & p & E').
    { destruct (exists_last (l:=n :: r)) as (r' & p & ?); [done|]. eauto. }
    assert (n ∈ l1 ++ x :: l2 ∧ p ∈ l1 ++ x :: l2) as [Hn Hp].
    { assert (n ∈ l2 ++ l1) by (rewrite E; set_solver).
      assert (p ∈ l2 ++ l1) by (rewrite E, E'; set_solver).
      set_solver. }
    exists n, p. split; [done|]. split; [done|]. split.
    + simpl in Hc. tauto.
    + rewrite E' in Hc. rewrite <-app_assoc in Hc. simpl in Hc.
      apply chain_app_cons in Hc. simpl in Hc. tauto.
Qed.

Lemma cycle_live h c x : cycle h c → x ∈ c → live h x.
Proof.
  intros Hc Hx. destruct (cycle_elem _ _ _ Hc Hx) as (n & _ & _ & _ & [Hn _] & _).
  eauto using live_next_of.
Qed.

Lemma detached_not_in_cycle h c e : cycle h c → detached h e → e ∉ c.
Proof.
  intros Hc He Hin.
  destruct (cycle_elem _ _ _ Hc Hin) as (n & _ & _ & _ & [Hn _] & _).
  apply detached_fields in He as [He _]. congruence.
Qed.
End chains.

(** *** Tactics for chain reasoning *)

Ltac list_norm :=
  repeat first
    [ progress (rewrite <-?app_assoc in * )
    | progress (rewrite ?app_nil_r in * )
    | progress (simpl app in * ) ].

Ltac nodup_facts :=
  repeat match goal with
  | H : NoDup (_ :: _) |- _ => apply NoDup_cons in H as [? ?]
  | H : NoDup (_ ++ _ :: _) |- _ => apply NoDup_middle in H as (? & ? & ?)
  | H : NoDup (_ ++ []) |- _ => rewrite app_nil_r in H
  | H : NoDup [] |- _ => clear H
  | H : NoDup (_ ++ _ ++ _) |- _ => rewrite app_assoc in H
  | H : NoDup (_ ++ _) |- _ => apply NoDup_app in H as (? & ? & ?)
  | H : _ ∉ (_ :: _) |- _ => apply not_elem_of_cons in H as [? ?]
  | H : _ ∉ (_ ++ _) |- _ => apply not_elem_of_app in H as [? ?]
  | H : _ ∉ [] |- _ => clear H
  end.

Ltac chain_facts :=
  repeat match goal with
  | H : chain _ _ (_ ++ _ :: _ :: _) |- _ => apply chain_app_cons in H as [? ?]
  | H : chain _ _ (_ :: _) |- _ => destruct H as [? ?]
  | H : chain _ _ [] |- _ => clear H
  | H : link _ _ _ |- _ => destruct H as [? ?]
  | H : _ ∧ _ |- _ => destruct H as [? ?]
  | H : True |- _ => clear H
  end.

Ltac solve_notin :=
  repeat first
    [ apply not_elem_of_nil
    | apply not_elem_of_cons; split
    | apply not_elem_of_app; split
    | assumption
    | congruence ].

Ltac solve_elem :=
  first [ assumption
        | apply elem_of_app; first [ left; solve_elem | right; solve_elem ]
        | apply elem_of_cons; first [ left; reflexivity | right; solve_elem ] ].

Ltac disj_leaf x :=
  first
    [ assumption
    | apply not_elem_of_nil
    | congruence
    | (let E := fresh in intros E; subst; contradiction)
    | match goal with
      | H : ∀ y, y ∈ _ → y ∉ _ |- x ∉ _ =>
          apply H; solve [solve_elem]
      | H : ∀ y, y ∈ _ → y ∉ _ |- x ∉ _ =>
          let Hin := fresh in
          intros Hin; eapply (H x); solve [solve_elem]
      end ].

Ltac solve_disj :=
  let x := fresh "x" in
  let Hx := fresh "Hx" in
  intros x Hx;
  repeat first [ apply not_elem_of_app; split | apply not_elem_of_cons; split ];
  disj_leaf x.

Ltac solve_nodup :=
  repeat first
    [ rewrite NoDup_cons | rewrite NoDup_middle | rewrite app_nil_r
    | rewrite NoDup_app ];
  repeat split;
  first [ assumption | apply NoDup_nil_2 | solve [solve_notin]
        | solve [solve_disj] ].

Ltac solve_in :=
  repeat first [ rewrite elem_of_cons | rewrite elem_of_app
               | rewrite not_elem_of_cons | rewrite not_elem_of_app
               | rewrite elem_of_nil ];
  intuition (subst; auto; congruence).

Ltac solve_chain :=
  repeat first
    [ rewrite chain_set_next by solve_notin
    | rewrite chain_set_prev by solve_notin ];
  assumption.

Ltac solve_link := split; fld_done.

Ltac chain_goal :=
  list_norm;
  repeat match goal with
  | |- chain _ _ (_ ++ _ :: _ :: _) => apply chain_app_cons; split
  | |- chain _ _ (_ :: _) => split
  | |- chain _ _ [] => exact I
  | |- link _ _ _ => solve_link
  | |- chain _ _ (_ ++ [_]) => solve_chain
  end.

Section insert_cycle.
Implicit Types (h : heap) (this pos p e : loc) (R : list loc).

Lemma insert_run h this pos p e :
  prev_of h pos = Some (Some p) → live h p → live h e → e ≠ pos →
  insert_ this (Iter (Some pos)) e h
  = Done (Iter (Some e)) (link_before pos p e h).
Proof.
  intros Hp Lp Le Hne. unfold insert_, it_deref, link_before; simpl current.
  steps. reflexivity.
Qed.

Lemma link_before_cycle h pos R e :
  cycle h (pos :: R) → detached h e →
  cycle (link_before pos (default pos (last R)) e h) (pos :: R ++ [e]).
Proof.
  intros Hc He. pose proof (detached_not_in_cycle _ _ _ Hc He) as Hin.
  apply detached_fields in He as [Hen Hep].
  destruct Hc as [Hnd Hc]. unfold link_before.
  destruct R as [|p R _] using rev_ind; simpl default.
  - list_norm. nodup_facts. chain_facts. split.
    + list_norm. solve_nodup.
    + chain_goal.
  - rewrite last_snoc. simpl default. list_norm. nodup_facts. chain_facts.
    split.
    + list_norm. solve_nodup.
    + chain_goal.
Qed.
End insert_cycle.

Section unlink_cycle.
Implicit Types (h : heap) (x n p : loc) (R : list loc).

Lemma unlinked_detached h x n p :
  live h x → detached (unlinked x n p h) x.
Proof.
  intros Lx. apply detached_fields. unfold unlinked. split; fld; done.
Qed.

Lemma unlinked_frame h x n p a :
  a ≠ x → a ≠ n → a ≠ p → unlinked x n p h !! a = h !! a.
Proof.
  intros. unfold unlinked, set_prev, set_next.
  by rewrite !lookup_alter_ne.
Qed.

Lemma unlinked_cycle h x R :
  cycle h (x :: R) → R ≠ [] →
  cycle (unlinked x (hd x R) (default x (last R)) h) R.
Proof.
  intros [Hnd Hc] HR. unfold unlinked.
  destruct R as [|n R]; [done|]. simpl hd.
  destruct R as [|p R _] using rev_ind.
  - simpl default. list_norm. nodup_facts. chain_facts. split.
    + solve_nodup.
    + chain_goal.
  - rewrite last_cons, last_snoc. simpl default.
    list_norm. nodup_facts. chain_facts. split.
    + list_norm. solve_nodup.
    + chain_goal.
Qed.

Lemma unlink_cycle_run h x R :
  cycle h (x :: R) →
  unlink (Some x) h = Done tt (unlinked x (hd x R) (default x (last R)) h).
Proof.
  intros [Hnd Hc]. apply unlink_linked.
  - destruct R; simpl in *; chain_facts; done.
  - destruct R as [|p R _] using rev_ind.
    + simpl in *. chain_facts. done.
    + rewrite last_snoc. list_norm. chain_facts. done.
  - destruct R as [|n R]; simpl in *; chain_facts; solve_live.
  - destruct R as [|p R _] using rev_ind.
    + simpl in *. chain_facts. solve_live.
    + rewrite last_snoc. list_norm. chain_facts. simpl. solve_live.
Qed.
End unlink_cycle.

(** ** The operations on a well-formed list *)

Section list_specs.
Implicit Types (h : heap) (f e pos : loc) (xs l : list loc).

Lemma hd_app_cons (d x : loc) l k : hd d (l ++ x :: k) = hd x l.
Proof. by destruct l. Qed.

Lemma last_app_cons_default (d x : loc) l k :
  default d (last (l ++ x :: k)) = default x (last k).
Proof.
  rewrite last_app_cons, last_cons. by destruct (last k).
Qed.

Lemma cycle_next h x R :
  cycle h (x :: R) → next_of h x = Some (Some (hd x R)).
Proof. intros [_ Hc]. destruct R; simpl in *; chain_facts; done. Qed.

Lemma cycle_prev h x R :
  cycle h (x :: R) → prev_of h x = Some (Some (default x (last R))).
Proof.
  intros [_ Hc]. destruct R as [|p R _] using rev_ind.
  - simpl in *. chain_facts. done.
  - rewrite last_snoc. list_norm. chain_facts. done.
Qed.

(** Rotating the cycle of a list so that it starts at an element. *)
Lemma is_list_rotate h f l1 x l2 :
  is_list h f (l1 ++ x :: l2) ↔ cycle h (x :: l2 ++ f :: l1).
Proof.
  unfold is_list. split; intros H.
  - by apply (cycle_rotate _ (f :: l1) (x :: l2)).
  - by apply (cycle_rotate _ (x :: l2) (f :: l1)).
Qed.

Lemma is_list_next h f l1 x l2 :
  is_list h f (l1 ++ x :: l2) → next_of h x = Some (Some (hd f l2)).
Proof.
  intros H%is_list_rotate%cycle_next. by rewrite hd_app_cons in H.
Qed.

Lemma is_list_prev h f l1 x l2 :
  is_list h f (l1 ++ x :: l2) → prev_of h x = Some (Some (default f (last l1))).
Proof.
  intros H%is_list_rotate%cycle_prev. by rewrite last_app_cons_default in H.
Qed.

Lemma is_list_elem_live h f xs x : is_list h f xs → x ∈ f :: xs → live h x.
Proof. apply cycle_live. Qed.

Lemma is_list_NoDup h f xs : is_list h f xs → NoDup (f :: xs).
Proof. by intros [? _]. Qed.

Lemma default_last_elem (d : loc) l : default d (last l) ∈ d :: l.
Proof.
  destruct l as [|p l _] using rev_ind; simpl; [set_solver|].
  rewrite last_snoc. set_solver.
Qed.

Lemma hd_elem (d : loc) l : hd d l ∈ d :: l.
Proof. destruct l; set_solver. Qed.

(** The node in front of a position and the node at that position are
    adjacent. *)
Lemma is_list_split_link h f l1 l2 :
  is_list h f (l1 ++ l2) → link h (default f (last l1)) (hd f l2).
Proof.
  intros Hl. destruct l2 as [|x l2]; simpl hd.
  - rewrite app_nil_r in Hl. split; [|by apply cycle_prev].
    destruct l1 as [|y l1 _] using rev_ind; [by apply (cycle_next _ _ [])|].
    rewrite last_snoc. simpl.
    by apply (is_list_next _ _ l1 y []) in Hl.
  - split; [|by eapply is_list_prev].
    destruct l1 as [|y l1 _] using rev_ind; simpl.
    + apply (cycle_next _ f (x :: l2) Hl).
    + rewrite last_snoc. simpl. rewrite <-app_assoc in Hl.
      by apply (is_list_next _ _ l1 y (x :: l2)) in Hl.
Qed.

(** [empty()] *)
Lemma empty_spec h f xs :
  is_list h f xs → empty f h = Done (bool_decide (xs = [])) h.
Proof.
  intros Hl. pose proof (cycle_next _ _ _ Hl) as Hn.
  apply is_list_NoDup in Hl. unfold empty. steps. unfold mret, M_ret.
  f_equal. destruct xs as [|x xs]; simpl.
  - by rewrite !bool_decide_true.
  - nodup_facts. by rewrite bool_decide_false by congruence.
Qed.

(** [insert(pos, e)], where [pos] is the position in front of [l2]. *)
Lemma insert_list_run h f l1 l2 e :
  is_list h f (l1 ++ l2) → detached h e →
  insert_ f (Iter (Some (hd f l2))) e h
  = Done (Iter (Some e)) (link_before (hd f l2) (default f (last l1)) e h).
Proof.
  intros Hl He. pose proof (detached_not_in_cycle _ _ _ Hl He) as Hin.
  destruct l2 as [|pos l2]; simpl hd.
  - rewrite app_nil_r in *. apply insert_run.
    + by apply cycle_prev.
    + eapply is_list_elem_live; [done|].
      pose proof (default_last_elem f l1). set_solver.
    + by exists (Node None None).
    + set_solver.
  - apply insert_run.
    + by eapply is_list_prev.
    + eapply is_list_elem_live; [done|].
      pose proof (default_last_elem f l1). set_solver.
    + by exists (Node None None).
    + set_solver.
Qed.

Lemma insert_list_post h f l1 l2 e :
  is_list h f (l1 ++ l2) → detached h e →
  is_list (link_before (hd f l2) (default f (last l1)) e h) f (l1 ++ e :: l2).
Proof.
  intros Hl He. destruct l2 as [|pos l2]; simpl hd.
  - rewrite app_nil_r in *. by apply link_before_cycle.
  - apply is_list_rotate in Hl.
    pose proof (link_before_cycle _ _ _ _ Hl He) as Hc.
    rewrite last_app_cons_default in Hc.
    unfold is_list.
    replace (f :: l1 ++ e :: pos :: l2) with ((f :: l1 ++ [e]) ++ pos :: l2)
      by (by list_norm).
    apply (cycle_rotate _ (pos :: l2) (f :: l1 ++ [e])).
    by list_norm.
Qed.

(** [erase(pos)] / unlinking an element of the list. *)
Lemma erase_list_run h f l1 pos l2 :
  is_list h f (l1 ++ pos :: l2) →
  unlink (Some pos) h
  = Done tt (unlinked pos (hd f l2) (default f (last l1)) h).
Proof.
  intros Hl%is_list_rotate. rewrite (unlink_cycle_run _ _ _ Hl).
  by rewrite hd_app_cons, last_app_cons_default.
Qed.

Lemma erase_list_post h f l1 pos l2 :
  is_list h f (l1 ++ pos :: l2) →
  is_list (unlinked pos (hd f l2) (default f (last l1)) h) f (l1 ++ l2).
Proof.
  intros Hl%is_list_rotate.
  pose proof (unlinked_cycle _ _ _ Hl) as Hc.
  rewrite hd_app_cons, last_app_cons_default in Hc.
  apply (cycle_rotate _ l2 (f :: l1)). apply Hc. by destruct l2.
Qed.
End list_specs.

Lemma sample_heap_is_list : is_list sample_heap 1 [10; 11]%positive.
Proof. apply (bool_decide_unpack _). vm_compute. exact I. Qed.

(** ** [unlink], [erase], [insert] and popping from an empty list *)

Lemma unlink_Done_detached (h h' : heap) (a : loc) :
  unlink (Some a) h = Done tt h' → detached h' a.
Proof.
  unfold unlink, mbind, M_bind, mret, M_ret, load, store_next, store_prev.
  intros H. repeat (case_match; simplify_eq); unfold detached;
    simplify_map_eq; done.
Qed.

Lemma unlink_detached (h : heap) (a : loc) :
  detached h a → unlink (Some a) h = Done tt h.
Proof.
  intros Hd. pose proof Hd as [Hn Hp]%detached_fields. unfold unlink.
  steps. rewrite set_next_id by done. by rewrite set_prev_id.
Qed.

Lemma link_before_frame (h : heap) (pos p e a : loc) :
  a ≠ e → a ≠ pos → a ≠ p → link_before pos p e h !! a = h !! a.
Proof.
  intros. unfold link_before, set_prev, set_next. by rewrite !lookup_alter_ne.
Qed.

Lemma unlinked_self (h : heap) (f : loc) :
  live h f → unlinked f f f h = <[f := Node None None]> h.
Proof.
  intros [nd Hnd]. unfold unlinked, set_prev, set_next. apply map_eq. intros b.
  destruct (decide (f = b)) as [<-|].
  - rewrite lookup_insert_eq, !lookup_alter_eq, Hnd. done.
  - rewrite lookup_insert_ne, !lookup_alter_ne; done.
Qed.

(** C7: [unlink()] on a linked node bridges its neighbours
    ([next.prev = prev], [prev.next = next]), then nulls the node's own two
    links, and touches no node besides these three; on a detached node it
    changes nothing; hence a second [unlink()] right after a first one is a
    no-op. *)
Theorem unlink_spec (h : heap) (a : loc) :
  (∀ n p, h !! a = Some (Node (Some n) (Some p)) → live h n → live h p →
     let h' := set_prev a None (set_next a None
                 (set_next p (Some n) (set_prev n (Some p) h))) in
     unlink (Some a) h = Done tt h'
     ∧ detached h' a
     ∧ (p ≠ a → next_of h' p = Some (Some n))
     ∧ (n ≠ a → prev_of h' n = Some (Some p))
     ∧ (∀ b, b ≠ a → b ≠ n → b ≠ p → h' !! b = h !! b))
  ∧ (detached h a → unlink (Some a) h = Done tt h)
  ∧ (∀ h', unlink (Some a) h = Done tt h' → unlink (Some a) h' = Done tt h').
Proof.
  split; [|split].
  - intros n p [Hn Hp]%lookup_fields Ln Lp h'.
    assert (live h a) by solve_live.
    split; [by apply unlink_linked|]. split; [|split; [|split]].
    + by apply unlinked_detached.
    + intros. subst h'. fld. done.
    + intros. subst h'. fld. done.
    + intros. by apply unlinked_frame.
  - apply unlink_detached.
  - intros h' H. by apply unlink_detached, unlink_Done_detached with h.
Qed.

(** C10: on an empty list [pop_back()] and [pop_front()] complete without a
    fault; they call [unlink()] on the sentinel itself, leaving [fake.next]
    and [fake.prev] null and every other node as it was.  Afterwards [empty()]
    answers [false], the sentinel no longer heads any chain, and walking the
    list from [begin()] dereferences a null pointer. *)
Theorem pop_on_empty_list (h : heap) (f : loc) :
  is_list h f [] →
  let h' := <[f := Node None None]> h in
  pop_back f h = unlink (Some f) h
  ∧ pop_front f h = unlink (Some f) h
  ∧ pop_back f h = Done tt h'
  ∧ pop_front f h = Done tt h'
  ∧ detached h' f
  ∧ (∀ a, a ≠ f → h' !! a = h !! a)
  ∧ empty f h' = Done false h'
  ∧ ¬ (next_of h' f = Some (Some f) ∧ prev_of h' f = Some (Some f))
  ∧ (∀ xs, ¬ is_list h' f xs)
  ∧ (∀ fuel, to_list (S fuel) f h' = Fault).
Proof.
  intros Hl h'.
  pose proof (cycle_next _ _ _ Hl) as Hn. pose proof (cycle_prev _ _ _ Hl) as Hp.
  simpl in Hn, Hp.
  assert (live h f) as Lf by solve_live.
  assert (detached h' f) as Hd by apply lookup_insert_eq.
  pose proof Hd as [Hn' Hp']%detached_fields.
  split_and!.
  - unfold pop_back. by erewrite run_load_prev by done.
  - unfold pop_front. by erewrite run_load_next by done.
  - unfold pop_back. erewrite run_load_prev by done.
    rewrite (unlink_cycle_run _ _ [] Hl). simpl. by rewrite unlinked_self.
  - unfold pop_front. erewrite run_load_next by done.
    rewrite (unlink_cycle_run _ _ [] Hl). simpl. by rewrite unlinked_self.
  - done.
  - intros a Ha. subst h'. by rewrite lookup_insert_ne.
  - unfold empty. erewrite run_load_next by done. done.
  - intros [? _]. congruence.
  - intros xs Hxs%cycle_next. congruence.
  - intros fuel. unfold to_list, begin_. rewrite run_bind_assoc.
    erewrite run_load_next by done. rewrite run_ret. done.
Qed.

Lemma pop_on_empty_list_witness :
  is_list empty_heap 1 []
  ∧ pop_back 1 empty_heap = Done tt (<[1%positive := Node None None]> empty_heap)
  ∧ empty 1 (<[1%positive := Node None None]> empty_heap)
    = Done false (<[1%positive := Node None None]> empty_heap).
Proof.
  assert (is_list empty_heap 1 []) as H
    by (apply (bool_decide_unpack _); vm_compute; exact I).
  split; [exact H|].
  destruct (pop_on_empty_list empty_heap 1 H) as (_ & _ & H1 & _ & _ & _ & H2 & _).
  exact (conj H1 H2).
Defined.

Lemma unlink_spec_witness :
  sample_heap !! 10%positive = Some (Node (Some 11%positive) (Some 1%positive))
  ∧ detached sample_heap 12
  ∧ (∃ h', unlink (Some 10%positive) sample_heap = Done tt h'
           ∧ detached h' 10
           ∧ unlink (Some 10%positive) h' = Done tt h')
  ∧ unlink (Some 12%positive) sample_heap = Done tt sample_heap.
Proof.
  assert (sample_heap !! 10%positive
          = Some (Node (Some 11%positive) (Some 1%positive))) as H10
    by (vm_compute; reflexivity).
  assert (live sample_heap 11) as L11
    by (apply (bool_decide_unpack _); vm_compute; exact I).
  assert (live sample_heap 1) as L1
    by (apply (bool_decide_unpack _); vm_compute; exact I).
  assert (detached sample_heap 12) as D12 by (vm_compute; reflexivity).
  destruct (unlink_spec sample_heap 10) as (Hlinked & _ & Htwice).
  destruct (unlink_spec sample_heap 12) as (_ & Hdetached & _).
  destruct (Hlinked _ _ H10 L11 L1) as (Hrun & Hdet & _).
  split; [exact H10|]. split; [exact D12|]. split.
  - eexists. split; [exact Hrun|]. split; [exact Hdet|]. exact (Htwice _ Hrun).
  - exact (Hdetached D12).
Defined.

(** C3: [erase(pos)] for an element [pos] of a list returns the iterator that
    [++pos] gave just before the call, leaves [pos] detached and its two former
    neighbours adjacent to each other, keeps the remaining elements in order,
    and changes no node besides [pos] and these two neighbours. *)
Theorem erase_spec (h : heap) (f : loc) (l1 : list loc) (pos : loc) (l2 : list loc) :
  is_list h f (l1 ++ pos :: l2) →
  let n := hd f l2 in
  let p := default f (last l1) in
  ∃ h',
    erase f (Iter (Some pos)) h = Done (Iter (Some n)) h'
    ∧ it_incr (Iter (Some pos)) h = Done (Iter (Some n)) h
    ∧ detached h' pos
    ∧ link h' p n
    ∧ is_list h' f (l1 ++ l2)
    ∧ (∀ a, a ≠ pos → a ≠ p → a ≠ n → h' !! a = h !! a)
    ∧ (p ≠ n → prev_of h' p = prev_of h p ∧ next_of h' n = next_of h n).
Proof.
  intros Hl n p. exists (unlinked pos n p h).
  pose proof (is_list_next _ _ _ _ _ Hl) as Hn.
  pose proof (erase_list_post _ _ _ _ _ Hl) as Hpost.
  assert (live h pos) as Lpos by solve_live.
  assert (p ≠ pos ∧ n ≠ pos) as [Hp Hn'].
  { pose proof (default_last_elem f l1). pose proof (hd_elem f l2).
    apply is_list_NoDup in Hl. fold p in H. fold n in H0.
    revert Hl. rewrite NoDup_cons, NoDup_middle. set_solver. }
  assert (live h p ∧ live h n) as [Lp Ln].
  { split; (eapply is_list_elem_live; [exact Hl|]).
    - pose proof (default_last_elem f l1). set_solver.
    - pose proof (hd_elem f l2). set_solver. }
  split; [|split; [|split; [|split; [|split; [|split]]]]].
  - unfold erase, it_deref; simpl current. erewrite run_load_next by done.
    erewrite run_bind_Done by (by eapply erase_list_run). done.
  - unfold it_incr; simpl current. by erewrite run_load_next by done.
  - by apply unlinked_detached.
  - unfold unlinked. split; fld; done.
  - done.
  - intros. by apply unlinked_frame.
  - intros Hpn. unfold unlinked. split; fld; done.
Qed.

Lemma erase_spec_witness :
  is_list sample_heap 1 ([] ++ 10%positive :: [11%positive])
  ∧ ∃ h', erase 1 (Iter (Some 10%positive)) sample_heap
          = Done (Iter (Some 11%positive)) h'
          ∧ is_list h' 1 [11%positive].
Proof.
  split; [exact sample_heap_is_list|].
  destruct (erase_spec sample_heap 1 [] 10 [11%positive] sample_heap_is_list)
    as (h' & Hrun & _ & _ & _ & Hpost & _).
  exists h'. exact (conj Hrun Hpost).
Defined.

Lemma push_back_insert (h : heap) (f e : loc) :
  push_back f e h = (insert_ f (end_ f) e ≫= λ _, mret tt) h.
Proof.
  unfold push_back, insert_, end_, it_deref; simpl current.
  do 5 (rewrite run_bind_assoc; apply run_bind_ext; clear h; intros ? h).
  rewrite run_bind_assoc, <-(run_bind_ret (store_prev _ _)).
  apply run_bind_ext. by intros [] ?.
Qed.

(** C8: [insert(pos, e)] of a detached element [e] at any position [pos] of a
    list, [end()] included, links [e] immediately in front of [pos], behind the
    former predecessor of [pos], and returns an iterator to [e]; whatever the
    heap, [push_back(e)] runs exactly as [insert(end(), e)] does. *)
Theorem insert_spec (h : heap) (f : loc) (l1 l2 : list loc) (e : loc) :
  is_list h f (l1 ++ l2) → detached h e →
  let pos := hd f l2 in
  let p := default f (last l1) in
  (∃ h',
    insert_ f (Iter (Some pos)) e h = Done (Iter (Some e)) h'
    ∧ link h' e pos
    ∧ link h' p e
    ∧ is_list h' f (l1 ++ e :: l2)
    ∧ (∀ a, a ≠ e → a ≠ pos → a ≠ p → h' !! a = h !! a))
  ∧ (∀ h0, push_back f e h0 = (insert_ f (end_ f) e ≫= λ _, mret tt) h0).
Proof.
  intros Hl He pos p. split; [|intros; apply push_back_insert].
  exists (link_before pos p e h).
  pose proof (detached_not_in_cycle _ _ _ Hl He) as Hin.
  pose proof (insert_list_post _ _ _ _ _ Hl He) as Hpost.
  assert (live h e) as Le by (by exists (Node None None)).
  assert (pos ∈ f :: l1 ++ l2 ∧ p ∈ f :: l1 ++ l2) as [Hpos Hp].
  { pose proof (default_last_elem f l1). pose proof (hd_elem f l2). set_solver. }
  assert (live h pos ∧ live h p) as [Lpos Lp].
  { split; eapply is_list_elem_live; done. }
  assert (e ≠ pos ∧ e ≠ p) as [? ?] by (split; intros ->; done).
  split; [|split; [|split; [|split]]].
  - by apply insert_list_run.
  - unfold link_before. split; fld; done.
  - unfold link_before. split; fld; done.
  - done.
  - intros. by apply link_before_frame.
Qed.

Lemma insert_spec_witness :
  is_list sample_heap 1 ([10%positive] ++ [11%positive])
  ∧ detached sample_heap 12
  ∧ ∃ h', insert_ 1 (Iter (Some 11%positive)) 12 sample_heap
          = Done (Iter (Some 12%positive)) h'
          ∧ is_list h' 1 [10; 12; 11]%positive.
Proof.
  assert (detached sample_heap 12) as D12 by (vm_compute; reflexivity).
  split; [exact sample_heap_is_list|]. split; [exact D12|].
  destruct (insert_spec sample_heap 1 [10%positive] [11%positive] 12
              sample_heap_is_list D12)
    as [(h' & Hrun & _ & _ & Hpost & _) _].
  exists h'. exact (conj Hrun Hpost).
Defined.

(** C9: inserting a detached element [e] at any position of a list and then
    erasing the iterator that [insert] returned gives back the very heap the
    insert started from: every node has its former [next] and [prev], and [e]
    is detached again. *)
Theorem insert_erase_roundtrip (h : heap) (f : loc) (l1 l2 : list loc) (e : loc) :
  is_list h f (l1 ++ l2) → detached h e →
  (it ← insert_ f (Iter (Some (hd f l2))) e; erase f it) h
  = Done (Iter (Some (hd f l2))) h.
Proof.
  intros Hl He.
  set (pos := hd f l2). set (p := default f (last l1)).
  pose proof (insert_list_post _ _ _ _ _ Hl He) as Hpost.
  erewrite run_bind_Done by (by apply insert_list_run).
  fold pos p in Hpost.
  unfold erase, it_deref in *; simpl current in *.
  pose proof (is_list_next _ _ _ _ _ Hpost) as Hn.
  pose proof (erase_list_run _ _ _ _ _ Hpost) as Hun.
  erewrite run_load_next by done.
  erewrite run_bind_Done by done. unfold mret, M_ret. f_equal.
  fold pos p.
  pose proof (detached_not_in_cycle _ _ _ Hl He) as Hin.
  assert (pos ∈ f :: l1 ++ l2 ∧ p ∈ f :: l1 ++ l2) as [Hpos Hp].
  { pose proof (default_last_elem f l1). pose proof (hd_elem f l2). set_solver. }
  assert (e ≠ pos ∧ e ≠ p) as [? ?] by (split; intros ->; done).
  pose proof He as [Hen Hep]%detached_fields.
  assert (next_of h p = Some (Some pos) ∧ prev_of h pos = Some (Some p))
    as [Hpn Hpp].
  { apply (is_list_split_link _ _ _ _ Hl). }
  assert (live h e ∧ live h p ∧ live h pos) as (? & ? & ?)
    by (repeat split; solve_live).
  unfold unlinked, link_before.
  apply heap_ext; intros a.
  - destruct (decide (a = e)) as [->|]; [fld; done|].
    destruct (decide (a = p)) as [->|]; fld; done.
  - destruct (decide (a = e)) as [->|]; [fld; done|].
    destruct (decide (a = pos)) as [->|]; fld; done.
Qed.

Lemma insert_erase_roundtrip_witness :
  is_list sample_heap 1 ([10%positive] ++ [11%positive])
  ∧ detached sample_heap 12
  ∧ (it ← insert_ 1 (Iter (Some 11%positive)) 12; erase 1 it) sample_heap
    = Done (Iter (Some 11%positive)) sample_heap.
Proof.
  assert (detached sample_heap 12) as D12 by (vm_compute; reflexivity).
  split; [exact sample_heap_is_list|]. split; [exact D12|].
  exact (insert_erase_roundtrip sample_heap 1 [10%positive] [11%positive] 12
           sample_heap_is_list D12).
Defined.

(** ** [swap] *)

Lemma heap_frame_set_next (h : heap) (a b : loc) (v : ptr) :
  a ≠ b → set_next a v h !! b = h !! b.
Proof. intros. unfold set_next. by rewrite lookup_alter_ne. Qed.

Lemma heap_frame_set_prev (h : heap) (a b : loc) (v : ptr) :
  a ≠ b → set_prev a v h !! b = h !! b.
Proof. intros. unfold set_prev. by rewrite lookup_alter_ne. Qed.

Ltac solve_frame :=
  repeat first
    [ rewrite heap_frame_set_next by congruence
    | rewrite heap_frame_set_prev by congruence ];
  reflexivity.

Lemma swap_lists (h : heap) (f r : loc) (xs ys : list loc) :
  is_list h f xs → is_list h r ys → NoDup ((f :: xs) ++ (r :: ys)) →
  ∃ h', swap f r h = Done tt h'
        ∧ is_list h' f ys ∧ is_list h' r xs
        ∧ (∀ a, a ∉ (f :: xs) ++ (r :: ys) → h' !! a = h !! a).
Proof.
  intros [_ Hf] [_ Hr] Hnd. unfold is_list, cycle, swap, std_swap.
  destruct xs as [|x1 xs]; [|destruct xs as [|xn xs _] using rev_ind];
  (destruct ys as [|y1 ys]; [|destruct ys as [|ym ys _] using rev_ind]);
    list_norm; simpl in Hf, Hr; nodup_facts; chain_facts;
    (eexists; split; [steps; reflexivity|]);
    (split; [split; [solve_nodup|chain_goal]|]);
    (split; [split; [solve_nodup|chain_goal]|]);
    intros a Ha; list_norm; nodup_facts; solve_frame.
Qed.

Ltac split_on a :=
  repeat match goal with
  | x : positive |- _ =>
      lazymatch x with a => fail | _ => idtac end;
      lazymatch goal with | _ : a ≠ x |- _ => fail | _ => idtac end;
      destruct (decide (a = x)) as [->|]; [solve [fld; done] | ]
  end.

Ltac heap_eq :=
  apply heap_ext; (let a := fresh "a" in intros a; split_on a; fld; done).

Lemma swap_swap (h : heap) (f r : loc) (xs ys : list loc) :
  is_list h f xs → is_list h r ys → NoDup ((f :: xs) ++ (r :: ys)) →
  (swap f r;; swap f r) h = Done tt h.
Proof.
  intros [_ Hf] [_ Hr] Hnd. unfold swap, std_swap.
  destruct xs as [|x1 xs]; [|destruct xs as [|xn xs _] using rev_ind];
  (destruct ys as [|y1 ys]; [|destruct ys as [|ym ys _] using rev_ind]);
    list_norm; simpl in Hf, Hr; nodup_facts; chain_facts;
    steps; unfold mret, M_ret; f_equal; heap_eq.
Qed.

(** Swapping a list with itself changes nothing. *)
Lemma swap_self (h : heap) (f : loc) (xs : list loc) :
  is_list h f xs → swap f f h = Done tt h.
Proof.
  intros [Hnd Hf]. unfold swap, std_swap.
  destruct xs as [|x1 xs]; [|destruct xs as [|xn xs _] using rev_ind];
    list_norm; simpl in Hf; nodup_facts; chain_facts;
    steps; unfold mret, M_ret; f_equal; heap_eq.
Qed.

(** ** Traversal *)

Lemma walk_chain (h : heap) (f : loc) (r : list loc) :
  ∀ x fuel, chain h x (r ++ [f]) → f ∉ r →
    walk fuel (Iter (Some (hd f r))) (end_ f) h
    = if decide (length r < fuel) then Done r h else OutOfFuel.
Proof.
  induction r as [|y r IH]; intros x fuel Hc Hf.
  - destruct fuel; simpl; [done|].
    unfold it_neq, end_; simpl. by rewrite bool_decide_false by naive_solver.
  - destruct fuel; simpl walk; [done|].
    simpl in Hc. destruct Hc as [_ Hc]. apply not_elem_of_cons in Hf as [Hfy Hf].
    unfold it_neq, end_, it_deref, it_incr; cbn [current].
    rewrite bool_decide_true by congruence.
    assert (next_of h y = Some (Some (hd f r))) as Hn.
    { destruct r; simpl in *; chain_facts; done. }
    rewrite run_bind_assoc. erewrite run_load_next by done. rewrite run_ret.
    unfold mbind at 1, M_bind at 1. fold (end_ f). rewrite (IH y fuel Hc Hf).
    simpl length. destruct (decide (length r < fuel)).
    + rewrite decide_True by lia. done.
    + rewrite decide_False by lia. done.
Qed.

Lemma to_list_run (h : heap) (f : loc) (xs : list loc) (fuel : nat) :
  is_list h f xs →
  to_list fuel f h = if decide (length xs < fuel) then Done xs h else OutOfFuel.
Proof.
  intros Hl. pose proof (cycle_next _ _ _ Hl) as Hn. destruct Hl as [Hnd Hc].
  unfold to_list, begin_. rewrite run_bind_assoc.
  erewrite run_load_next by done. rewrite run_ret.
  apply NoDup_cons in Hnd as [Hf _]. by eapply walk_chain.
Qed.

(** Walking a list from [begin()] to [end()] yields its elements, provided the
    loop is given at least one step more than there are elements. *)
Lemma to_list_spec (h : heap) (f : loc) (xs : list loc) (fuel : nat) :
  is_list h f xs → length xs < fuel → to_list fuel f h = Done xs h.
Proof. intros Hl Hlt. rewrite (to_list_run _ _ xs) by done. by rewrite decide_True. Qed.

Lemma to_list_det (h h' : heap) (f : loc) (xs ys : list loc) (fuel : nat) :
  is_list h f xs → to_list fuel f h = Done ys h' → ys = xs ∧ h' = h.
Proof.
  intros Hl. rewrite (to_list_run _ _ xs) by done. case_decide; naive_solver.
Qed.

Lemma walk_back_list (h : heap) (f : loc) (l1 : list loc) :
  ∀ l2 fuel, is_list h f (l1 ++ l2) → length l1 < fuel →
    walk_back fuel (Iter (Some (hd f l2))) (Iter (Some (hd f (l1 ++ l2)))) h
    = Done (rev l1) h.
Proof.
  induction l1 as [|x l1 IH] using rev_ind; intros l2 fuel Hl Hlt.
  - destruct fuel; [lia|]. simpl. unfold it_neq; simpl.
    by rewrite bool_decide_false by naive_solver.
  - destruct fuel; [simpl in Hlt; lia|].
    rewrite length_app in Hlt. simpl in Hlt.
    pose proof (is_list_split_link _ _ _ _ Hl) as [_ Hp].
    rewrite last_snoc in Hp. simpl in Hp.
    rewrite <-app_assoc in *. simpl in Hl |- *.
    assert (hd f l2 ≠ hd f (l1 ++ x :: l2)) as Hne.
    { rewrite (hd_app_cons f x). apply is_list_NoDup in Hl.
      pose proof (hd_elem f l2) as H2. pose proof (hd_elem x l1) as H1.
      revert Hl. rewrite NoDup_cons, NoDup_app, NoDup_cons.
      intros (Hf & _ & Hd & Hx & _). intros E. rewrite E in H2.
      clear E Hp IH Hlt. revert H1 H2. generalize (hd x l1). set_solver. }
    unfold it_neq, it_decr, it_deref; cbn [current].
    rewrite bool_decide_true by congruence.
    rewrite run_bind_assoc. erewrite run_load_prev by done. rewrite run_ret.
    cbn [current]. unfold mbind at 1, M_bind at 1.
    pose proof (IH (x :: l2) fuel Hl) as IH'. simpl hd in IH'.
    rewrite IH' by lia. by rewrite rev_app_distr.
Qed.

(** Walking a list backwards from [end()] to [begin()] yields its elements in
    reverse. *)
Lemma to_list_rev_spec (h : heap) (f : loc) (xs : list loc) (fuel : nat) :
  is_list h f xs → length xs < fuel → to_list_rev fuel f h = Done (rev xs) h.
Proof.
  intros Hl Hlt. pose proof (cycle_next _ _ _ Hl) as Hn.
  unfold to_list_rev, begin_. rewrite run_bind_assoc.
  erewrite run_load_next by done. rewrite run_ret.
  pose proof (walk_back_list h f xs [] fuel) as H.
  rewrite app_nil_r in H. by apply H.
Qed.

(** ** [clear], construction and moves *)

Lemma clear_spec (h : heap) (f : loc) (xs : list loc) :
  is_list h f xs →
  ∃ h', (∀ fuel, length xs < fuel → clear fuel f h = Done tt h')
        ∧ is_list h' f []
        ∧ (∀ x, x ∈ xs → detached h' x)
        ∧ (∀ a, a ∉ f :: xs → h' !! a = h !! a).
Proof.
  revert h. induction xs as [|x xs IH]; intros h Hl.
  - exists h. pose proof (cycle_next _ _ _ Hl) as Hn.
    split; [|split; [done|split; [by intros ? ?%elem_of_nil|done]]].
    intros [|fuel] ?; [simpl in *; lia|]. simpl clear.
    erewrite run_load_next by done. simpl.
    by rewrite bool_decide_false by naive_solver.
  - pose proof (cycle_next _ _ _ Hl) as Hn. simpl in Hn.
    pose proof (erase_list_run _ _ [] _ _ Hl) as Hrun.
    pose proof (erase_list_post _ _ [] _ _ Hl) as Hpost.
    simpl in Hrun, Hpost.
    assert (live h x) as Lx by (eapply is_list_elem_live; [done|solve_in]).
    pose proof (unlinked_detached h x (hd f xs) f Lx) as Hdx.
    destruct (IH _ Hpost) as (h' & Hclear & Hl' & Hdet & Hframe).
    pose proof (is_list_NoDup _ _ _ Hl) as Hnd.
    apply NoDup_cons in Hnd as [Hf Hnd]. apply NoDup_cons in Hnd as [Hx Hnd].
    apply not_elem_of_cons in Hf as [Hfx Hf].
    exists h'. split; [|split; [done|split]].
    + intros [|fuel] Hlt; [simpl in *; lia|]. simpl clear.
      erewrite run_load_next by done.
      rewrite bool_decide_true by congruence.
      erewrite run_bind_Done by done. apply Hclear. simpl in Hlt. lia.
    + intros y [->|Hy]%elem_of_cons; [|by apply Hdet].
      unfold detached. rewrite Hframe; [done|]. solve_in.
    + intros a Ha. rewrite Hframe by (revert Ha; solve_in).
      pose proof (hd_elem f xs) as Hhd.
      apply unlinked_frame; [revert Ha; solve_in| |revert Ha; solve_in].
      intros ->. revert Ha Hhd. solve_in.
Qed.

Lemma list_ctor_spec (h : heap) (d : loc) :
  h !! d = None →
  list_ctor d h = Done tt (<[d := Node (Some d) (Some d)]> h)
  ∧ is_list (<[d := Node (Some d) (Some d)]> h) d [].
Proof.
  intros Hd. split.
  - unfold list_ctor, alloc. unfold mbind at 1, M_bind at 1. rewrite Hd.
    assert (live (<[d:=Node None None]> h) d) as L
      by (exists (Node None None); apply lookup_insert_eq).
    steps. f_equal. rewrite <-insert_node by done. apply insert_insert_eq.
  - split; [solve_nodup|]. simpl.
    split; [split|done]; unfold next_of, prev_of; by rewrite lookup_insert_eq.
Qed.

(** Two chains that share a node consist of the same nodes. *)
Lemma chain_stays_in_cycle (h : heap) (c r : list loc) (x : loc) :
  cycle h c → x ∈ c → chain h x r → ∀ y, y ∈ r → y ∈ c.
Proof.
  intros Hc. revert x. induction r as [|z r IH]; intros x Hx Hr y Hy.
  - by apply elem_of_nil in Hy.
  - simpl in Hr. destruct Hr as [[Hn _] Hr].
    destruct (cycle_elem _ _ _ Hc Hx) as (n & _ & Hin & _ & [Hn' _] & _).
    assert (z = n) as -> by congruence.
    apply elem_of_cons in Hy as [->|Hy]; [done|]. by eapply IH.
Qed.

Lemma cycles_share (h : heap) (c1 c2 : list loc) (x : loc) :
  cycle h c1 → cycle h c2 → x ∈ c1 → x ∈ c2 → ∀ y, y ∈ c2 → y ∈ c1.
Proof.
  intros H1 H2 Hx1 (l1 & l2 & ->)%list_elem_of_split y Hy.
  apply cycle_rotate in H2. simpl in H2. destruct H2 as [_ H2].
  eapply (chain_stays_in_cycle _ _ _ _ H1 Hx1 H2).
  revert Hy. solve_in.
Qed.

(** Two lists whose sentinels are not elements of one another have no node
    in common. *)
Lemma lists_disjoint (h : heap) (a b : loc) (xs ys : list loc) :
  is_list h a xs → is_list h b ys → b ∉ a :: xs →
  NoDup ((a :: xs) ++ (b :: ys)).
Proof.
  intros Ha Hb Hnin. apply NoDup_app. split; [by destruct Ha|].
  split; [|by destruct Hb]. intros x Hx1 Hx2. apply Hnin.
  eapply (cycles_share _ _ _ x Ha Hb Hx1 Hx2). apply elem_of_cons. by left.
Qed.

(** C5: swapping two lists, whether empty or not, exchanges their element
    sequences and touches no node outside the two lists; a second swap
    restores the heap, hence the contents of both lists, exactly. *)
Theorem swap_spec (h : heap) (a b : loc) (xs ys : list loc) :
  is_list h a xs → is_list h b ys → b ∉ a :: xs →
  ∃ h',
    swap a b h = Done tt h'
    ∧ is_list h' a ys ∧ is_list h' b xs
    ∧ to_list (S (length ys)) a h' = Done ys h'
    ∧ to_list (S (length xs)) b h' = Done xs h'
    ∧ (∀ c, c ∉ (a :: xs) ++ (b :: ys) → h' !! c = h !! c)
    ∧ swap a b h' = Done tt h.
Proof.
  intros Ha Hb Hnin. pose proof (lists_disjoint _ _ _ _ _ Ha Hb Hnin) as Hnd.
  destruct (swap_lists _ _ _ _ _ Ha Hb Hnd) as (h' & Hrun & Ha' & Hb' & Hfr).
  exists h'. split; [done|]. split; [done|]. split; [done|].
  split; [apply to_list_spec; [done|lia]|].
  split; [apply to_list_spec; [done|lia]|]. split; [done|].
  pose proof (swap_swap _ _ _ _ _ Ha Hb Hnd) as H2.
  by erewrite run_bind_Done in H2 by done.
Qed.

Lemma two_lists_heap_1 : is_list two_lists_heap 1 [10; 11]%positive.
Proof. apply (bool_decide_unpack _). vm_compute. exact I. Qed.

Lemma two_lists_heap_2 : is_list two_lists_heap 2 [].
Proof. apply (bool_decide_unpack _). vm_compute. exact I. Qed.

Lemma swap_spec_witness :
  is_list two_lists_heap 1 [10; 11]%positive
  ∧ is_list two_lists_heap 2 []
  ∧ (2%positive ∉ [1; 10; 11]%positive)
  ∧ ∃ h', swap 1 2 two_lists_heap = Done tt h'
          ∧ is_list h' 1 [] ∧ is_list h' 2 [10; 11]%positive
          ∧ swap 1 2 h' = Done tt two_lists_heap.
Proof.
  assert (2%positive ∉ [1; 10; 11]%positive) as Hnin
    by (apply (bool_decide_unpack _); vm_compute; exact I).
  split; [exact two_lists_heap_1|]. split; [exact two_lists_heap_2|].
  split; [exact Hnin|].
  destruct (swap_spec two_lists_heap 1 2 _ _
              two_lists_heap_1 two_lists_heap_2 Hnin)
    as (h' & Hrun & H1 & H2 & _ & _ & _ & Hback).
  exists h'. exact (conj Hrun (conj H1 (conj H2 Hback))).
Defined.

(** C6: move-constructing a list from [s] into fresh storage [d], or
    move-assigning [s] into a distinct list [d], leaves [d] holding the former
    elements of [s] in their former order and [s] empty; the elements [d] held
    before a move-assignment end up detached.  The loop of [clear] needs one
    step more than the number of nodes it unlinks. *)
Theorem move_spec (h : heap) (s : loc) (xs : list loc) :
  is_list h s xs →
  (∀ d fuel, h !! d = None → 0 < fuel →
     ∃ h', list_move_ctor fuel d s h = Done tt h'
           ∧ is_list h' d xs ∧ is_list h' s []
           ∧ (∀ a, a ∉ d :: s :: xs → h' !! a = h !! a))
  ∧ (∀ d ys fuel, is_list h d ys → d ∉ s :: xs → length ys < fuel →
       ∃ h', list_move_assign fuel d s h = Done d h'
             ∧ is_list h' d xs ∧ is_list h' s []
             ∧ (∀ y, y ∈ ys → detached h' y)
             ∧ (∀ a, a ∉ (s :: xs) ++ (d :: ys) → h' !! a = h !! a)).
Proof.
  intros Hs. split.
  - intros d fuel Hd Hfuel.
    destruct (list_ctor_spec _ _ Hd) as [Hctor Hd1].
    set (h1 := <[d:=Node (Some d) (Some d)]> h) in *.
    assert (d ∉ s :: xs) as Hnin.
    { intros Hin. destruct (cycle_live _ _ _ Hs Hin) as [? ?]. congruence. }
    assert (∀ a, a ≠ d → h1 !! a = h !! a) as Hfr1
      by (intros; by apply lookup_insert_ne).
    assert (is_list h1 s xs) as Hs1.
    { eapply cycle_ext; [|done]. intros a Ha. apply Hfr1. congruence. }
    assert (s ∉ d :: []) as Hsd by (revert Hnin; solve_in).
    pose proof (lists_disjoint _ _ _ _ _ Hd1 Hs1 Hsd) as Hnd.
    destruct (swap_lists _ _ _ _ _ Hd1 Hs1 Hnd) as (h2 & Hswap & Hd2 & Hs2 & Hfr2).
    destruct (clear_spec _ _ _ Hs2) as (h3 & Hclear & Hs3 & _ & Hfr3).
    exists h3. split; [|split; [|split; [done|]]].
    + unfold list_move_ctor. erewrite run_bind_Done by done.
      erewrite run_bind_Done by done. by apply Hclear.
    + eapply cycle_ext; [|done]. intros a Ha. apply Hfr3.
      apply is_list_NoDup, NoDup_cons in Hs as [Hsxs _].
      revert Ha Hnin Hsxs. solve_in.
    + intros a Ha. rewrite Hfr3, Hfr2, Hfr1; [done|..]; revert Ha; solve_in.
  - intros d ys fuel Hd Hnin Hfuel.
    assert (s ∉ d :: ys) as Hnin'.
    { intros Hin. apply Hnin.
      eapply (cycles_share _ _ _ s Hs Hd); [solve_in|done|solve_in]. }
    pose proof (lists_disjoint _ _ _ _ _ Hd Hs Hnin') as Hnd.
    destruct (swap_lists _ _ _ _ _ Hd Hs Hnd) as (h2 & Hswap & Hd2 & Hs2 & Hfr2).
    destruct (clear_spec _ _ _ Hs2) as (h3 & Hclear & Hs3 & Hdet & Hfr3).
    pose proof Hnd as Hnd2. apply NoDup_app in Hnd2 as (Hdy & Hdisj & Hsx).
    apply NoDup_cons in Hsx as [Hsx _]. apply NoDup_cons in Hdy as [Hdy _].
    exists h3. split; [|split; [|split; [done|split; [done|]]]].
    + unfold list_move_assign. erewrite run_bind_Done by done.
      erewrite run_bind_Done by (by apply Hclear). done.
    + eapply cycle_ext; [|done]. intros a Ha. apply Hfr3.
      clear -Ha Hdisj Hsx Hdy Hnin. set_solver.
    + intros a Ha. rewrite Hfr3, Hfr2; [done|..]; revert Ha; solve_in.
Qed.

Lemma move_spec_witness :
  is_list two_lists_heap 1 [10; 11]%positive
  ∧ (∃ h', list_move_ctor 1 3 1 two_lists_heap = Done tt h'
           ∧ is_list h' 3 [10; 11]%positive ∧ is_list h' 1 [])
  ∧ (∃ h', list_move_assign 1 2 1 two_lists_heap = Done 2%positive h'
           ∧ is_list h' 2 [10; 11]%positive ∧ is_list h' 1 []).
Proof.
  destruct (move_spec two_lists_heap 1 _ two_lists_heap_1) as [Hctor Hassign].
  assert (two_lists_heap !! 3%positive = None) as H3 by (vm_compute; reflexivity).
  assert (2%positive ∉ [1; 10; 11]%positive) as Hnin
    by (apply (bool_decide_unpack _); vm_compute; exact I).
  split; [exact two_lists_heap_1|]. split.
  - destruct (Hctor 3%positive 1 H3 (le_n 1)) as (h' & Hrun & Hd & Hs & _).
    exists h'. exact (conj Hrun (conj Hd Hs)).
  - destruct (Hassign 2%positive [] 1 two_lists_heap_2 Hnin (le_n 1))
      as (h' & Hrun & Hd & Hs & _).
    exists h'. exact (conj Hrun (conj Hd Hs)).
Defined.

(** ** [splice] *)

Lemma splice_cycles (h : heap) (this other pos fl : loc) (T M S : list loc) :
  cycle h (pos :: T) → cycle h (fl :: M ++ S) → S ≠ [] →
  NoDup ((pos :: T) ++ fl :: M ++ S) →
  ∃ h',
    splice this (Iter (Some pos)) other (Iter (Some fl)) (Iter (Some (hd fl S))) h
    = Done tt h'
    ∧ cycle h' (pos :: T ++ fl :: M) ∧ cycle h' S
    ∧ (∀ a, a ∉ (pos :: T) ++ fl :: M ++ S → h' !! a = h !! a).
Proof.
  intros [_ Ht] [_ Ho] HS Hnd. unfold cycle, splice, it_eq, it_decr.
  destruct S as [|s1 S]; [done|]. clear HS. cbn [hd].
  destruct T as [|tl T _] using rev_ind;
  (destruct M as [|fr M _] using rev_ind);
  (destruct S as [|sn S _] using rev_ind);
    list_norm; simpl in Ht, Ho; nodup_facts; chain_facts.
  all: (eexists; split; [steps; reflexivity|]).
  all: split; [split|split; [split|]].
  all: try solve [list_norm; solve_nodup].
  all: try solve [chain_goal].
  all: try solve [intros a Ha; list_norm; nodup_facts; solve_frame].
Qed.

Lemma splice_same_cycle (h : heap) (this other pos fl : loc) (M R Q : list loc) :
  cycle h (fl :: M ++ R ++ pos :: Q) → R ≠ [] →
  ∃ h',
    splice this (Iter (Some pos)) other (Iter (Some fl)) (Iter (Some (hd pos R))) h
    = Done tt h'
    ∧ cycle h' (R ++ fl :: M ++ pos :: Q)
    ∧ (∀ a, a ∉ fl :: M ++ R ++ pos :: Q → h' !! a = h !! a).
Proof.
  intros [Hnd Ho] HR. unfold cycle, splice, it_eq, it_decr.
  destruct R as [|r1 R]; [done|]. clear HR. cbn [hd].
  destruct M as [|fr M _] using rev_ind;
  (destruct R as [|tl R _] using rev_ind);
  (destruct Q as [|flp Q _] using rev_ind);
    list_norm; simpl in Ho; nodup_facts; chain_facts.
  all: (eexists; split; [steps; reflexivity|]).
  all: split; [split|].
  all: try solve [list_norm; solve_nodup].
  all: try solve [chain_goal].
  all: try solve [intros a Ha; list_norm; nodup_facts; solve_frame].
Qed.

Lemma cycle_NoDup (h : heap) (c : list loc) : cycle h c → NoDup c.
Proof. destruct c; [done|]. by intros [? _]. Qed.

Lemma cycles_disjoint (h : heap) (c1 c2 : list loc) (x : loc) :
  cycle h c1 → cycle h c2 → x ∈ c2 → x ∉ c1 → NoDup (c1 ++ c2).
Proof.
  intros H1 H2 Hx2 Hx1. apply NoDup_app.
  split; [by eapply cycle_NoDup|]. split; [|by eapply cycle_NoDup].
  intros y Hy1 Hy2. apply Hx1. by eapply (cycles_share _ _ _ y H1 H2).
Qed.

Ltac elem_tauto :=
  repeat first [ rewrite elem_of_cons | rewrite elem_of_app
               | rewrite not_elem_of_cons | rewrite not_elem_of_app
               | rewrite elem_of_nil ];
  tauto.

(** Moving a range, possibly empty, from the list [other] in front of a
    position of another list [this]. *)
Lemma splice_lists (h : heap) (this other : loc) (l1 l2 k1 mid k2 : list loc) :
  is_list h this (l1 ++ l2) → is_list h other (k1 ++ mid ++ k2) →
  other ∉ (this :: l1 ++ l2) →
  ∃ h',
    splice this (Iter (Some (hd this l2))) other
      (Iter (Some (hd other (mid ++ k2)))) (Iter (Some (hd other k2))) h
    = Done tt h'
    ∧ is_list h' this (l1 ++ mid ++ l2)
    ∧ is_list h' other (k1 ++ k2)
    ∧ (mid = [] → h' = h)
    ∧ (∀ a, a ∉ (this :: l1 ++ l2) ++ (other :: k1 ++ mid ++ k2) →
         h' !! a = h !! a).
Proof.
  intros Ht Ho Hnin.
  destruct mid as [|fl M].
  - exists h. simpl in *.
    split; [unfold splice, it_eq; cbn [current]; by rewrite bool_decide_true|].
    done.
  - set (pos := hd this l2). simpl hd.
    assert (∃ T, cycle h (pos :: T)
                 ∧ (∀ a, a ∈ pos :: T ↔ a ∈ this :: l1 ++ l2)
                 ∧ (∀ h', cycle h' (pos :: T ++ fl :: M) →
                          is_list h' this (l1 ++ (fl :: M) ++ l2)))
      as (T & HcT & HTin & HTback).
    { subst pos. destruct l2 as [|x l2]; simpl hd.
      - exists l1. rewrite app_nil_r in *. split; [done|]. split; [done|].
        intros h' Hc. by rewrite app_nil_r.
      - exists (l2 ++ this :: l1). split; [by apply is_list_rotate|].
        split; [intros a; elem_tauto|].
        intros h' Hc. unfold is_list.
        replace (this :: l1 ++ (fl :: M) ++ x :: l2)
          with ((this :: l1 ++ fl :: M) ++ x :: l2) by (by list_norm).
        apply (cycle_rotate _ (x :: l2) (this :: l1 ++ fl :: M)).
        by list_norm. }
    pose proof Ho as HcS. apply is_list_rotate in HcS.
    rewrite <-app_assoc in HcS.
    assert (hd fl (k2 ++ other :: k1) = hd other k2) as Hlast by (by destruct k2).
    assert (NoDup ((pos :: T) ++ fl :: M ++ k2 ++ other :: k1)) as Hnd.
    { eapply (cycles_disjoint _ _ _ other); [done|done|elem_tauto|].
      rewrite HTin. done. }
    destruct (splice_cycles h this other pos fl T M (k2 ++ other :: k1) HcT HcS)
      as (h' & Hrun & Hc1 & Hc2 & Hfr); [by destruct k2|done|].
    rewrite Hlast in Hrun. exists h'.
    split; [done|]. split; [by apply HTback|].
    split; [apply (cycle_rotate _ k2 (other :: k1) Hc2)|]. split; [done|].
    intros a Ha. apply Hfr. intros Hin. apply Ha.
    revert Hin. rewrite elem_of_app, HTin. elem_tauto.
Qed.

Lemma bind_Done_inv {A B} (m : M A) (k : A → M B) (h h' : heap) (b : B) :
  (m ≫= k) h = Done b h' → ∃ a h1, m h = Done a h1 ∧ k a h1 = Done b h'.
Proof. unfold mbind, M_bind. destruct (m h); naive_solver. Qed.

Lemma run_load_next_dead {B} (h : heap) (a : loc) (k : ptr → M B) :
  next_of h a = None → (load next (Some a) ≫= k) h = Fault.
Proof.
  unfold next_of, mbind, M_bind, load. by destruct (h !! a).
Qed.

(** The forward walk reads [next] fields only. *)
Lemma walk_next_ext (h h' : heap) (fuel : nat) (it e : list_iterator) :
  (∀ a, next_of h' a = next_of h a) →
  walk fuel it e h'
  = match walk fuel it e h with
    | Done r _ => Done r h'
    | Fault => Fault
    | OutOfFuel => OutOfFuel
    end.
Proof.
  intros Hn. revert it. induction fuel as [|fuel IH]; intros it; [done|].
  cbn [walk]. destruct (it_neq it e); [|done].
  destruct it as [[a|]]; cbn [it_deref current]; [|done].
  unfold it_incr; cbn [current]. rewrite !run_bind_assoc.
  specialize (Hn a).
  destruct (next_of h a) as [n|] eqn:E.
  - erewrite !run_load_next by done. rewrite !run_ret.
    unfold mbind, M_bind. rewrite IH. by destruct (walk fuel _ e h).
  - by rewrite !run_load_next_dead by congruence.
Qed.

Lemma to_list_next_ext (h h' : heap) (fuel : nat) (f : loc) (xs : list loc) :
  (∀ a, next_of h' a = next_of h a) →
  to_list fuel f h = Done xs h → to_list fuel f h' = Done xs h'.
Proof.
  intros Hn. unfold to_list, begin_. rewrite !run_bind_assoc.
  intros H. apply bind_Done_inv in H as (n & h1 & Hload & H).
  assert (h1 = h ∧ next_of h f = Some n) as [-> Hnf].
  { unfold load, next_of in *. destruct (h !! f); by simplify_eq/=. }
  rewrite run_ret in H.
  erewrite run_load_next by (by rewrite Hn). rewrite run_ret.
  rewrite (walk_next_ext h h') by done. by rewrite H.
Qed.

(** [splice] of a range of a chain in front of the node that follows the
    range: the [next] fields all end up as they were. *)
Lemma splice_at_last_cycle (h : heap) (this other pos fl : loc) (M Q : list loc) :
  cycle h (fl :: M ++ pos :: Q) →
  ∃ h',
    splice this (Iter (Some pos)) other (Iter (Some fl)) (Iter (Some pos)) h
    = Done tt h'
    ∧ (∀ a, next_of h' a = next_of h a)
    ∧ (∀ a, a ∉ fl :: M ++ pos :: Q → h' !! a = h !! a).
Proof.
  intros [Hnd Ho]. unfold splice, it_eq, it_decr.
  destruct M as [|fr M _] using rev_ind;
  (destruct Q as [|flp Q _] using rev_ind);
    list_norm; simpl in Ho; nodup_facts; chain_facts.
  all: (eexists; split; [steps; reflexivity|]).
  all: split; [intros a; split_on a; fld; done|].
  all: intros a Ha; list_norm; nodup_facts; solve_frame.
Qed.

Lemma cycle_rotate_to (h : heap) (c l1 l2 : list loc) :
  cycle h c → c = l1 ++ l2 → cycle h (l2 ++ l1).
Proof. intros Hc ->. by apply cycle_rotate. Qed.

(** Moving a range of a list to another position of the same list. *)
Lemma splice_within (h : heap) (f : loc) (k1 mid k2 r1 r2 : list loc) :
  is_list h f (k1 ++ mid ++ k2) → k1 ++ k2 = r1 ++ r2 →
  ∃ h',
    splice f (Iter (Some (hd f r2))) f
      (Iter (Some (hd f (mid ++ k2)))) (Iter (Some (hd f k2))) h
    = Done tt h'
    ∧ to_list (S (length (r1 ++ mid ++ r2))) f h' = Done (r1 ++ mid ++ r2) h'
    ∧ (mid = [] ∨ hd f r2 ≠ hd f k2 → is_list h' f (r1 ++ mid ++ r2))
    ∧ (mid = [] → h' = h)
    ∧ (∀ a, a ∉ f :: k1 ++ mid ++ k2 → h' !! a = h !! a).
Proof.
  intros Hl Hsplit.
  destruct mid as [|fl M].
  { exists h. simpl in *. rewrite Hsplit in Hl.
    split; [unfold splice, it_eq; cbn [current]; by rewrite bool_decide_true|].
    split; [apply to_list_spec; [done|lia]|]. done. }
  cbn [hd app].
  assert (∀ h', is_list h' f (r1 ++ (fl :: M) ++ r2) →
     to_list (S (length (r1 ++ (fl :: M) ++ r2))) f h'
     = Done (r1 ++ (fl :: M) ++ r2) h') as Hwalk.
  { intros h' Hl'. apply to_list_spec; [done|lia]. }
  pose proof Hl as Hcyc. apply is_list_rotate in Hcyc.
  rewrite <-app_assoc in Hcyc.
  (* the position is [last] *)
  assert (r1 = k1 → r2 = k2 →
    ∃ h', splice f (Iter (Some (hd f r2))) f (Iter (Some fl))
            (Iter (Some (hd f k2))) h = Done tt h'
      ∧ to_list (S (length (r1 ++ (fl :: M) ++ r2))) f h'
        = Done (r1 ++ (fl :: M) ++ r2) h'
      ∧ (fl :: M = [] ∨ hd f r2 ≠ hd f k2 → is_list h' f (r1 ++ (fl :: M) ++ r2))
      ∧ (fl :: M = [] → h' = h)
      ∧ (∀ a, a ∉ f :: k1 ++ (fl :: M) ++ k2 → h' !! a = h !! a)) as Hlast.
  { intros -> ->.
    assert (∃ Q, k2 ++ f :: k1 = hd f k2 :: Q) as [Q HQ]
      by (destruct k2; simpl; eauto).
    rewrite HQ in Hcyc.
    destruct (splice_at_last_cycle h f f (hd f k2) fl M Q Hcyc)
      as (h' & Hrun & Hnext & Hframe).
    exists h'. split; [done|]. split; [|split; [|split; [done|]]].
    - apply (to_list_next_ext h); [done|]. apply to_list_spec; [done|lia].
    - intros [?|?]; done.
    - intros a Ha. apply Hframe. rewrite <-HQ. revert Ha. elem_tauto. }
  (* the position is elsewhere *)
  assert (∀ R Q, R ≠ [] → k2 ++ f :: k1 = R ++ hd f r2 :: Q →
            hd (hd f r2) R = hd f k2 →
            (∀ h', cycle h' (R ++ fl :: M ++ hd f r2 :: Q) →
                   is_list h' f (r1 ++ (fl :: M) ++ r2)) →
    ∃ h', splice f (Iter (Some (hd f r2))) f (Iter (Some fl))
            (Iter (Some (hd f k2))) h = Done tt h'
      ∧ to_list (S (length (r1 ++ (fl :: M) ++ r2))) f h'
        = Done (r1 ++ (fl :: M) ++ r2) h'
      ∧ (fl :: M = [] ∨ hd f r2 ≠ hd f k2 → is_list h' f (r1 ++ (fl :: M) ++ r2))
      ∧ (fl :: M = [] → h' = h)
      ∧ (∀ a, a ∉ f :: k1 ++ (fl :: M) ++ k2 → h' !! a = h !! a)) as Hother.
  { intros R Q HR HRQ Hhd Hback. rewrite HRQ in Hcyc.
    destruct (splice_same_cycle h f f (hd f r2) fl M R Q Hcyc HR)
      as (h' & Hrun & Hc' & Hframe).
    rewrite Hhd in Hrun. exists h'. split; [done|].
    pose proof (Hback _ Hc') as Hl'.
    split; [by apply Hwalk|]. split; [done|]. split; [done|].
    intros a Ha. apply Hframe. rewrite <-HRQ. revert Ha. elem_tauto. }
  apply app_eq_inv in Hsplit as [(k & -> & ->)|(k & -> & ->)].
  - destruct k as [|p k].
    + apply Hlast; by rewrite ?app_nil_r.
    + cbn [hd app] in *.
      apply (Hother (k2 ++ f :: r1) k); [by destruct k2| |by destruct k2|].
      * by list_norm.
      * intros h' Hc. unfold is_list.
        eapply (cycle_rotate_to _ _ k2 (f :: r1 ++ fl :: M ++ p :: k)) in Hc;
          [|by list_norm].
        revert Hc. by list_norm.
  - destruct k as [|q k].
    + apply Hlast; by rewrite ?app_nil_r.
    + destruct r2 as [|p r2]; cbn [hd app] in *.
      * apply (Hother (q :: k) k1); [done|by list_norm|done|].
        intros h' Hc. unfold is_list.
        eapply (cycle_rotate_to _ _ ((q :: k) ++ fl :: M) (f :: k1)) in Hc;
          [|by list_norm].
        revert Hc. by list_norm.
      * apply (Hother (q :: k) (r2 ++ f :: k1)); [done|by list_norm|done|].
        intros h' Hc. unfold is_list.
        eapply (cycle_rotate_to _ _ ((q :: k) ++ fl :: M ++ p :: r2) (f :: k1))
          in Hc; [|by list_norm].
        revert Hc. by list_norm.
Qed.

(** X21: [splice(pos, other, first, last)] takes the elements [mid] of the
    half-open range [first, last) out of [other] and puts them, in the same
    order, in front of [pos] in [this], where [pos] is any position of [this]
    outside the range, [end()] included; the total number of elements is
    unchanged, no node outside the two lists is touched, and with
    [first == last] the heap is not changed at all.  For two different lists
    both are well-formed lists afterwards.  For a range moved within one list
    the walk from [begin()] to [end()] yields the rearranged sequence, and the
    list is well formed afterwards when the range is empty or
    [pos != last]. *)
Theorem splice_spec (h : heap) (this other : loc) (k1 mid k2 r1 r2 : list loc) :
  is_list h other (k1 ++ mid ++ k2) →
  let pos := hd this r2 in
  let first := hd other (mid ++ k2) in
  let last := hd other k2 in
  (is_list h this (r1 ++ r2) → other ∉ (this :: r1 ++ r2) →
   ∃ h',
     splice this (Iter (Some pos)) other (Iter (Some first)) (Iter (Some last)) h
     = Done tt h'
     ∧ is_list h' this (r1 ++ mid ++ r2)
     ∧ is_list h' other (k1 ++ k2)
     ∧ to_list (S (length (r1 ++ mid ++ r2))) this h' = Done (r1 ++ mid ++ r2) h'
     ∧ to_list (S (length (k1 ++ k2))) other h' = Done (k1 ++ k2) h'
     ∧ length (k1 ++ k2) + length (r1 ++ mid ++ r2)
       = length (k1 ++ mid ++ k2) + length (r1 ++ r2)
     ∧ (mid = [] → h' = h)
     ∧ (∀ a, a ∉ (this :: r1 ++ r2) ++ (other :: k1 ++ mid ++ k2) →
          h' !! a = h !! a))
  ∧ (this = other → k1 ++ k2 = r1 ++ r2 →
     ∃ h',
       splice this (Iter (Some pos)) other (Iter (Some first)) (Iter (Some last)) h
       = Done tt h'
       ∧ to_list (S (length (r1 ++ mid ++ r2))) this h'
         = Done (r1 ++ mid ++ r2) h'
       ∧ length (r1 ++ mid ++ r2) = length (k1 ++ mid ++ k2)
       ∧ (mid = [] ∨ pos ≠ last → is_list h' this (r1 ++ mid ++ r2))
       ∧ (mid = [] → h' = h)
       ∧ (∀ a, a ∉ (other :: k1 ++ mid ++ k2) → h' !! a = h !! a)).
Proof.
  intros Ho pos first last. split.
  - intros Ht Hnin.
    destruct (splice_lists _ _ _ _ _ _ _ _ Ht Ho Hnin)
      as (h' & Hrun & Ht' & Ho' & Hnop & Hframe).
    exists h'. split; [done|]. split; [done|]. split; [done|].
    split; [apply to_list_spec; [done|lia]|].
    split; [apply to_list_spec; [done|lia]|].
    split; [rewrite !length_app; lia|]. done.
  - intros -> Hsplit. subst pos first last.
    destruct (splice_within _ _ _ _ _ _ _ Ho Hsplit)
      as (h' & Hrun & Hwalk & Hl' & Hnop & Hframe).
    exists h'. split; [done|]. split; [done|]. split; [|done].
    rewrite !length_app. apply (f_equal length) in Hsplit.
    rewrite !length_app in Hsplit. lia.
Qed.

Lemma splice_spec_witness :
  is_list two_lists_heap 1 ([10%positive] ++ [11%positive] ++ [])
  ∧ is_list two_lists_heap 2 ([] ++ [])
  ∧ (1%positive ∉ [2%positive])
  ∧ (∃ h', splice 2 (Iter (Some 2%positive)) 1
             (Iter (Some 11%positive)) (Iter (Some 1%positive)) two_lists_heap
           = Done tt h'
           ∧ is_list h' 2 [11%positive] ∧ is_list h' 1 [10%positive])
  ∧ (∃ h', splice 1 (Iter (Some 10%positive)) 1
             (Iter (Some 11%positive)) (Iter (Some 1%positive)) two_lists_heap
           = Done tt h'
           ∧ is_list h' 1 [11; 10]%positive).
Proof.
  assert (1%positive ∉ [2%positive]) as Hnin
    by (apply (bool_decide_unpack _); vm_compute; exact I).
  split; [exact two_lists_heap_1|]. split; [exact two_lists_heap_2|].
  split; [exact Hnin|]. split.
  - destruct (splice_spec two_lists_heap 2 1 [10%positive] [11%positive] [] [] []
                two_lists_heap_1) as [Hdistinct _].
    destruct (Hdistinct two_lists_heap_2 Hnin) as (h' & Hrun & H2 & H1 & _).
    exists h'. exact (conj Hrun (conj H2 H1)).
  - destruct (splice_spec two_lists_heap 1 1 [10%positive] [11%positive] []
                [] [10%positive] two_lists_heap_1) as [_ Hsame].
    destruct (Hsame eq_refl eq_refl) as (h' & Hrun & _ & _ & Hl & _).
    exists h'. split; [exact Hrun|]. apply Hl. right. discriminate.
Defined.

(** ** Pushing and popping at both ends, against a reference sequence *)

Lemma push_front_run (h : heap) (f n e : loc) :
  next_of h f = Some (Some n) → live h n → live h e → e ≠ f →
  push_front f e h = Done tt (link_after f n e h).
Proof.
  intros Hn Ln Le Hne. unfold push_front, link_after. steps. reflexivity.
Qed.

Lemma link_after_cycle (h : heap) (f e : loc) (R : list loc) :
  cycle h (f :: R) → detached h e →
  cycle (link_after f (hd f R) e h) (f :: e :: R).
Proof.
  intros Hc He. pose proof (detached_not_in_cycle _ _ _ Hc He) as Hin.
  apply detached_fields in He as [Hen Hep].
  destruct Hc as [Hnd Hc]. unfold link_after.
  destruct R as [|n R]; cbn [hd];
    list_norm; simpl in Hc; nodup_facts; chain_facts;
    (split; [list_norm; solve_nodup|chain_goal]).
Qed.

Lemma exec_spec (h : heap) (f : loc) (xs : list loc) (o : op) :
  is_list h f xs → pre true f o h →
  ∃ h', exec f o h = Done tt h' ∧ is_list h' f (ref_step xs o).
Proof.
  intros Hl Hpre. destruct o as [e|e| |]; simpl in *.
  - rewrite push_back_insert. unfold end_.
    pose proof (insert_list_run h f xs [] e) as Hrun.
    pose proof (insert_list_post h f xs [] e) as Hpost.
    rewrite app_nil_r in *. simpl hd in *.
    eexists. split; [|by apply Hpost].
    by erewrite run_bind_Done by (by apply Hrun).
  - pose proof (detached_not_in_cycle _ _ _ Hl Hpre) as Hin.
    eexists. split; [|by apply link_after_cycle].
    apply push_front_run.
    + by apply cycle_next.
    + eapply is_list_elem_live; [done|]. apply hd_elem.
    + by exists (Node None None).
    + revert Hin. solve_in.
  - rewrite (empty_spec _ _ xs) in Hpre by done.
    destruct xs as [|x xs _] using rev_ind.
    { rewrite bool_decide_true in Hpre by done. congruence. }
    rewrite removelast_last. unfold pop_back.
    pose proof (cycle_prev _ _ _ Hl) as Hp. rewrite last_snoc in Hp.
    erewrite run_load_prev by done.
    eexists. split; [by eapply (erase_list_run _ _ xs x [])|].
    pose proof (erase_list_post _ _ xs x [] Hl) as Hpost.
    by rewrite app_nil_r in Hpost.
  - rewrite (empty_spec _ _ xs) in Hpre by done.
    destruct xs as [|x xs].
    { rewrite bool_decide_true in Hpre by done. congruence. }
    simpl tail. unfold pop_front.
    pose proof (cycle_next _ _ _ Hl) as Hn. simpl in Hn.
    erewrite run_load_next by done.
    eexists. split; [by eapply (erase_list_run _ _ [] x xs)|].
    apply (erase_list_post _ _ [] x xs Hl).
Qed.

(** C2 (amended): for every sequence of [push_back] / [push_front] /
    [pop_back] / [pop_front] calls on a list in which every pop finds
    [empty()] false and every push is given a detached element, the calls all
    complete, the list read from [begin()] to [end()] equals the reference
    sequence after the same calls, and [empty()] answers [true] exactly when
    the reference sequence is empty. *)
Theorem deque_refinement (h : heap) (f : loc) (xs : list loc) (ops : list op) :
  is_list h f xs → respects true f ops h →
  ∃ h', run_ops f ops h = Done tt h'
        ∧ is_list h' f (ref_run ops xs)
        ∧ to_list (S (length (ref_run ops xs))) f h' = Done (ref_run ops xs) h'
        ∧ empty f h' = Done (bool_decide (ref_run ops xs = [])) h'.
Proof.
  revert h xs. induction ops as [|o ops IH]; intros h xs Hl Hr.
  - exists h. split; [done|]. split; [done|].
    split; [apply to_list_spec; [done|simpl; lia]|]. by apply empty_spec.
  - destruct Hr as [Hpre Hr].
    destruct (exec_spec _ _ _ _ Hl Hpre) as (h1 & Hrun & Hl1).
    rewrite Hrun in Hr. destruct (IH _ _ Hl1 Hr) as (h' & Hrun' & Hpost).
    exists h'. split; [|done]. simpl. by erewrite run_bind_Done by done.
Qed.

Lemma deque_refinement_witness :
  is_list sample_heap 1 [10; 11]%positive
  ∧ respects true 1 [PushBack 12; PopFront; PushFront 10; PopBack] sample_heap
  ∧ ∃ h', run_ops 1 [PushBack 12; PopFront; PushFront 10; PopBack] sample_heap
          = Done tt h'
          ∧ to_list 3 1 h' = Done [10; 11]%positive h'.
Proof.
  assert (respects true 1 [PushBack 12; PopFront; PushFront 10; PopBack]
            sample_heap) as Hr by (vm_compute; repeat split).
  split; [exact sample_heap_is_list|]. split; [exact Hr|].
  destruct (deque_refinement sample_heap 1 _ _ sample_heap_is_list Hr)
    as (h' & Hrun & _ & Hlist & _).
  exists h'. exact (conj Hrun Hlist).
Defined.

Lemma pushed_twice_walk (fuel : nat) :
  walk fuel (Iter (Some 12%positive)) (end_ 1) pushed_twice_heap = OutOfFuel.
Proof.
  assert (next_of pushed_twice_heap 12 = Some (Some 12%positive)) as Hn
    by (vm_compute; reflexivity).
  induction fuel as [|fuel IH]; [done|].
  cbn [walk]. unfold it_neq, end_, it_deref, it_incr; cbn [current].
  rewrite bool_decide_true by done.
  rewrite run_bind_assoc. erewrite run_load_next by done. rewrite run_ret.
  unfold mbind at 1, M_bind at 1. fold (end_ 1). by rewrite IH.
Qed.

(** C2 as stated fails: nothing but the pop precondition is asked for, yet
    pushing the element [12] twice onto the empty list [1] makes [12] its own
    successor, so that the walk from [begin()] never reaches [end()], while the
    reference sequence is [12; 12]. *)
Lemma push_twice_counterexample :
  is_list empty_heap 1 []
  ∧ respects false 1 [PushBack 12; PushBack 12] empty_heap
  ∧ run_ops 1 [PushBack 12; PushBack 12] empty_heap = Done tt pushed_twice_heap
  ∧ ref_run [PushBack 12; PushBack 12] [] = [12; 12]%positive
  ∧ ¬ ∃ fuel h', to_list fuel 1 pushed_twice_heap = Done [12; 12]%positive h'.
Proof.
  split; [apply (bool_decide_unpack _); vm_compute; exact I|].
  split; [vm_compute; repeat split; eexists; reflexivity|].
  split; [vm_compute; reflexivity|]. split; [reflexivity|].
  intros (fuel & h' & H). revert H.
  assert (next_of pushed_twice_heap 1 = Some (Some 12%positive)) as Hn
    by (vm_compute; reflexivity).
  unfold to_list, begin_. rewrite run_bind_assoc.
  erewrite run_load_next by done. rewrite run_ret.
  by rewrite pushed_twice_walk.
Qed.

(** ** Programs over several lists and elements *)

Lemma inv_chain_invariant (w : world) : Inv w → chain_invariant w.
Proof.
  intros (c & HL & Hlist & Hsent & Hnode). unfold chain_invariant. cbn zeta.
  split; [|split].
  - intros a n p Ha.
    destruct (Hnode a) as [Hd|(f & Hf & Hin)]; [by eexists|..].
    { unfold detached in Hd. congruence. }
    destruct (cycle_elem _ _ _ (Hlist f Hf) Hin)
      as (n' & p' & _ & _ & [Hn1 Hn2] & [Hp1 Hp2]).
    apply lookup_fields in Ha as [Hn Hp].
    assert (n' = n) as -> by congruence. assert (p' = p) as -> by congruence.
    done.
  - intros a n p Ha.
    destruct (Hnode a) as [Hd|(f & Hf & Hin)]; [by eexists|..].
    { unfold detached in Hd. split; congruence. }
    destruct (cycle_elem _ _ _ (Hlist f Hf) Hin)
      as (n' & p' & _ & _ & [Hn1 Hn2] & [Hp1 Hp2]).
    apply lookup_fields in Ha as [Hn Hp]. split; congruence.
  - intros f Hf. exists (c f). specialize (Hlist f Hf).
    split; [apply to_list_spec; [done|lia]|].
    split; [apply to_list_rev_spec; [done|lia]|].
    split; [|by apply empty_spec].
    pose proof (cycle_next _ _ _ Hlist) as Hn.
    pose proof (cycle_prev _ _ _ Hlist) as Hp.
    apply is_list_NoDup in Hlist. split.
    + intros [Hn' _]. rewrite Hn in Hn'. destruct (c f) as [|x xs]; [done|].
      simpl in Hn'. apply NoDup_cons in Hlist as [Hnin _].
      exfalso. apply Hnin. apply elem_of_cons. left. congruence.
    + intros E. rewrite E in *. done.
Qed.

(** Re-establishing the invariant after a call that worked on the lists [A]
    only. *)
Lemma inv_update (h h' : heap) (L A : list loc) (c c' : loc → list loc) :
  inv_with h L c →
  (∀ f, f ∈ A → f ∈ L) →
  (∀ g, g ∉ A → c' g = c g) →
  (∀ f, f ∈ A → is_list h' f (c' f)) →
  (∀ f g, f ∈ A → g ∈ A → f ≠ g → g ∉ f :: c' f) →
  (∀ a, (∀ f, f ∈ A → a ∉ f :: c f) → (∀ f, f ∈ A → a ∉ f :: c' f) →
        h' !! a = h !! a) →
  (∀ f a, f ∈ A → a ∈ f :: c f →
        detached h' a ∨ ∃ g, g ∈ A ∧ a ∈ g :: c' g) →
  (∀ f a, f ∈ A → a ∈ f :: c' f →
        detached h a ∨ ∃ g, g ∈ A ∧ a ∈ g :: c g) →
  inv_with h' L c'.
Proof.
  intros (HL & Hlist & Hsent & Hnode) HAL Hc' HA HAsent Hframe Hold Hnew.
  assert (∀ f g a, f ∈ L → g ∈ L → f ≠ g → a ∈ f :: c f → a ∉ g :: c g)
    as Hdisj.
  { intros f g a Hf Hg Hne Ha1 Ha2.
    pose proof (lists_disjoint _ _ _ _ _ (Hlist f Hf) (Hlist g Hg)
                  (Hsent f g Hf Hg Hne)) as Hnd.
    apply NoDup_app in Hnd as (_ & Hnd & _). by apply (Hnd a). }
  assert (∀ g a, g ∈ L → a ∈ g :: c g → ¬ detached h a) as Hnd.
  { intros g a Hg Ha Hd.
    by apply (detached_not_in_cycle _ _ _ (Hlist g Hg) Hd). }
  assert (∀ g a, g ∈ L → g ∉ A → a ∈ g :: c g → h' !! a = h !! a) as Hsame.
  { intros g a Hg HgA Ha. apply Hframe.
    - intros f Hf. apply (Hdisj g f a); [done|by apply HAL|congruence|done].
    - intros f Hf Hin. destruct (Hnew f a Hf Hin) as [Hd|(f' & Hf' & Hin')].
      + by apply (Hnd g a).
      + apply (Hdisj g f' a); [done|by apply HAL|congruence|done|done]. }
  split; [done|]. split; [|split].
  - intros f Hf. destruct (decide (f ∈ A)) as [HfA|HfA]; [by apply HA|].
    rewrite Hc' by done. eapply cycle_ext; [|by apply Hlist].
    intros a Ha. by apply (Hsame f).
  - intros f g Hf Hg Hne.
    destruct (decide (f ∈ A)) as [HfA|HfA].
    + destruct (decide (g ∈ A)) as [HgA|HgA]; [by apply HAsent|].
      intros Hin. destruct (Hnew f g HfA Hin) as [Hd|(f' & Hf' & Hin')].
      * apply (Hnd g g); [done|apply elem_of_cons; by left|done].
      * apply (Hdisj g f' g); [done|by apply HAL|congruence| |done].
        apply elem_of_cons; by left.
    + rewrite Hc' by done. by apply Hsent.
  - intros a La.
    destruct (decide (Exists (λ f, a ∈ f :: c' f) A)) as [Hn1|Hn1];
      rewrite Exists_exists in Hn1; [destruct Hn1 as (f & Hf & Hin)|].
    { right. exists f. split; [by apply HAL|done]. }
    destruct (decide (Exists (λ f, a ∈ f :: c f) A)) as [Hn2|Hn2];
      rewrite Exists_exists in Hn2; [destruct Hn2 as (f & Hf & Hin)|].
    { destruct (Hold f a Hf Hin) as [Hd|Hex]; [by left|]. by destruct Hn1. }
    assert (h' !! a = h !! a) as E.
    { apply Hframe; intros f Hf Hin; [apply Hn2|apply Hn1]; eauto. }
    unfold live, detached in *. rewrite E in *.
    destruct (Hnode a La) as [Hd|(g & Hg & Hin)]; [by left|].
    right. exists g. split; [done|].
    destruct (decide (g ∈ A)) as [HgA|HgA]; [destruct Hn2; eauto|].
    by rewrite Hc'.
Qed.

Lemma inv_update1 (h h' : heap) (L : list loc) (c : loc → list loc)
    (f : loc) (xs' : list loc) :
  inv_with h L c → f ∈ L → is_list h' f xs' →
  (∀ a, a ∉ f :: c f → a ∉ xs' → h' !! a = h !! a) →
  (∀ a, a ∈ c f → detached h' a ∨ a ∈ xs') →
  (∀ a, a ∈ xs' → detached h a ∨ a ∈ c f) →
  inv_with h' L (<[f := xs']> c).
Proof.
  intros Hinv Hf Hl Hframe Hold Hnew.
  apply (inv_update h h' L [f] c); [done|..].
  - by intros ? ->%list_elem_of_singleton.
  - intros g Hg. apply fn_lookup_insert_ne. intros ->. apply Hg. by left.
  - intros ? ->%list_elem_of_singleton. by rewrite fn_lookup_insert.
  - intros ? ? ->%list_elem_of_singleton ->%list_elem_of_singleton. done.
  - intros a H1 H2. specialize (H1 f (list_elem_of_here _ _)).
    specialize (H2 f (list_elem_of_here _ _)). rewrite fn_lookup_insert in H2.
    apply Hframe; [done|]. intros ?. apply H2. by right.
  - intros ? a ->%list_elem_of_singleton [->|Ha]%elem_of_cons.
    + right. exists f. split; [by left|by left].
    + destruct (Hold a Ha) as [?|?]; [by left|right]. exists f.
      split; [by left|]. rewrite fn_lookup_insert. by right.
  - intros ? a ->%list_elem_of_singleton. rewrite fn_lookup_insert.
    intros [->|Ha]%elem_of_cons.
    + right. exists f. split; [by left|by left].
    + destruct (Hnew a Ha) as [?|?]; [by left|right]. exists f.
      split; [by left|by right].
Qed.

Lemma inv_update2 (h h' : heap) (L : list loc) (c : loc → list loc)
    (a b : loc) (xa xb : list loc) :
  inv_with h L c → a ∈ L → b ∈ L → a ≠ b →
  is_list h' a xa → is_list h' b xb →
  (∀ x, x ∉ (a :: c a) ++ (b :: c b) → h' !! x = h !! x) →
  (∀ x, x ∈ (a :: xa) ++ (b :: xb) ↔ x ∈ (a :: c a) ++ (b :: c b)) →
  b ∉ a :: xa → a ∉ b :: xb →
  inv_with h' L (<[a := xa]> (<[b := xb]> c)).
Proof.
  intros Hinv Ha Hb Hne Hla Hlb Hframe Hsame Hba Hab.
  assert (∀ f, f ∈ [a; b] ↔ f = a ∨ f = b) as HA.
  { intros f. rewrite !elem_of_cons, elem_of_nil. tauto. }
  apply (inv_update h h' L [a; b] c); [done|..].
  - intros f [->| ->]%HA; done.
  - intros g Hg. rewrite !fn_lookup_insert_ne; [done|..];
      intros ->; apply Hg, HA; tauto.
  - intros f [->| ->]%HA.
    + by rewrite fn_lookup_insert.
    + by rewrite fn_lookup_insert_ne, fn_lookup_insert.
  - intros f g [->| ->]%HA [->| ->]%HA Hfg; try done.
    + by rewrite fn_lookup_insert.
    + by rewrite fn_lookup_insert_ne, fn_lookup_insert.
  - intros x H1 _. apply Hframe. intros [Hx|Hx]%elem_of_app.
    + apply (H1 a); [apply HA; tauto|done].
    + apply (H1 b); [apply HA; tauto|done].
  - intros f x Hf Hx. right.
    assert (x ∈ (a :: xa) ++ b :: xb) as [Hin|Hin]%elem_of_app.
    { apply Hsame. apply elem_of_app. apply HA in Hf as [->| ->]; tauto. }
    + exists a. split; [apply HA; tauto|]. by rewrite fn_lookup_insert.
    + exists b. split; [apply HA; tauto|].
      by rewrite fn_lookup_insert_ne, fn_lookup_insert.
  - intros f x Hf Hx. right.
    assert (x ∈ (a :: c a) ++ b :: c b) as [Hin|Hin]%elem_of_app.
    { apply Hsame. apply elem_of_app. apply HA in Hf as [->| ->].
      - left. by rewrite fn_lookup_insert in Hx.
      - right. by rewrite fn_lookup_insert_ne, fn_lookup_insert in Hx. }
    + exists a. split; [apply HA; tauto|done].
    + exists b. split; [apply HA; tauto|done].
Qed.

(** Allocating a fresh node keeps every list as it is. *)
Lemma inv_fresh (h : heap) (L : list loc) (c : loc → list loc) (e : loc)
    (nd : list_element) :
  inv_with h L c → h !! e = None →
  (∀ f, f ∈ L → is_list (<[e := nd]> h) f (c f))
  ∧ (∀ f, f ∈ L → e ∉ f :: c f).
Proof.
  intros (HL & Hlist & Hsent & Hnode) He.
  assert (∀ f, f ∈ L → e ∉ f :: c f) as Hnin.
  { intros f Hf Hin. destruct (cycle_live _ _ _ (Hlist f Hf) Hin) as [? ?].
    congruence. }
  split; [|done]. intros f Hf. eapply cycle_ext; [|by apply Hlist].
  intros a Ha. apply lookup_insert_ne. intros ->. by apply (Hnin f).
Qed.

Lemma inv_new_element (h : heap) (L : list loc) (c : loc → list loc) (e : loc) :
  inv_with h L c → h !! e = None →
  alloc e h = Done tt (<[e := Node None None]> h)
  ∧ inv_with (<[e := Node None None]> h) L c.
Proof.
  intros Hinv He. split; [unfold alloc; by rewrite He|].
  destruct (inv_fresh _ _ _ e (Node None None) Hinv He) as [Hl Hnin].
  destruct Hinv as (HL & Hlist & Hsent & Hnode).
  split; [done|]. split; [done|]. split; [done|].
  intros a La. destruct (decide (a = e)) as [->|Hne].
  - left. apply lookup_insert_eq.
  - unfold live, detached in *. rewrite lookup_insert_ne in * by done.
    by apply Hnode.
Qed.

Lemma inv_new_list (h : heap) (L : list loc) (c : loc → list loc) (f : loc) :
  inv_with h L c → h !! f = None →
  list_ctor f h = Done tt (<[f := Node (Some f) (Some f)]> h)
  ∧ inv_with (<[f := Node (Some f) (Some f)]> h) (f :: L) (<[f := []]> c).
Proof.
  intros Hinv Hf. destruct (list_ctor_spec _ _ Hf) as [Hrun Hnew].
  split; [done|].
  destruct (inv_fresh _ _ _ f (Node (Some f) (Some f)) Hinv Hf) as [Hl Hnin].
  destruct Hinv as (HL & Hlist & Hsent & Hnode).
  assert (f ∉ L) as HfL.
  { intros Hin. apply (Hnin f Hin). by left. }
  split; [by apply NoDup_cons|]. split; [|split].
  - intros g [->|Hg]%elem_of_cons.
    + by rewrite fn_lookup_insert.
    + rewrite fn_lookup_insert_ne by (by intros ->). by apply Hl.
  - intros g1 g2 [->|Hg1]%elem_of_cons [->|Hg2]%elem_of_cons Hne; try done.
    + rewrite fn_lookup_insert. apply not_elem_of_cons.
      split; [done|apply not_elem_of_nil].
    + rewrite fn_lookup_insert_ne by (by intros ->). by apply Hnin.
    + rewrite fn_lookup_insert_ne by (by intros ->). by apply Hsent.
  - intros a La. destruct (decide (a = f)) as [->|Hne].
    + right. exists f. split; by left.
    + unfold live, detached in *. rewrite lookup_insert_ne in * by done.
      destruct (Hnode a La) as [?|(g & Hg & Hin)]; [by left|right].
      exists g. split; [by right|].
      rewrite fn_lookup_insert_ne; [done|]. by intros ->.
Qed.

Lemma runs_to_const (m : M unit) (h h' : heap) :
  m h = Done tt h' → runs_to (λ _, m) h h'.
Proof. intros H. by exists 0. Qed.

Lemma runs_to_bind (m1 m2 : nat → M unit) (h h1 h2 : heap) :
  runs_to m1 h h1 → runs_to m2 h1 h2 →
  runs_to (λ fuel, m1 fuel;; m2 fuel) h h2.
Proof.
  intros [N1 H1] [N2 H2]. exists (N1 `max` N2). intros fuel Hfuel.
  erewrite run_bind_Done by (apply H1; lia). apply H2. lia.
Qed.

Lemma link_after_frame (h : heap) (f n e a : loc) :
  a ≠ e → a ≠ f → a ≠ n → link_after f n e h !! a = h !! a.
Proof.
  intros. unfold link_after, set_prev, set_next. by rewrite !lookup_alter_ne.
Qed.

Lemma inv_swap (h : heap) (L : list loc) (c : loc → list loc) (a b : loc) :
  inv_with h L c → a ∈ L → b ∈ L →
  ∃ h' c', swap a b h = Done tt h' ∧ inv_with h' L c'.
Proof.
  intros Hinv Ha Hb. pose proof Hinv as (HL & Hlist & Hsent & Hnode).
  destruct (decide (a = b)) as [->|Hne].
  { exists h, c. split; [|done]. by eapply swap_self, Hlist. }
  pose proof (lists_disjoint _ _ _ _ _ (Hlist a Ha) (Hlist b Hb)
                (Hsent a b Ha Hb Hne)) as Hnd.
  destruct (swap_lists _ _ _ _ _ (Hlist a Ha) (Hlist b Hb) Hnd)
    as (h' & Hrun & Ha' & Hb' & Hframe).
  exists h', (<[a := c b]> (<[b := c a]> c)). split; [done|].
  pose proof (is_list_NoDup _ _ _ (Hlist a Ha)) as [Ha1 _]%NoDup_cons.
  pose proof (is_list_NoDup _ _ _ (Hlist b Hb)) as [Hb1 _]%NoDup_cons.
  apply (inv_update2 h); try done.
  - intros x. elem_tauto.
  - apply not_elem_of_cons. split; [congruence|done].
  - apply not_elem_of_cons. split; [congruence|done].
Qed.

Lemma inv_clear (h : heap) (L : list loc) (c : loc → list loc) (f : loc) :
  inv_with h L c → f ∈ L →
  ∃ h' c', runs_to (λ fuel, clear fuel f) h h' ∧ inv_with h' L c'.
Proof.
  intros Hinv Hf. pose proof Hinv as (HL & Hlist & Hsent & Hnode).
  destruct (clear_spec _ _ _ (Hlist f Hf)) as (h' & Hrun & Hl' & Hdet & Hframe).
  exists h', (<[f := []]> c). split.
  - exists (S (length (c f))). intros fuel Hfuel. apply Hrun. lia.
  - apply (inv_update1 h); try done.
    + intros a Ha _. by apply Hframe.
    + intros a Ha. left. by apply Hdet.
    + by intros a Ha%elem_of_nil.
Qed.

Lemma inv_insert (h : heap) (L : list loc) (c : loc → list loc)
    (f e : loc) (l1 l2 : list loc) :
  inv_with h L c → f ∈ L → detached h e → c f = l1 ++ l2 →
  ∃ h' c', insert_ f (Iter (Some (hd f l2))) e h = Done (Iter (Some e)) h'
           ∧ inv_with h' L c'.
Proof.
  intros Hinv Hf He Hc. pose proof Hinv as (HL & Hlist & Hsent & Hnode).
  pose proof (Hlist f Hf) as Hl. rewrite Hc in Hl.
  pose proof (insert_list_run _ _ _ _ _ Hl He) as Hrun.
  pose proof (insert_list_post _ _ _ _ _ Hl He) as Hl'.
  exists (link_before (hd f l2) (default f (last l1)) e h),
    (<[f := l1 ++ e :: l2]> c).
  split; [done|].
  pose proof (default_last_elem f l1) as Hp. pose proof (hd_elem f l2) as Hpos.
  apply (inv_update1 h); try done; rewrite Hc.
  - intros a Ha1 Ha2. apply link_before_frame.
    + intros ->. apply Ha2. solve_in.
    + intros ->. apply Ha1. revert Hpos. solve_in.
    + intros ->. apply Ha1. revert Hp. solve_in.
  - intros a Ha. right. revert Ha. solve_in.
  - intros a Ha. apply elem_of_app in Ha as [Ha|Ha].
    + right. solve_in.
    + apply elem_of_cons in Ha as [->|Ha]; [by left|right; solve_in].
Qed.

Lemma inv_push_front (h : heap) (L : list loc) (c : loc → list loc) (f e : loc) :
  inv_with h L c → f ∈ L → detached h e →
  ∃ h' c', push_front f e h = Done tt h' ∧ inv_with h' L c'.
Proof.
  intros Hinv Hf He. pose proof Hinv as (HL & Hlist & Hsent & Hnode).
  pose proof (Hlist f Hf) as Hl.
  pose proof (detached_not_in_cycle _ _ _ Hl He) as Hin.
  pose proof (hd_elem f (c f)) as Hn.
  exists (link_after f (hd f (c f)) e h), (<[f := e :: c f]> c). split.
  - apply push_front_run.
    + by apply cycle_next.
    + by eapply is_list_elem_live.
    + by exists (Node None None).
    + revert Hin. solve_in.
  - apply (inv_update1 h); try done.
    + by apply link_after_cycle.
    + intros a Ha1 Ha2. apply link_after_frame.
      * intros ->. apply Ha2. solve_in.
      * intros ->. apply Ha1. solve_in.
      * intros ->. by apply Ha1.
    + intros a Ha. right. solve_in.
    + intros a [->|Ha]%elem_of_cons; [by left|by right].
Qed.

Lemma inv_unlink (h : heap) (L : list loc) (c : loc → list loc)
    (f pos : loc) (l1 l2 : list loc) :
  inv_with h L c → f ∈ L → c f = l1 ++ pos :: l2 →
  ∃ h' c', unlink (Some pos) h = Done tt h' ∧ inv_with h' L c'.
Proof.
  intros Hinv Hf Hc. pose proof Hinv as (HL & Hlist & Hsent & Hnode).
  pose proof (Hlist f Hf) as Hl. rewrite Hc in Hl.
  pose proof (erase_list_run _ _ _ _ _ Hl) as Hrun.
  pose proof (erase_list_post _ _ _ _ _ Hl) as Hl'.
  pose proof (default_last_elem f l1) as Hp. pose proof (hd_elem f l2) as Hn.
  assert (live h pos) as Lpos.
  { eapply is_list_elem_live; [exact Hl|]. solve_in. }
  exists (unlinked pos (hd f l2) (default f (last l1)) h), (<[f := l1 ++ l2]> c).
  split; [done|].
  apply (inv_update1 h); try done; rewrite Hc.
  - intros a Ha1 Ha2. apply unlinked_frame.
    + intros ->. apply Ha1. solve_in.
    + intros ->. apply Ha1. revert Hn. solve_in.
    + intros ->. apply Ha1. revert Hp. solve_in.
  - intros a Ha. apply elem_of_app in Ha as [Ha|Ha]; [right; solve_in|].
    apply elem_of_cons in Ha as [->|Ha]; [left|right; solve_in].
    by apply unlinked_detached.
  - intros a Ha. right. revert Ha. solve_in.
Qed.

Lemma elem_split_hd (f pos : loc) (xs : list loc) :
  pos ∈ f :: xs → ∃ l1 l2, xs = l1 ++ l2 ∧ pos = hd f l2.
Proof.
  intros [->|Hin]%elem_of_cons.
  - exists xs, []. by rewrite app_nil_r.
  - apply list_elem_of_split in Hin as (l1 & l2 & ->). by exists l1, (pos :: l2).
Qed.

Lemma elements_inv (h : heap) (L : list loc) (c : loc → list loc)
    (f : loc) (xs : list loc) :
  inv_with h L c → f ∈ L → elements h f xs → xs = c f.
Proof.
  intros (_ & Hlist & _) Hf [fuel Hrun].
  by destruct (to_list_det _ _ _ _ _ _ (Hlist f Hf) Hrun).
Qed.

(** Rotating a cycle so that it starts at one of its nodes. *)
Lemma cycle_at (h : heap) (c : list loc) (f : loc) :
  cycle h c → f ∈ c → ∃ xs, cycle h (f :: xs) ∧ ∀ a, a ∈ f :: xs ↔ a ∈ c.
Proof.
  intros Hc (l1 & l2 & ->)%list_elem_of_split. exists (l2 ++ l1).
  split; [by apply (cycle_rotate _ l1 (f :: l2))|].
  intros a. elem_tauto.
Qed.

Lemma inv_splice (h : heap) (L : list loc) (c : loc → list loc)
    (this other pos : loc) (k1 mid k2 : list loc) :
  inv_with h L c → this ∈ L → other ∈ L →
  pos ∈ this :: c this → c other = k1 ++ mid ++ k2 → pos ∉ mid →
  (mid ≠ [] → pos ≠ hd other k2) →
  ∃ h' c',
    splice this (Iter (Some pos)) other (Iter (Some (hd other (mid ++ k2))))
      (Iter (Some (hd other k2))) h = Done tt h'
    ∧ inv_with h' L c'.
Proof.
  intros Hinv Ht Ho Hpos Hc Hmid Hlast.
  pose proof Hinv as (HL & Hlist & Hsent & Hnode).
  destruct mid as [|fl M].
  { exists h, c. split; [|done]. simpl.
    unfold splice, it_eq; cbn [current]. by rewrite bool_decide_true. }
  specialize (Hlast ltac:(done)).
  pose proof (Hlist other Ho) as Hlo. rewrite Hc in Hlo.
  destruct (decide (this = other)) as [->|Hne].
  - (* a range moved within one list *)
    pose proof Hlo as Hcyc. apply is_list_rotate in Hcyc.
    rewrite <-app_assoc in Hcyc.
    assert (pos ∈ k2 ++ other :: k1) as Hin.
    { revert Hpos Hmid. rewrite Hc. solve_in. }
    apply list_elem_of_split in Hin as (R & Q & HRQ).
    assert (hd other k2 = hd pos R ∧ R ≠ []) as [Hhd HR].
    { destruct R as [|r R].
      - exfalso. apply Hlast. simpl in HRQ. destruct k2; by simplify_eq/=.
      - split; [|done]. destruct k2; by simplify_eq/=. }
    rewrite HRQ in Hcyc.
    destruct (splice_same_cycle h other other pos fl M R Q Hcyc HR)
      as (h' & Hrun & Hc' & Hframe).
    destruct (cycle_at _ _ other Hc') as (xs' & Hl' & Hsame).
    { assert (other ∈ R ++ pos :: Q) by (rewrite <-HRQ; solve_in).
      revert H. solve_in. }
    assert (∀ a, a ∈ other :: xs' ↔ a ∈ other :: c other) as Hsame'.
    { intros a. rewrite Hsame, Hc.
      transitivity (a ∈ fl :: M ++ R ++ pos :: Q).
      - elem_tauto.
      - rewrite <-HRQ. elem_tauto. }
    pose proof (is_list_NoDup _ _ _ Hl') as [Hn1 _]%NoDup_cons.
    pose proof (is_list_NoDup _ _ _ (Hlist other Ho)) as [Hn2 _]%NoDup_cons.
    exists h', (<[other := xs']> c). simpl hd. rewrite Hhd. split; [done|].
    apply (inv_update1 h); try done.
    + intros a Ha1 Ha2. apply Hframe. rewrite <-HRQ. intros Ha. apply Ha1.
      rewrite Hc. revert Ha. elem_tauto.
    + intros a Ha. right.
      assert (a ∈ other :: xs') as [->|?]%elem_of_cons; [|done..].
      apply Hsame'. by right.
    + intros a Ha. right.
      assert (a ∈ other :: c other) as [->|?]%elem_of_cons; [|done..].
      apply Hsame'. by right.
  - (* a range moved from one list to another *)
    destruct (elem_split_hd _ _ _ Hpos) as (l1 & l2 & Hct & ->).
    pose proof (Hlist this Ht) as Hlt. rewrite Hct in Hlt.
    assert (other ∉ this :: l1 ++ l2) as Hnin.
    { rewrite <-Hct. by apply Hsent. }
    destruct (splice_lists _ _ _ _ _ _ _ _ Hlt Hlo Hnin)
      as (h' & Hrun & Ht' & Ho' & _ & Hframe).
    exists h', (<[this := l1 ++ (fl :: M) ++ l2]> (<[other := k1 ++ k2]> c)).
    split; [done|].
    pose proof (lists_disjoint _ _ _ _ _ Hlt Hlo Hnin) as Hnd.
    apply (inv_update2 h); try done.
    + intros a Ha. apply Hframe. by rewrite <-Hct, <-Hc.
    + intros a. rewrite Hct, Hc. elem_tauto.
    + revert Hnd. rewrite !NoDup_app, !NoDup_cons, !NoDup_app, !NoDup_cons.
      intros (_ & Hd & (Hno & _)). intros Hin.
      apply elem_of_cons in Hin as [->|Hin]; [done|].
      apply elem_of_app in Hin as [Hin|Hin].
      * apply (Hd other); [right; solve_in|by left].
      * apply elem_of_app in Hin as [Hin|Hin].
        -- apply Hno. revert Hin. solve_in.
        -- apply (Hd other); [right; solve_in|by left].
    + revert Hnd. rewrite !NoDup_app, !NoDup_cons, !NoDup_app.
      intros ((Hno & _) & Hd & _). intros Hin.
      apply elem_of_cons in Hin as [->|Hin]; [done|].
      apply (Hd this); [by left|]. right. revert Hin. solve_in.
Qed.

(** More fuel does not change the outcome of a loop that completes. *)
Lemma clear_mono (fuel fuel' : nat) (f : loc) (h h' : heap) :
  clear fuel f h = Done tt h' → fuel ≤ fuel' → clear fuel' f h = Done tt h'.
Proof.
  revert fuel' h. induction fuel as [|fuel IH]; intros fuel' h H Hle; [done|].
  destruct fuel' as [|fuel']; [lia|]. simpl in *.
  apply bind_Done_inv in H as (n & h1 & Hload & H).
  erewrite run_bind_Done by done. destruct (bool_decide (n ≠ Some f)); [|done].
  apply bind_Done_inv in H as ([] & h2 & Hun & H).
  erewrite run_bind_Done by done. apply IH; [done|lia].
Qed.

Lemma run_call_mono (fuel fuel' : nat) (c : call) (h h' : heap) :
  run_call fuel c h = Done tt h' → fuel ≤ fuel' →
  run_call fuel' c h = Done tt h'.
Proof.
  intros H Hle. destruct c; simpl in *; try done.
  - unfold list_move_ctor in *.
    apply bind_Done_inv in H as ([] & h1 & H1 & H).
    apply bind_Done_inv in H as ([] & h2 & H2 & H).
    do 2 (erewrite run_bind_Done by done). by eapply clear_mono.
  - unfold list_move_assign in *.
    apply bind_Done_inv in H as (x & h3 & H & Hret).
    apply bind_Done_inv in H as ([] & h1 & H1 & H).
    apply bind_Done_inv in H as ([] & h2 & H2 & H).
    rewrite run_bind_assoc. erewrite run_bind_Done by done.
    rewrite run_bind_assoc. erewrite run_bind_Done by (by eapply clear_mono).
    rewrite run_ret. by inversion H; subst.
  - by eapply clear_mono.
Qed.

(** The first node of a non-empty range is not the node the range ends
    at. *)
Lemma range_first_ne_last (o : loc) (k1 mid k2 : list loc) :
  NoDup (o :: k1 ++ mid ++ k2) → mid ≠ [] → hd o (mid ++ k2) ≠ hd o k2.
Proof.
  intros Hnd Hne. destruct mid as [|m mid]; [done|]. simpl.
  pose proof (hd_elem o k2) as Hhd. intros Hm. rewrite <-Hm in Hhd.
  apply NoDup_cons in Hnd as [Ho Hnd]. rewrite app_assoc in Hnd.
  apply NoDup_app in Hnd as (Hnd1 & Hdisj & _).
  apply elem_of_cons in Hhd as [->|Hin].
  - apply Ho. solve_in.
  - apply (Hdisj m); [solve_in|done].
Qed.

Lemma call_spec (h : heap) (L : list loc) (c : loc → list loc) (cl : call) :
  inv_with h L c → pre_call (World h L) cl → ¬ splices_before_last cl →
  ∃ h' c', runs_to (λ fuel, run_call fuel cl) h h'
           ∧ inv_with h' (lists_after cl L) c'.
Proof.
  intros Hinv Hpre Hdef. pose proof Hinv as (HL & Hlist & Hsent & Hnode).
  destruct cl as [e|f|d s|d s|a b|f|f e|f e|f|f|f pos e|f pos|t pos o fi la];
    simpl in Hpre; simpl lists_after; simpl run_call.
  - destruct (inv_new_element _ _ _ e Hinv Hpre) as [Hrun Hinv'].
    eexists _, _. split; [by apply runs_to_const|done].
  - destruct (inv_new_list _ _ _ f Hinv Hpre) as [Hrun Hinv'].
    eexists _, _. split; [by apply runs_to_const|done].
  - destruct Hpre as [Hd Hs].
    destruct (inv_new_list _ _ _ d Hinv Hd) as [Hrun1 Hinv1].
    destruct (inv_swap _ _ _ d s Hinv1) as (h2 & c2 & Hrun2 & Hinv2);
      [by left|by right|].
    destruct (inv_clear _ _ _ s Hinv2) as (h3 & c3 & Hrun3 & Hinv3);
      [by right|].
    exists h3, c3. split; [|done]. unfold list_move_ctor.
    apply runs_to_bind with (m1 := λ _, list_ctor d)
      (m2 := λ fuel, swap d s;; clear fuel s)
      (h1 := <[d:=Node (Some d) (Some d)]> h); [by apply runs_to_const|].
    apply runs_to_bind with (m1 := λ _, swap d s) (m2 := λ fuel, clear fuel s)
      (h1 := h2); [by apply runs_to_const|done].
  - destruct Hpre as [Hd Hs].
    destruct (inv_swap _ _ _ d s Hinv Hd Hs) as (h2 & c2 & Hrun2 & Hinv2).
    destruct (inv_clear _ _ _ s Hinv2 Hs) as (h3 & c3 & [N Hrun3] & Hinv3).
    exists h3, c3. split; [|done]. exists N. intros fuel Hfuel.
    unfold list_move_assign. rewrite run_bind_assoc.
    erewrite run_bind_Done by done.
    rewrite run_bind_assoc. erewrite run_bind_Done by (by apply Hrun3).
    by rewrite run_ret.
  - destruct Hpre as [Ha Hb].
    destruct (inv_swap _ _ _ a b Hinv Ha Hb) as (h2 & c2 & Hrun2 & Hinv2).
    exists h2, c2. split; [by apply runs_to_const|done].
  - by apply (inv_clear _ _ c).
  - destruct Hpre as [Hf He].
    destruct (inv_insert _ _ _ f e (c f) [] Hinv Hf He) as (h' & c' & Hrun & Hinv');
      [by rewrite app_nil_r|].
    exists h', c'. split; [|done]. apply runs_to_const.
    rewrite push_back_insert. unfold end_. simpl hd in Hrun.
    by erewrite run_bind_Done by done.
  - destruct Hpre as [Hf He].
    destruct (inv_push_front _ _ _ f e Hinv Hf He) as (h' & c' & Hrun & Hinv').
    exists h', c'. split; [by apply runs_to_const|done].
  - destruct Hpre as [Hf He].
    rewrite (empty_spec _ _ (c f)) in He by (by apply Hlist).
    destruct (c f) as [|x xs _] eqn:Hc using rev_ind.
    { rewrite bool_decide_true in He by done. congruence. }
    destruct (inv_unlink _ _ _ f x xs [] Hinv Hf Hc) as (h' & c' & Hrun & Hinv').
    exists h', c'. split; [|done]. apply runs_to_const. unfold pop_back.
    pose proof (cycle_prev _ _ _ (Hlist f Hf)) as Hp.
    rewrite Hc, last_snoc in Hp. by erewrite run_load_prev by done.
  - destruct Hpre as [Hf He].
    rewrite (empty_spec _ _ (c f)) in He by (by apply Hlist).
    destruct (c f) as [|x xs] eqn:Hc.
    { rewrite bool_decide_true in He by done. congruence. }
    destruct (inv_unlink _ _ _ f x [] xs Hinv Hf Hc) as (h' & c' & Hrun & Hinv').
    exists h', c'. split; [|done]. apply runs_to_const. unfold pop_front.
    pose proof (cycle_next _ _ _ (Hlist f Hf)) as Hn.
    rewrite Hc in Hn. by erewrite run_load_next by done.
  - destruct Hpre as (Hf & He & xs & Hxs & Hpos).
    apply (elements_inv _ _ _ _ _ Hinv Hf) in Hxs as ->.
    destruct (elem_split_hd _ _ _ Hpos) as (l1 & l2 & Hc & ->).
    destruct (inv_insert _ _ _ f e l1 l2 Hinv Hf He Hc) as (h' & c' & Hrun & Hinv').
    exists h', c'. split; [|done]. apply runs_to_const.
    by erewrite run_bind_Done by done.
  - destruct Hpre as (Hf & xs & Hxs & Hpos).
    apply (elements_inv _ _ _ _ _ Hinv Hf) in Hxs as ->.
    apply list_elem_of_split in Hpos as (l1 & l2 & Hc).
    destruct (inv_unlink _ _ _ f pos l1 l2 Hinv Hf Hc) as (h' & c' & Hrun & Hinv').
    exists h', c'. split; [|done]. apply runs_to_const.
    unfold erase, it_deref; cbn [current].
    pose proof (Hlist f Hf) as Hl. rewrite Hc in Hl.
    rewrite run_bind_assoc.
    erewrite run_load_next by (by eapply is_list_next).
    rewrite run_bind_assoc. erewrite run_bind_Done by done. done.
  - destruct Hpre as (Ht & Ho & (xs & Hxs & Hpos) & k1 & mid & k2 & Hys & -> & ->
                      & Hmid).
    apply (elements_inv _ _ _ _ _ Hinv Ht) in Hxs as ->.
    apply (elements_inv _ _ _ _ _ Hinv Ho) in Hys.
    destruct (inv_splice _ _ _ t o pos k1 mid k2 Hinv Ht Ho Hpos) as
      (h' & c' & Hrun & Hinv'); [done|done| |].
    { intros Hne Heq. apply Hdef. split; [|done].
      apply (range_first_ne_last _ k1); [|done].
      rewrite Hys. apply (is_list_NoDup h). by apply Hlist. }
    exists h', c'. split; [by apply runs_to_const|done].
Qed.

Lemma step_inv (w w' : world) : Inv w → step_avoiding w w' → Inv w'.
Proof.
  intros [c Hinv] (cl & fuel & Hpre & Hdef & Hrun & HL).
  destruct w as [h L], w' as [h' L']. simpl in *. subst L'.
  destruct (call_spec _ _ _ _ Hinv Hpre Hdef) as (h0 & c0 & [N Hrun0] & Hinv0).
  pose proof (Hrun0 (fuel `max` N) ltac:(lia)) as H1.
  pose proof (run_call_mono _ (fuel `max` N) _ _ _ Hrun ltac:(lia)) as H2.
  assert (h' = h0) as -> by congruence. by exists c0.
Qed.

Lemma inv_initial : Inv (World ∅ []).
Proof.
  exists (λ _, []). split; [constructor|]. split; [|split].
  - by intros f Hf%elem_of_nil.
  - by intros f g Hf%elem_of_nil.
  - intros a [nd Ha]. simpl in Ha. by rewrite lookup_empty in Ha.
Qed.

Lemma reachable_inv (w : world) : reachable_avoiding w → Inv w.
Proof.
  intros Hr.
  apply (rtc_ind_r (R := step_avoiding) Inv (World ∅ []));
    [apply inv_initial| |exact Hr].
  intros y z _ Hstep IH. by eapply step_inv.
Qed.

(** A program that avoids the call is a program. *)
Lemma reachable_avoiding_reachable (w : world) :
  reachable_avoiding w → reachable w.
Proof.
  intros Hr.
  apply (rtc_ind_r (R := step_avoiding) reachable (World ∅ []));
    [apply rtc_refl| |exact Hr].
  intros y z _ (c & fuel & Hpre & _ & Hrun & HL) IH.
  eapply rtc_r; [exact IH|]. by exists c, fuel.
Qed.

(** Where the invariant holds, every call whose precondition holds runs to
    completion, a [splice] in front of [last] included. *)
Lemma inv_completes (w : world) (cl : call) :
  Inv w → pre_call w cl →
  ∃ fuel h', run_call fuel cl (w_heap w) = Done tt h'.
Proof.
  intros [c Hinv] Hpre. destruct w as [h L]. simpl in *.
  destruct (decide (splices_before_last cl)) as [Hdef|Hdef].
  - destruct cl as [| | | | | | | | | | | |t pos o fi la]; try done.
    destruct Hdef as [Hfl ->].
    destruct Hpre as (Ht & Ho & (xs & Hxs & Hpos) & k1 & mid & k2 & Hys & -> & Hla
                      & Hmid).
    pose proof Hinv as (HL & Hlist & Hsent & Hnode).
    apply (elements_inv _ _ _ _ _ Hinv Ht) in Hxs as ->.
    apply (elements_inv _ _ _ _ _ Hinv Ho) in Hys.
    assert (t = o) as ->.
    { destruct (decide (t = o)) as [|Hne]; [done|exfalso].
      pose proof (lists_disjoint _ _ _ _ _ (Hlist t Ht) (Hlist o Ho)
                    (Hsent t o Ht Ho Hne)) as Hnd.
      apply NoDup_app in Hnd as (_ & Hdisj & _).
      apply (Hdisj la Hpos). rewrite Hla, <-Hys.
      pose proof (hd_elem o k2) as Hhd. revert Hhd. solve_in. }
    pose proof (Hlist o Ho) as Hl. rewrite <-Hys in Hl.
    destruct (splice_within _ _ _ _ _ k1 k2 Hl eq_refl) as (h' & Hrun & _).
    exists 0, h'. simpl run_call. by rewrite Hla.
  - destruct (call_spec _ _ _ _ Hinv Hpre Hdef) as (h' & _ & [N Hrun] & _).
    exists N, h'. by apply Hrun.
Qed.

Lemma reachable_step (w : world) (c : call) (fuel : nat) (h' : heap) :
  reachable w → pre_call w c →
  run_call fuel c (w_heap w) = Done tt h' →
  reachable (World h' (lists_after c (w_lists w))).
Proof.
  intros Hr Hpre Hrun. eapply rtc_r; [exact Hr|].
  exists c, fuel. split; [done|]. split; done.
Qed.

Lemma after_reachable (w : world) (c : call) :
  reachable w → pre_call w c →
  run_call 0 c (w_heap w) = Done tt (w_heap (after c w)) →
  reachable (after c w).
Proof. intros Hr Hpre Hrun. by eapply reachable_step. Qed.

Lemma after_reachable_avoiding (w : world) (c : call) :
  reachable_avoiding w → pre_call w c → ¬ splices_before_last c →
  run_call 0 c (w_heap w) = Done tt (w_heap (after c w)) →
  reachable_avoiding (after c w).
Proof.
  intros Hr Hpre Hdef Hrun. eapply rtc_r; [exact Hr|].
  exists c, 0. split; [done|]. split; [done|]. split; done.
Qed.

Lemma three_elements_avoiding : reachable_avoiding three_elements.
Proof.
  unfold three_elements.
  repeat (apply after_reachable_avoiding;
          [|first [ vm_compute; reflexivity
                  | split; [apply (bool_decide_unpack _); vm_compute; exact I
                           |vm_compute; reflexivity] ]
           |simpl; tauto
           |vm_compute; reflexivity]).
  apply rtc_refl.
Qed.

Lemma three_elements_reachable : reachable three_elements.
Proof. apply reachable_avoiding_reachable, three_elements_avoiding. Qed.

Lemma three_elements_is_list :
  is_list (w_heap three_elements) 1 [10; 11; 12]%positive.
Proof. apply (bool_decide_unpack _); vm_compute; exact I. Qed.

(** The in-place call [splice(it(12), L, it(11), it(12))] on the list
    [10; 11; 12] is within the precondition of [splice]. *)
Lemma spliced_in_place_pre :
  pre_call three_elements (SpliceAt 1 12 1 11 12).
Proof.
  assert (1%positive ∈ w_lists three_elements) as H1
    by (apply (bool_decide_unpack _); vm_compute; exact I).
  split; [exact H1|]. split; [exact H1|]. split.
  - exists [10; 11; 12]%positive. split; [exists 4; vm_compute; reflexivity|].
    apply (bool_decide_unpack _); vm_compute; exact I.
  - exists [10%positive], [11%positive], [12%positive].
    split; [exists 4; vm_compute; reflexivity|].
    split; [reflexivity|]. split; [reflexivity|].
    apply (bool_decide_unpack _); vm_compute; exact I.
Qed.

Lemma spliced_in_place_reachable : reachable spliced_in_place.
Proof.
  apply after_reachable;
    [apply three_elements_reachable|apply spliced_in_place_pre
    |vm_compute; reflexivity].
Qed.

(** C1: the program that builds the list [10; 11; 12] with three [push_back]
    calls and then calls [splice(it(12), L, it(11), it(12))] respects the
    precondition of every call it makes, and every call completes.  In the
    state it reaches node [11] is its own [prev] although [10] is the node
    whose [next] is [11]: the chain invariant does not hold. *)
Theorem splice_breaks_chain_invariant :
  reachable three_elements
  ∧ pre_call three_elements (SpliceAt 1 12 1 11 12)
  ∧ run_call 0 (SpliceAt 1 12 1 11 12) (w_heap three_elements)
    = Done tt (w_heap spliced_in_place)
  ∧ reachable spliced_in_place
  ∧ next_of (w_heap spliced_in_place) 10 = Some (Some 11%positive)
  ∧ prev_of (w_heap spliced_in_place) 11 = Some (Some 11%positive)
  ∧ ¬ chain_invariant spliced_in_place.
Proof.
  split; [apply three_elements_reachable|].
  split; [apply spliced_in_place_pre|].
  split; [vm_compute; reflexivity|].
  split; [apply spliced_in_place_reachable|].
  split; [vm_compute; reflexivity|].
  split; [vm_compute; reflexivity|].
  intros (Hlink & _).
  destruct (Hlink 11 12 11)%positive as [_ Hbad]; [vm_compute; reflexivity|].
  vm_compute in Hbad. discriminate.
Qed.

(** A node that is its own [prev] traps the backward walk. *)
Lemma walk_back_stuck (h : heap) (a : loc) (b : list_iterator) :
  prev_of h a = Some (Some a) → current b ≠ Some a →
  ∀ fuel, walk_back fuel (Iter (Some a)) b h = OutOfFuel.
Proof.
  intros Hp Hb. induction fuel as [|fuel IH]; [done|].
  simpl walk_back. unfold it_neq; cbn [current].
  rewrite bool_decide_true by congruence.
  unfold it_decr; cbn [current]. rewrite run_bind_assoc.
  erewrite run_load_prev by done. rewrite run_ret. cbn [it_deref current].
  unfold mbind, M_bind. by rewrite IH.
Qed.

(** C4: [splice(pos, other, first, last)] with [pos == last] on a non-empty
    range of the list itself.  On the list [10; 11; 12] the call
    [splice(it(12), L, it(11), it(12))], whose position is outside the range
    [11, 12), completes and the walk from [begin()] to [end()] still yields
    [10; 11; 12]; but [to_left] and [from_right] are both node [11], so the
    assignment to [from_left->prev] makes [11] its own [prev]: the list is no
    longer well formed, whatever its contents are taken to be, and the walk
    from [end()] back to [begin()] never ends. *)
Theorem splice_before_last_defect :
  is_list (w_heap three_elements) 1 [10%positive; 11%positive; 12%positive]
  ∧ splice 1 (Iter (Some 12%positive)) 1
      (Iter (Some 11%positive)) (Iter (Some 12%positive)) (w_heap three_elements)
    = Done tt (w_heap spliced_in_place)
  ∧ to_list 4 1 (w_heap spliced_in_place)
    = Done [10%positive; 11%positive; 12%positive] (w_heap spliced_in_place)
  ∧ prev_of (w_heap spliced_in_place) 11 = Some (Some 11%positive)
  ∧ (∀ xs, ¬ is_list (w_heap spliced_in_place) 1 xs)
  ∧ (∀ fuel, to_list_rev fuel 1 (w_heap spliced_in_place) = OutOfFuel).
Proof.
  assert (to_list 4 1 (w_heap spliced_in_place)
          = Done [10%positive; 11%positive; 12%positive]
              (w_heap spliced_in_place)) as Hwalk by (vm_compute; reflexivity).
  assert (next_of (w_heap spliced_in_place) 1 = Some (Some 10%positive)) as Hb
    by (vm_compute; reflexivity).
  assert (prev_of (w_heap spliced_in_place) 1 = Some (Some 12%positive)) as H1
    by (vm_compute; reflexivity).
  assert (prev_of (w_heap spliced_in_place) 12 = Some (Some 11%positive)) as H12
    by (vm_compute; reflexivity).
  assert (prev_of (w_heap spliced_in_place) 11 = Some (Some 11%positive)) as H11
    by (vm_compute; reflexivity).
  split; [apply three_elements_is_list|].
  split; [vm_compute; reflexivity|].
  split; [exact Hwalk|]. split; [exact H11|]. split.
  - intros xs Hl.
    destruct (to_list_det _ _ _ _ _ _ Hl Hwalk) as [<- _].
    pose proof (is_list_prev _ _ [10%positive] 11 [12%positive] Hl) as Hp.
    rewrite H11 in Hp. discriminate.
  - intros fuel. set (h' := w_heap spliced_in_place) in *.
    unfold to_list_rev, begin_. rewrite run_bind_assoc.
    erewrite run_load_next by exact Hb. rewrite run_ret.
    destruct fuel as [|fuel]; [done|]. simpl walk_back.
    unfold it_decr, end_; cbn [current].
    rewrite run_bind_assoc. erewrite run_load_prev by exact H1.
    rewrite run_ret. cbn [it_deref current].
    destruct fuel as [|fuel]; [done|]. simpl walk_back.
    unfold it_decr; cbn [current].
    rewrite !run_bind_assoc. erewrite run_load_prev by exact H12.
    rewrite run_ret. cbn [it_deref current].
    unfold mbind, M_bind.
    by rewrite (walk_back_stuck h' 11 (Iter (Some 10%positive)) H11).
Qed.

(** * Further properties *)

(** ** Both ends of a list *)

(** Linking a node behind [f] and linking it in front of the successor of [f]
    write the same four fields. *)
Lemma link_after_before (h : heap) (f n e : loc) :
  live h e → live h f → live h n → e ≠ f → e ≠ n →
  link_after f n e h = link_before n f e h.
Proof.
  intros Le Lf Ln Hef Hen. unfold link_after, link_before.
  destruct (decide (f = n)) as [->|]; heap_eq.
Qed.

(** Unlinking a node that has just been linked between two adjacent nodes
    restores the heap. *)
Lemma unlinked_link_before (h : heap) (f : loc) (l1 l2 : list loc) (e : loc) :
  is_list h f (l1 ++ l2) → detached h e →
  unlinked e (hd f l2) (default f (last l1))
    (link_before (hd f l2) (default f (last l1)) e h) = h.
Proof.
  intros Hl He.
  set (pos := hd f l2). set (p := default f (last l1)).
  pose proof (detached_not_in_cycle _ _ _ Hl He) as Hin.
  assert (pos ∈ f :: l1 ++ l2 ∧ p ∈ f :: l1 ++ l2) as [Hpos Hp].
  { pose proof (default_last_elem f l1) as H1. pose proof (hd_elem f l2) as H2.
    subst pos p. split; [revert H2|revert H1]; solve_in. }
  assert (e ≠ pos ∧ e ≠ p) as [? ?] by (split; intros ->; done).
  pose proof He as [Hen Hep]%detached_fields.
  assert (next_of h p = Some (Some pos) ∧ prev_of h pos = Some (Some p))
    as [Hpn Hpp].
  { apply (is_list_split_link _ _ _ _ Hl). }
  assert (live h e ∧ live h p ∧ live h pos) as (? & ? & ?)
    by (repeat split; solve_live).
  unfold unlinked, link_before.
  apply heap_ext; intros a.
  - destruct (decide (a = e)) as [->|]; [fld; done|].
    destruct (decide (a = p)) as [->|]; fld; done.
  - destruct (decide (a = e)) as [->|]; [fld; done|].
    destruct (decide (a = pos)) as [->|]; fld; done.
Qed.

(** Linking a node again where it has just been unlinked restores the
    heap. *)
Lemma link_before_unlinked (h : heap) (f : loc) (l1 l2 : list loc) (x : loc) :
  is_list h f (l1 ++ x :: l2) →
  link_before (hd f l2) (default f (last l1)) x
    (unlinked x (hd f l2) (default f (last l1)) h) = h.
Proof.
  intros Hl.
  set (n := hd f l2). set (p := default f (last l1)).
  pose proof (is_list_next _ _ _ _ _ Hl) as Hxn.
  pose proof (is_list_prev _ _ _ _ _ Hl) as Hxp.
  fold n in Hxn. fold p in Hxp.
  pose proof (is_list_NoDup _ _ _ Hl) as Hnd.
  assert (x ≠ n ∧ x ≠ p) as [Hn Hp].
  { pose proof (default_last_elem f l1) as H1.
    pose proof (hd_elem f l2) as H2. fold p in H1. fold n in H2.
    apply NoDup_cons in Hnd as [Hf Hnd].
    apply NoDup_middle in Hnd as (Hx1 & Hx2 & _).
    apply not_elem_of_app in Hf as [Hf1 [Hfx Hf2]%not_elem_of_cons].
    split; intros <-.
    - apply elem_of_cons in H2 as [?|?]; [congruence|done].
    - apply elem_of_cons in H1 as [?|?]; [congruence|done]. }
  assert (next_of h p = Some (Some x) ∧ prev_of h n = Some (Some x))
    as [Hpx Hnx].
  { split.
    - apply (is_list_split_link h f l1 (x :: l2) Hl).
    - replace (l1 ++ x :: l2) with ((l1 ++ [x]) ++ l2) in Hl
        by (by rewrite <-app_assoc).
      pose proof (is_list_split_link h f (l1 ++ [x]) l2 Hl) as [_ H].
      by rewrite last_snoc in H. }
  assert (live h x ∧ live h p ∧ live h n) as (? & ? & ?)
    by (repeat split; solve_live).
  unfold unlinked, link_before.
  destruct (decide (n = p)) as [E|]; [rewrite E in *|]; heap_eq.
Qed.

(** X1: [push_front] of a detached element on a well-formed list links it
    in as the first element: the list is the element followed by the former
    contents, [front()] then returns the element, the heap is the one
    [insert(begin(), e)] produces, and only the element, the sentinel and the
    former first node are written. *)
Theorem push_front_spec (h : heap) (f : loc) (xs : list loc) (e : loc) :
  is_list h f xs → detached h e →
  ∃ h', push_front f e h = Done tt h'
        ∧ is_list h' f (e :: xs)
        ∧ front f h' = Done (Some e) h'
        ∧ (b ← begin_ f; insert_ f b e) h = Done (Iter (Some e)) h'
        ∧ (∀ a, a ∉ [e; f; hd f xs] → h' !! a = h !! a).
Proof.
  intros Hl He.
  pose proof (cycle_next _ _ _ Hl) as Hn.
  pose proof (detached_not_in_cycle _ _ _ Hl He) as Hin.
  pose proof (hd_elem f xs) as Hhd.
  assert (live h e) as Le by (by eexists).
  assert (live h f) as Lf by (eapply is_list_elem_live; [done|solve_in]).
  assert (live h (hd f xs)) as Lh by (by eapply is_list_elem_live).
  assert (e ≠ f) as Hef by (intros ->; apply Hin; solve_in).
  assert (e ≠ hd f xs) as Heh by (by intros ->).
  exists (link_after f (hd f xs) e h). split_and!.
  - by apply push_front_run.
  - by apply link_after_cycle.
  - pose proof (link_after_cycle _ _ _ _ Hl He) as Hl'.
    apply cycle_next in Hl'. simpl in Hl'.
    unfold front. by erewrite run_final_load_next.
  - unfold begin_. rewrite run_bind_assoc.
    erewrite run_load_next by done. rewrite run_ret.
    rewrite (insert_list_run h f [] xs e Hl He). simpl.
    by rewrite link_after_before.
  - intros a Ha. apply link_after_frame; revert Ha; solve_in.
Qed.

Lemma push_front_spec_witness :
  is_list sample_heap 1 [10%positive; 11%positive]
  ∧ detached sample_heap 12
  ∧ ∃ h', push_front 1 12 sample_heap = Done tt h'
          ∧ is_list h' 1 [12%positive; 10%positive; 11%positive]
          ∧ front 1 h' = Done (Some 12%positive) h'
          ∧ (b ← begin_ 1; insert_ 1 b 12) sample_heap
            = Done (Iter (Some 12%positive)) h'
          ∧ (∀ a, a ∉ [12%positive; 1%positive; 10%positive] →
               h' !! a = sample_heap !! a).
Proof.
  assert (detached sample_heap 12) as D12 by (vm_compute; reflexivity).
  split; [exact sample_heap_is_list|]. split; [exact D12|].
  exact (push_front_spec sample_heap 1 [10%positive; 11%positive] 12
           sample_heap_is_list D12).
Defined.

(** X2: [pop_back] on a non-empty well-formed list removes the last
    element: the list keeps the other elements in order, the removed element
    is detached, the heap is the one [erase] at that element produces (which
    returns [end()]), and only the element and its two neighbours are
    written. *)
Theorem pop_back_spec (h : heap) (f : loc) (xs : list loc) (x : loc) :
  is_list h f (xs ++ [x]) →
  ∃ h', pop_back f h = Done tt h'
        ∧ is_list h' f xs
        ∧ detached h' x
        ∧ erase f (Iter (Some x)) h = Done (end_ f) h'
        ∧ (∀ a, a ∉ [x; f; default f (last xs)] → h' !! a = h !! a).
Proof.
  intros Hl.
  pose proof (cycle_prev _ _ _ Hl) as Hp. rewrite last_snoc in Hp. simpl in Hp.
  pose proof (erase_list_run _ _ _ _ _ Hl) as Hrun.
  pose proof (erase_list_post _ _ _ _ _ Hl) as Hpost.
  pose proof (is_list_next _ _ _ _ _ Hl) as Hn.
  rewrite app_nil_r in Hpost. simpl hd in *.
  assert (live h x) as Lx by (eapply is_list_elem_live; [done|solve_in]).
  exists (unlinked x f (default f (last xs)) h). split_and!.
  - unfold pop_back. by erewrite run_load_prev.
  - done.
  - by apply unlinked_detached.
  - unfold erase, it_deref; cbn [current].
    erewrite run_load_next by done. by erewrite run_bind_Done.
  - intros a Ha. apply unlinked_frame; revert Ha; solve_in.
Qed.

Lemma pop_back_spec_witness :
  is_list sample_heap 1 ([10%positive] ++ [11%positive])
  ∧ ∃ h', pop_back 1 sample_heap = Done tt h'
          ∧ is_list h' 1 [10%positive]
          ∧ detached h' 11
          ∧ erase 1 (Iter (Some 11%positive)) sample_heap = Done (end_ 1) h'
          ∧ (∀ a, a ∉ [11%positive; 1%positive; 10%positive] →
               h' !! a = sample_heap !! a).
Proof.
  split; [exact sample_heap_is_list|].
  exact (pop_back_spec sample_heap 1 [10%positive] 11 sample_heap_is_list).
Defined.

(** X3: [pop_front] on a non-empty well-formed list removes the first
    element: the list keeps the other elements in order, the removed element
    is detached, the heap is the one [erase(begin())] produces (which returns
    the new [begin()]), and only the element and its two neighbours are
    written. *)
Theorem pop_front_spec (h : heap) (f : loc) (x : loc) (xs : list loc) :
  is_list h f (x :: xs) →
  ∃ h', pop_front f h = Done tt h'
        ∧ is_list h' f xs
        ∧ detached h' x
        ∧ (b ← begin_ f; erase f b) h = Done (Iter (Some (hd f xs))) h'
        ∧ begin_ f h' = Done (Iter (Some (hd f xs))) h'
        ∧ (∀ a, a ∉ [x; f; hd f xs] → h' !! a = h !! a).
Proof.
  intros Hl.
  pose proof (cycle_next _ _ _ Hl) as Hf. simpl in Hf.
  pose proof (erase_list_run _ _ [] _ _ Hl) as Hrun.
  pose proof (erase_list_post _ _ [] _ _ Hl) as Hpost.
  pose proof (is_list_next _ _ [] _ _ Hl) as Hn.
  simpl in Hrun, Hpost.
  assert (live h x) as Lx by (eapply is_list_elem_live; [done|solve_in]).
  exists (unlinked x (hd f xs) f h). split_and!.
  - unfold pop_front. by erewrite run_load_next.
  - done.
  - by apply unlinked_detached.
  - unfold begin_. rewrite run_bind_assoc.
    erewrite run_load_next by done. rewrite run_ret.
    unfold erase, it_deref; cbn [current].
    erewrite run_load_next by done. by erewrite run_bind_Done.
  - pose proof (cycle_next _ _ _ Hpost) as Hn'.
    unfold begin_. by erewrite run_load_next.
  - intros a Ha. apply unlinked_frame; revert Ha; solve_in.
Qed.

Lemma pop_front_spec_witness :
  is_list sample_heap 1 [10%positive; 11%positive]
  ∧ ∃ h', pop_front 1 sample_heap = Done tt h'
          ∧ is_list h' 1 [11%positive]
          ∧ detached h' 10
          ∧ (b ← begin_ 1; erase 1 b) sample_heap
            = Done (Iter (Some 11%positive)) h'
          ∧ begin_ 1 h' = Done (Iter (Some 11%positive)) h'
          ∧ (∀ a, a ∉ [10%positive; 1%positive; 11%positive] →
               h' !! a = sample_heap !! a).
Proof.
  split; [exact sample_heap_is_list|].
  exact (pop_front_spec sample_heap 1 10 [11%positive] sample_heap_is_list).
Defined.

(** X4: on a well-formed list [front()] and [begin()] give the first
    element and [back()] the last one; on an empty list all three give the
    sentinel itself, the node [end()] refers to.  [begin() == end()] holds
    exactly when the list has no element, which is what [empty()] answers. *)
Theorem front_back_spec (h : heap) (f : loc) (xs : list loc) :
  is_list h f xs →
  front f h = Done (Some (hd f xs)) h
  ∧ back f h = Done (Some (default f (last xs))) h
  ∧ begin_ f h = Done (Iter (Some (hd f xs))) h
  ∧ (b ← begin_ f; mret (it_eq b (end_ f))) h = Done (bool_decide (xs = [])) h
  ∧ empty f h = Done (bool_decide (xs = [])) h
  ∧ (hd f xs = f ↔ xs = [])
  ∧ (default f (last xs) = f ↔ xs = []).
Proof.
  intros Hl.
  pose proof (cycle_next _ _ _ Hl) as Hn.
  pose proof (cycle_prev _ _ _ Hl) as Hp.
  pose proof (is_list_NoDup _ _ _ Hl) as [Hf _]%NoDup_cons.
  assert (hd f xs = f ↔ xs = []) as Hhd.
  { destruct xs as [|x xs]; [done|]. simpl. split; [|done].
    intros ->. destruct Hf. solve_in. }
  assert (default f (last xs) = f ↔ xs = []) as Hlast.
  { destruct xs as [|x xs _] using rev_ind; [done|]. rewrite last_snoc. simpl.
    split; [|by intros ?%app_nil_r_inv || by intros [? ?]%app_eq_nil].
    intros ->. destruct Hf. solve_in. }
  split_and!; try done.
  - unfold front. by erewrite run_final_load_next.
  - unfold back. by erewrite run_final_load_prev.
  - unfold begin_. by erewrite run_load_next.
  - unfold begin_. rewrite run_bind_assoc. erewrite run_load_next by done.
    rewrite !run_ret. unfold it_eq, end_; cbn [current].
    unfold mret, M_ret. f_equal. apply bool_decide_ext.
    rewrite <-Hhd. split; congruence.
  - by apply empty_spec.
Qed.

Lemma front_back_spec_witness :
  is_list sample_heap 1 [10%positive; 11%positive]
  ∧ front 1 sample_heap = Done (Some 10%positive) sample_heap
  ∧ back 1 sample_heap = Done (Some 11%positive) sample_heap.
Proof.
  split; [exact sample_heap_is_list|].
  pose proof (front_back_spec sample_heap 1 [10%positive; 11%positive]
                sample_heap_is_list) as (H1 & H2 & _).
  exact (conj H1 H2).
Defined.

(** ** Round trips *)

(** X5: erasing an element and inserting it again in front of the position
    [erase] returned restores the heap exactly; the iterator [insert] returns
    is the erased position. *)
Theorem erase_insert_roundtrip (h : heap) (f : loc) (l1 l2 : list loc)
    (pos : loc) :
  is_list h f (l1 ++ pos :: l2) →
  (it ← erase f (Iter (Some pos)); insert_ f it pos) h
  = Done (Iter (Some pos)) h.
Proof.
  intros Hl.
  pose proof (is_list_next _ _ _ _ _ Hl) as Hn.
  pose proof (erase_list_run _ _ _ _ _ Hl) as Hrun.
  pose proof (erase_list_post _ _ _ _ _ Hl) as Hpost.
  assert (live h pos) as Lx by (eapply is_list_elem_live; [done|solve_in]).
  pose proof (unlinked_detached h pos (hd f l2) (default f (last l1)) Lx) as Hd.
  unfold erase, it_deref; cbn [current].
  rewrite run_bind_assoc. erewrite run_load_next by done.
  rewrite run_bind_assoc. erewrite run_bind_Done by done. rewrite run_ret.
  rewrite (insert_list_run _ _ _ _ _ Hpost Hd).
  by rewrite link_before_unlinked.
Qed.

Lemma erase_insert_roundtrip_witness :
  is_list sample_heap 1 ([10%positive] ++ 11%positive :: [])
  ∧ (it ← erase 1 (Iter (Some 11%positive)); insert_ 1 it 11) sample_heap
    = Done (Iter (Some 11%positive)) sample_heap.
Proof.
  split; [exact sample_heap_is_list|].
  exact (erase_insert_roundtrip sample_heap 1 [10%positive] [] 11
           sample_heap_is_list).
Defined.

(** X6: pushing a detached element on either end of a well-formed list and
    popping at the same end restores the heap exactly. *)
Theorem push_pop_roundtrip (h : heap) (f : loc) (xs : list loc) (e : loc) :
  is_list h f xs → detached h e →
  (push_back f e;; pop_back f) h = Done tt h
  ∧ (push_front f e;; pop_front f) h = Done tt h.
Proof.
  intros Hl He.
  pose proof (detached_not_in_cycle _ _ _ Hl He) as Hin.
  assert (live h e) as Le by (by eexists).
  assert (live h f) as Lf by (eapply is_list_elem_live; [done|solve_in]).
  assert (e ≠ f) as Hef by (intros ->; apply Hin; solve_in).
  split.
  - pose proof Hl as Hl0. rewrite <-(app_nil_r xs) in Hl0.
    pose proof (insert_list_run _ _ _ _ _ Hl0 He) as Hins.
    pose proof (insert_list_post _ _ _ _ _ Hl0 He) as Hpost.
    simpl hd in Hins, Hpost.
    assert (push_back f e h
            = Done tt (link_before f (default f (last xs)) e h)) as Hpush.
    { rewrite push_back_insert. by erewrite run_bind_Done. }
    erewrite run_bind_Done by exact Hpush.
    pose proof (cycle_prev _ _ _ Hpost) as Hp.
    rewrite last_snoc in Hp. simpl in Hp.
    unfold pop_back. erewrite run_load_prev by done.
    rewrite (erase_list_run _ _ _ _ _ Hpost). simpl hd.
    pose proof (unlinked_link_before h f xs [] e Hl0 He) as Hrt.
    simpl hd in Hrt. by rewrite Hrt.
  - pose proof (cycle_next _ _ _ Hl) as Hn.
    pose proof (hd_elem f xs) as Hhd.
    assert (live h (hd f xs)) as Lh by (by eapply is_list_elem_live).
    assert (e ≠ hd f xs) as Heh by (by intros ->).
    erewrite run_bind_Done by (by apply push_front_run).
    pose proof (link_after_cycle _ _ _ _ Hl He) as Hpost.
    pose proof (cycle_next _ _ _ Hpost) as Hn'. simpl in Hn'.
    unfold pop_front. erewrite run_load_next by done.
    rewrite (erase_list_run _ _ [] _ _ Hpost). simpl.
    rewrite link_after_before by done.
    pose proof (unlinked_link_before h f [] xs e Hl He) as Hrt.
    simpl in Hrt. by rewrite Hrt.
Qed.

Lemma push_pop_roundtrip_witness :
  is_list sample_heap 1 [10%positive; 11%positive]
  ∧ detached sample_heap 12
  ∧ (push_back 1 12;; pop_back 1) sample_heap = Done tt sample_heap
  ∧ (push_front 1 12;; pop_front 1) sample_heap = Done tt sample_heap.
Proof.
  assert (detached sample_heap 12) as D12 by (vm_compute; reflexivity).
  split; [exact sample_heap_is_list|]. split; [exact D12|].
  exact (push_pop_roundtrip sample_heap 1 [10%positive; 11%positive] 12
           sample_heap_is_list D12).
Defined.

(** ** [clear], construction, [swap] *)

(** X7: [clear] on a well-formed list unlinks the elements one by one: its
    loop needs exactly one round per element and a last test, it leaves the
    list empty and every former element detached, writes no other node, and a
    second [clear] changes nothing. *)
Theorem clear_list_spec (h : heap) (f : loc) (xs : list loc) :
  is_list h f xs →
  ∃ h', (∀ fuel, clear fuel f h
                 = if decide (length xs < fuel) then Done tt h' else OutOfFuel)
        ∧ is_list h' f []
        ∧ (∀ x, x ∈ xs → detached h' x)
        ∧ (∀ a, a ∉ f :: xs → h' !! a = h !! a)
        ∧ (∀ fuel, clear (S fuel) f h' = Done tt h').
Proof.
  revert h. induction xs as [|x xs IH]; intros h Hl.
  - exists h. pose proof (cycle_next _ _ _ Hl) as Hn.
    assert (∀ fuel, clear (S fuel) f h = Done tt h) as Hone.
    { intros fuel. simpl clear. erewrite run_load_next by done. simpl.
      by rewrite bool_decide_false by naive_solver. }
    split_and!; try done.
    + intros [|fuel]; [done|]. rewrite Hone. simpl length.
      by rewrite decide_True by lia.
    + by intros ? ?%elem_of_nil.
  - pose proof (cycle_next _ _ _ Hl) as Hn. simpl in Hn.
    pose proof (erase_list_run _ _ [] _ _ Hl) as Hrun.
    pose proof (erase_list_post _ _ [] _ _ Hl) as Hpost.
    simpl in Hrun, Hpost.
    assert (live h x) as Lx by (eapply is_list_elem_live; [done|solve_in]).
    pose proof (unlinked_detached h x (hd f xs) f Lx) as Hdx.
    destruct (IH _ Hpost) as (h' & Hclear & Hl' & Hdet & Hframe & Hagain).
    pose proof (is_list_NoDup _ _ _ Hl) as Hnd.
    apply NoDup_cons in Hnd as [Hf Hnd]. apply NoDup_cons in Hnd as [Hx Hnd].
    apply not_elem_of_cons in Hf as [Hfx Hf].
    exists h'. split_and!; try done.
    + intros [|fuel]; [done|]. simpl clear.
      erewrite run_load_next by done.
      rewrite bool_decide_true by congruence.
      erewrite run_bind_Done by done. rewrite Hclear. simpl length.
      destruct (decide (length xs < fuel)).
      * by rewrite decide_True by lia.
      * by rewrite decide_False by lia.
    + intros y [->|Hy]%elem_of_cons; [|by apply Hdet].
      unfold detached. rewrite Hframe; [done|]. solve_in.
    + intros a Ha. rewrite Hframe by (revert Ha; solve_in).
      pose proof (hd_elem f xs) as Hhd.
      apply unlinked_frame; [revert Ha; solve_in| |revert Ha; solve_in].
      intros ->. revert Ha Hhd. solve_in.
Qed.

Lemma clear_list_spec_witness :
  is_list sample_heap 1 [10%positive; 11%positive]
  ∧ ∃ h', (∀ fuel, clear fuel 1 sample_heap
                   = if decide (2 < fuel) then Done tt h' else OutOfFuel)
          ∧ is_list h' 1 []
          ∧ (∀ x, x ∈ [10%positive; 11%positive] → detached h' x)
          ∧ (∀ a, a ∉ [1%positive; 10%positive; 11%positive] →
               h' !! a = sample_heap !! a)
          ∧ (∀ fuel, clear (S fuel) 1 h' = Done tt h').
Proof.
  split; [exact sample_heap_is_list|].
  exact (clear_list_spec sample_heap 1 [10%positive; 11%positive]
           sample_heap_is_list).
Defined.

(** X8: the default constructor, run on fresh storage, makes a well-formed
    empty list: [empty()] answers [true], a walk from [begin()] to [end()]
    finds no element, no other node is written and every list that was well
    formed stays so. *)
Theorem new_list_spec (h : heap) (f : loc) :
  h !! f = None →
  ∃ h', list_ctor f h = Done tt h'
        ∧ is_list h' f []
        ∧ empty f h' = Done true h'
        ∧ to_list 1 f h' = Done [] h'
        ∧ (∀ a, a ≠ f → h' !! a = h !! a)
        ∧ (∀ g ys, is_list h g ys → is_list h' g ys).
Proof.
  intros Hf. destruct (list_ctor_spec h f Hf) as [Hrun Hl].
  exists (<[f := Node (Some f) (Some f)]> h). split_and!; try done.
  - by rewrite (empty_spec _ _ _ Hl).
  - by apply to_list_spec; [|simpl; lia].
  - intros a Ha. by rewrite lookup_insert_ne.
  - intros g ys Hg. apply (cycle_ext h); [|done].
    intros a Ha. rewrite lookup_insert_ne; [done|].
    intros <-. destruct (cycle_live _ _ _ Hg Ha) as [nd Hnd]. congruence.
Qed.

Lemma new_list_spec_witness :
  sample_heap !! 2%positive = None
  ∧ ∃ h', list_ctor 2 sample_heap = Done tt h'
          ∧ is_list h' 2 []
          ∧ empty 2 h' = Done true h'
          ∧ to_list 1 2 h' = Done [] h'
          ∧ (∀ a, a ≠ 2%positive → h' !! a = sample_heap !! a)
          ∧ (∀ g ys, is_list sample_heap g ys → is_list h' g ys).
Proof.
  assert (sample_heap !! 2%positive = None) as H2 by (vm_compute; reflexivity).
  split; [exact H2|].
  exact (new_list_spec sample_heap 2 H2).
Defined.

(** X9: [swap] is symmetric: on two well-formed lists [a.swap(b)] and
    [b.swap(a)] complete with the same heap. *)
Theorem swap_symmetric (h : heap) (a b : loc) (xs ys : list loc) :
  is_list h a xs → is_list h b ys → b ∉ a :: xs →
  ∃ h', swap a b h = Done tt h' ∧ swap b a h = Done tt h'.
Proof.
  intros Ha Hb Hnot. pose proof (lists_disjoint _ _ _ _ _ Ha Hb Hnot) as Hnd.
  destruct Ha as [_ Hf]. destruct Hb as [_ Hr]. unfold swap, std_swap.
  destruct xs as [|x1 xs]; [|destruct xs as [|xn xs _] using rev_ind];
  (destruct ys as [|y1 ys]; [|destruct ys as [|ym ys _] using rev_ind]);
    list_norm; simpl in Hf, Hr; nodup_facts; chain_facts;
    (eexists; split; [steps; reflexivity|]);
    steps; unfold mret, M_ret; f_equal; heap_eq.
Qed.

Lemma swap_symmetric_witness :
  is_list two_lists_heap 1 [10%positive; 11%positive]
  ∧ is_list two_lists_heap 2 []
  ∧ ∃ h', swap 1 2 two_lists_heap = Done tt h'
          ∧ swap 2 1 two_lists_heap = Done tt h'.
Proof.
  split; [exact two_lists_heap_1|]. split; [exact two_lists_heap_2|].
  refine (swap_symmetric two_lists_heap 1 2 [10%positive; 11%positive] []
            two_lists_heap_1 two_lists_heap_2 _).
  apply (bool_decide_unpack _); vm_compute; exact I.
Defined.

(** X10: a list used with itself: [a.swap(a)] leaves the heap as it is,
    whereas the move assignment [a = std::move(a)] empties the list, leaving
    every element detached and no other node written. *)
Theorem self_swap_self_move (h : heap) (f : loc) (xs : list loc) :
  is_list h f xs →
  swap f f h = Done tt h
  ∧ ∃ h', (∀ fuel, length xs < fuel →
             list_move_assign fuel f f h = Done f h')
          ∧ is_list h' f []
          ∧ (∀ x, x ∈ xs → detached h' x)
          ∧ (∀ a, a ∉ f :: xs → h' !! a = h !! a).
Proof.
  intros Hl. pose proof (swap_self _ _ _ Hl) as Hs. split; [done|].
  destruct (clear_spec _ _ _ Hl) as (h' & Hrun & Hl' & Hdet & Hframe).
  exists h'. split_and!; try done.
  intros fuel Hfuel. unfold list_move_assign.
  erewrite run_bind_Done by done.
  by erewrite run_bind_Done by (by apply Hrun).
Qed.

Lemma self_swap_self_move_witness :
  is_list sample_heap 1 [10%positive; 11%positive]
  ∧ swap 1 1 sample_heap = Done tt sample_heap.
Proof.
  split; [exact sample_heap_is_list|].
  exact (proj1 (self_swap_self_move sample_heap 1 [10%positive; 11%positive]
                  sample_heap_is_list)).
Defined.

(** X11: [erase] does not check its position: called with [end()] on a
    non-empty well-formed list it unlinks the sentinel.  The call completes
    and returns [begin()], the elements are left in a ring of their own, the
    sentinel is detached, so that [empty()] answers [false] while a walk from
    [begin()] dereferences a null pointer; no node but the sentinel and its
    two neighbours is written. *)
Theorem erase_end_spec (h : heap) (f : loc) (xs : list loc) :
  is_list h f xs → xs ≠ [] →
  ∃ h', erase f (end_ f) h = Done (Iter (Some (hd f xs))) h'
        ∧ detached h' f
        ∧ cycle h' xs
        ∧ empty f h' = Done false h'
        ∧ (∀ fuel, to_list (S fuel) f h' = Fault)
        ∧ (∀ a, a ∉ [f; hd f xs; default f (last xs)] → h' !! a = h !! a).
Proof.
  intros Hl Hne.
  pose proof (cycle_next _ _ _ Hl) as Hn.
  pose proof (unlink_cycle_run _ _ _ Hl) as Hrun.
  pose proof (unlinked_cycle _ _ _ Hl Hne) as Hpost.
  assert (live h f) as Lf by (eapply is_list_elem_live; [done|solve_in]).
  pose proof (unlinked_detached h f (hd f xs) (default f (last xs)) Lf) as Hd.
  pose proof Hd as [Hdn _]%detached_fields.
  exists (unlinked f (hd f xs) (default f (last xs)) h). split_and!; try done.
  - unfold erase, end_, it_deref; cbn [current].
    erewrite run_load_next by done. by erewrite run_bind_Done.
  - unfold empty. erewrite run_load_next by done. done.
  - intros fuel. unfold to_list, begin_. rewrite run_bind_assoc.
    erewrite run_load_next by done. rewrite run_ret. simpl walk.
    reflexivity.
  - intros a Ha. apply unlinked_frame; revert Ha; solve_in.
Qed.

Lemma erase_end_spec_witness :
  is_list sample_heap 1 [10%positive; 11%positive]
  ∧ ∃ h', erase 1 (end_ 1) sample_heap = Done (Iter (Some 10%positive)) h'
          ∧ detached h' 1
          ∧ cycle h' [10%positive; 11%positive]
          ∧ empty 1 h' = Done false h'
          ∧ (∀ fuel, to_list (S fuel) 1 h' = Fault)
          ∧ (∀ a, a ∉ [1%positive; 10%positive; 11%positive] →
               h' !! a = sample_heap !! a).
Proof.
  split; [exact sample_heap_is_list|].
  refine (erase_end_spec sample_heap 1 [10%positive; 11%positive]
            sample_heap_is_list _).
  discriminate.
Defined.

(** ** Iterators *)

Lemma default_last_cons (x y : loc) (r : list loc) :
  default x (last (y :: r)) = default y (last r).
Proof. rewrite last_cons. by destruct (last r). Qed.

Lemma advance_chain (h : heap) (r : list loc) :
  ∀ x, chain h x r →
    advance (length r) (Iter (Some x)) h
    = Done (Iter (Some (default x (last r)))) h.
Proof.
  induction r as [|y r IH]; intros x Hc; [done|].
  destruct Hc as [[Hn _] Hc]. simpl length. simpl advance.
  unfold it_incr; cbn [current].
  rewrite run_bind_assoc. erewrite run_load_next by done. rewrite run_ret.
  rewrite default_last_cons. by apply IH.
Qed.

Lemma chain_app_l (h : heap) (r1 r2 : list loc) :
  ∀ x, chain h x (r1 ++ r2) → chain h x r1.
Proof.
  induction r1 as [|y r1 IH]; intros x Hc; [done|].
  destruct Hc as [Hl Hc]. split; [done|]. by apply IH.
Qed.

(** X12: [++] followed by [--], and [--] followed by [++], lead back to the
    position they started from, for every position of a well-formed list,
    [end()] included. *)
Theorem incr_decr_roundtrip (h : heap) (f : loc) (xs : list loc) (pos : loc) :
  is_list h f xs → pos ∈ f :: xs →
  (it ← it_incr (Iter (Some pos)); it_decr it) h = Done (Iter (Some pos)) h
  ∧ (it ← it_decr (Iter (Some pos)); it_incr it) h = Done (Iter (Some pos)) h.
Proof.
  intros Hl Hpos.
  destruct (cycle_elem _ _ _ Hl Hpos) as (n & p & _ & _ & [Hn Hnp] & [Hpn Hp]).
  unfold it_incr, it_decr; cbn [current]. split; steps; reflexivity.
Qed.

Lemma incr_decr_roundtrip_witness :
  is_list sample_heap 1 [10%positive; 11%positive]
  ∧ (it ← it_incr (Iter (Some 11%positive)); it_decr it) sample_heap
    = Done (Iter (Some 11%positive)) sample_heap.
Proof.
  split; [exact sample_heap_is_list|].
  refine (proj1 (incr_decr_roundtrip sample_heap 1 [10%positive; 11%positive] 11
                   sample_heap_is_list _)).
  apply (bool_decide_unpack _); vm_compute; exact I.
Defined.

(** X13: starting at [begin()], as many increments as there are elements in
    front of a position arrive at that position, and at [end()] after as many
    as the list has elements; one more increment is back at [begin()], so a
    list is traversed in a circle. *)
Theorem advance_spec (h : heap) (f : loc) (l1 l2 : list loc) :
  is_list h f (l1 ++ l2) →
  (b ← begin_ f; advance (length l1) b) h = Done (Iter (Some (hd f l2))) h
  ∧ (b ← begin_ f; e ← advance (length (l1 ++ l2)) b; it_incr e) h
    = begin_ f h.
Proof.
  intros Hl. pose proof Hl as [_ Hc]. split.
  - assert (chain h f (l1 ++ [hd f l2])) as Hc'.
    { destruct l2 as [|x l2]; simpl hd.
      - by rewrite app_nil_r in Hc.
      - apply (chain_app_l _ _ (l2 ++ [f])). by rewrite <-!app_assoc in *. }
    apply advance_chain in Hc'. rewrite length_app, Nat.add_1_r in Hc'.
    rewrite last_snoc in Hc'. exact Hc'.
  - pose proof (advance_chain _ _ _ Hc) as Ha.
    rewrite length_app, Nat.add_1_r, last_snoc in Ha. simpl advance in Ha.
    unfold begin_. unfold it_incr in Ha; cbn [current] in Ha.
    rewrite run_bind_assoc in Ha |- *.
    pose proof (cycle_next _ _ _ Hl) as Hn.
    erewrite run_load_next in Ha |- * by done.
    rewrite run_ret in Ha |- *.
    erewrite run_bind_Done by exact Ha.
    unfold it_incr, end_; cbn [current]. done.
Qed.

Lemma advance_spec_witness :
  is_list sample_heap 1 ([10%positive] ++ [11%positive])
  ∧ (b ← begin_ 1; advance 1 b) sample_heap
    = Done (Iter (Some 11%positive)) sample_heap.
Proof.
  split; [exact sample_heap_is_list|].
  exact (proj1 (advance_spec sample_heap 1 [10%positive] [11%positive]
                  sample_heap_is_list)).
Defined.

(** X14: the postfix operators return the position the iterator had and move
    it as the prefix operators do: on a well-formed list, [it++] at a position
    returns that position and leaves the iterator at the node after it, and
    [it--] from there returns that node and leaves the iterator where it
    started. *)
Theorem postfix_spec (h : heap) (f : loc) (xs : list loc) (pos : loc) :
  is_list h f xs → pos ∈ f :: xs →
  ∃ n, n ∈ f :: xs ∧ next_of h pos = Some (Some n)
    ∧ it_post_incr (Iter (Some pos)) h
      = Done (Iter (Some pos), Iter (Some n)) h
    ∧ it_post_decr (Iter (Some n)) h
      = Done (Iter (Some n), Iter (Some pos)) h.
Proof.
  intros Hl Hpos.
  destruct (cycle_elem _ _ _ Hl Hpos) as (n & p & Hin & _ & [Hn Hnp] & _).
  exists n. split; [done|]. split; [done|].
  unfold it_post_incr, it_post_decr, it_incr, it_decr; cbn [current].
  split; steps; reflexivity.
Qed.

Lemma postfix_spec_witness :
  is_list sample_heap 1 [10%positive; 11%positive]
  ∧ ∃ n, n ∈ [1%positive; 10%positive; 11%positive]
    ∧ next_of sample_heap 11 = Some (Some n)
    ∧ it_post_incr (Iter (Some 11%positive)) sample_heap
      = Done (Iter (Some 11%positive), Iter (Some n)) sample_heap
    ∧ it_post_decr (Iter (Some n)) sample_heap
      = Done (Iter (Some n), Iter (Some 11%positive)) sample_heap.
Proof.
  split; [exact sample_heap_is_list|].
  refine (postfix_spec sample_heap 1 [10%positive; 11%positive] 11
            sample_heap_is_list _).
  apply (bool_decide_unpack _); vm_compute; exact I.
Defined.

(** ** Storage *)

Lemma keeps_ret {A} (a : A) : keeps_dom (mret a).
Proof. intros h b h' [= _ ->]. done. Qed.

Lemma keeps_bind {A B} (m : M A) (k : A → M B) :
  keeps_dom m → (∀ a, keeps_dom (k a)) → keeps_dom (m ≫= k).
Proof.
  intros Hm Hk h b h' (a & h1 & H1 & H2)%bind_Done_inv.
  rewrite (Hk _ _ _ _ H2). by eapply Hm.
Qed.

Lemma keeps_load {A} (fld : list_element → A) (p : ptr) :
  keeps_dom (load fld p).
Proof.
  intros h b h'. unfold load. destruct p as [a|]; [|done].
  destruct (h !! a); [|done]. by intros [= _ ->].
Qed.

Lemma keeps_store_next (p v : ptr) : keeps_dom (store_next p v).
Proof.
  intros h b h'. unfold store_next. destruct p as [a|]; [|done].
  destruct (h !! a) eqn:E; [|done]. intros [= _ <-].
  apply dom_insert_lookup_L. by eexists.
Qed.

Lemma keeps_store_prev (p v : ptr) : keeps_dom (store_prev p v).
Proof.
  intros h b h'. unfold store_prev. destruct p as [a|]; [|done].
  destruct (h !! a) eqn:E; [|done]. intros [= _ <-].
  apply dom_insert_lookup_L. by eexists.
Qed.

Lemma keeps_store (p : ptr) (v : list_element) : keeps_dom (store p v).
Proof.
  intros h b h'. unfold store. destruct p as [a|]; [|done].
  destruct (h !! a) eqn:E; [|done]. intros [= _ <-].
  apply dom_insert_lookup_L. by eexists.
Qed.

Ltac keeps :=
  cbv zeta;
  repeat first
    [ apply keeps_ret
    | apply keeps_load
    | apply keeps_store_next
    | apply keeps_store_prev
    | apply keeps_store
    | match goal with H : _ |- keeps_dom _ => apply H end
    | apply keeps_bind; [|intros ?]
    | match goal with
      | |- keeps_dom (if ?b then _ else _) => destruct b
      end ].

Lemma keeps_unlink (this : ptr) : keeps_dom (unlink this).
Proof. unfold unlink. keeps. Qed.

Lemma keeps_clear (fuel : nat) (this : loc) : keeps_dom (clear fuel this).
Proof.
  induction fuel as [|fuel IH]; simpl; [by intros ? ? ?|].
  pose proof keeps_unlink. keeps.
Qed.

Lemma keeps_swap (this rhs : loc) : keeps_dom (swap this rhs).
Proof. unfold swap, std_swap. keeps. Qed.

Lemma keeps_splice (this : loc) (pos : list_iterator) (other : loc)
    (first last : list_iterator) :
  keeps_dom (splice this pos other first last).
Proof. unfold splice, it_decr. keeps. Qed.

Lemma dom_alloc (a : loc) (h h' : heap) :
  alloc a h = Done tt h' → dom h' = {[ a ]} ∪ dom h.
Proof.
  unfold alloc. destruct (h !! a); [done|]. intros [= <-].
  apply dom_insert_L.
Qed.

Lemma dom_list_ctor (a : loc) (h h' : heap) :
  list_ctor a h = Done tt h' → dom h' = {[ a ]} ∪ dom h.
Proof.
  unfold list_ctor. intros ([] & h1 & H1 & H2)%bind_Done_inv.
  apply dom_alloc in H1 as <-. revert H2.
  apply (keeps_bind _ _ (keeps_store_next _ _) (λ _, keeps_store_prev _ _)).
Qed.

(** X15: the container never allocates and never releases a node: on any
    heap, well formed or not, a call that completes leaves the set of live
    nodes as it was, except that the constructors of an element and of a list
    add the node they construct. *)
Theorem no_allocation (fuel : nat) (c : call) (h h' : heap) :
  run_call fuel c h = Done tt h' → dom h' = allocated c ∪ dom h.
Proof.
  pose proof keeps_unlink. pose proof keeps_clear. pose proof keeps_swap.
  pose proof keeps_splice.
  assert (∀ (m : M unit) h1 h2, keeps_dom m → m h1 = Done tt h2 →
            dom h2 = dom h1) as K by (intros m h1 h2 Hm; apply Hm).
  destruct c; simpl run_call; simpl allocated; intros Hrun;
    rewrite ?(left_id_L ∅ (∪));
    try (revert Hrun; apply K;
         unfold list_move_assign, push_back, push_front, pop_back, pop_front,
           insert_, erase;
         solve [keeps]).
  - by apply dom_alloc.
  - by apply dom_list_ctor.
  - unfold list_move_ctor in Hrun.
    apply bind_Done_inv in Hrun as ([] & h1 & Hr1 & Hr2).
    apply dom_list_ctor in Hr1 as <-. revert Hr2. apply K. keeps.
Qed.

Lemma no_allocation_witness :
  run_call 0 (PushBackOn 1 12) sample_heap
  = Done tt (heap_of (push_back 1 12 sample_heap))
  ∧ dom (heap_of (push_back 1 12 sample_heap))
    = allocated (PushBackOn 1 12) ∪ dom sample_heap.
Proof.
  assert (run_call 0 (PushBackOn 1 12) sample_heap
          = Done tt (heap_of (push_back 1 12 sample_heap))) as H
    by (vm_compute; reflexivity).
  split; [exact H|].
  exact (no_allocation 0 (PushBackOn 1 12) sample_heap _ H).
Defined.

(** ** Programs that never splice a range to the position it ends at *)

Lemma inv_elements (h : heap) (L : list loc) (c : loc → list loc) (f : loc) :
  inv_with h L c → f ∈ L → elements h f (c f).
Proof.
  intros (_ & Hlist & _) Hf. exists (S (length (c f))).
  apply to_list_spec; [by apply Hlist|lia].
Qed.

(** X16: in every state reached by a program whose calls respect their
    preconditions and that never calls [splice] with a non-empty range and
    [pos == last], two different lists share no node: their sentinels and
    elements are pairwise different, and none of these nodes is detached. *)
Theorem lists_never_share (w : world) (f g : loc) (xs ys : list loc) :
  reachable_avoiding w → f ∈ w_lists w → g ∈ w_lists w → f ≠ g →
  elements (w_heap w) f xs → elements (w_heap w) g ys →
  NoDup ((f :: xs) ++ (g :: ys))
  ∧ (∀ x, x ∈ (f :: xs) ++ (g :: ys) → ¬ detached (w_heap w) x).
Proof.
  intros Hr Hf Hg Hfg Hxs Hys.
  destruct (reachable_inv _ Hr) as (c & Hinv).
  pose proof Hinv as (HL & Hlist & Hsent & Hnode).
  rewrite (elements_inv _ _ _ _ _ Hinv Hf Hxs).
  rewrite (elements_inv _ _ _ _ _ Hinv Hg Hys).
  split.
  - apply (lists_disjoint (w_heap w)); [by apply Hlist..|by apply Hsent].
  - intros x [Hx|Hx]%elem_of_app Hd.
    + by apply (detached_not_in_cycle _ _ _ (Hlist f Hf) Hd).
    + by apply (detached_not_in_cycle _ _ _ (Hlist g Hg) Hd).
Qed.

Lemma lists_never_share_witness :
  reachable_avoiding (after (NewList 2) three_elements)
  ∧ NoDup ((1%positive :: [10%positive; 11%positive; 12%positive])
            ++ (2%positive :: [])).
Proof.
  assert (reachable_avoiding (after (NewList 2) three_elements)) as Hr.
  { apply after_reachable_avoiding;
      [apply three_elements_avoiding|vm_compute; reflexivity
      |simpl; tauto|vm_compute; reflexivity]. }
  split; [exact Hr|].
  refine (proj1 (lists_never_share (after (NewList 2) three_elements) 1 2
                   [10%positive; 11%positive; 12%positive] [] Hr _ _ _ _ _)).
  - apply (bool_decide_unpack _); vm_compute; exact I.
  - apply (bool_decide_unpack _); vm_compute; exact I.
  - discriminate.
  - exists 4. vm_compute. reflexivity.
  - exists 1. vm_compute. reflexivity.
Defined.

(** X17: in every state reached by a program whose calls respect their
    preconditions and that never calls [splice] with a non-empty range and
    [pos == last], every live node is either detached or the sentinel or an
    element of one of the lists, as a walk of that list shows. *)
Theorem nodes_classified (w : world) (a : loc) :
  reachable_avoiding w → live (w_heap w) a →
  detached (w_heap w) a
  ∨ ∃ f xs, f ∈ w_lists w ∧ elements (w_heap w) f xs ∧ a ∈ f :: xs.
Proof.
  intros Hr Ha.
  destruct (reachable_inv _ Hr) as (c & Hinv).
  pose proof Hinv as (HL & Hlist & Hsent & Hnode).
  destruct (Hnode a Ha) as [Hd|(f & Hf & Hin)]; [by left|right].
  exists f, (c f). split; [done|]. split; [|done]. by eapply inv_elements.
Qed.

Lemma nodes_classified_witness :
  reachable_avoiding three_elements
  ∧ (detached (w_heap three_elements) 11
     ∨ ∃ f xs, f ∈ w_lists three_elements
               ∧ elements (w_heap three_elements) f xs ∧ 11%positive ∈ f :: xs).
Proof.
  split; [apply three_elements_avoiding|].
  refine (nodes_classified three_elements 11 three_elements_avoiding _).
  apply (bool_decide_unpack _); vm_compute; exact I.
Defined.

(** X20: in every state reached by a program whose calls respect their
    preconditions (construction of elements and lists, [push_back],
    [push_front], [pop_back], [pop_front], [insert], [erase], [splice], [swap],
    [clear], move construction and move assignment) and that never calls
    [splice] with a non-empty range and [pos == last], the chain invariant
    holds: every node with two non-null links is the [prev] of its [next] and
    the [next] of its [prev], the walk through [next] from the sentinel of
    every list comes back to the sentinel, as does the walk through [prev],
    and the sentinel is its own [next] and [prev] exactly when the list is
    empty.  In such a state every call whose precondition holds runs to
    completion, a [splice] with [pos == last] included. *)
Theorem chain_invariant_avoiding (w : world) :
  reachable_avoiding w →
  chain_invariant w
  ∧ ∀ c, pre_call w c →
      ∃ fuel h', run_call fuel c (w_heap w) = Done tt h'.
Proof.
  intros Hinv%reachable_inv. split; [by apply inv_chain_invariant|].
  intros cl Hpre. by apply inv_completes.
Qed.

Lemma chain_invariant_avoiding_witness :
  reachable_avoiding three_elements
  ∧ chain_invariant three_elements.
Proof.
  split; [apply three_elements_avoiding|].
  exact (proj1 (chain_invariant_avoiding three_elements
                  three_elements_avoiding)).
Defined.

(** ** Destruction *)

(** X18: destroying a well-formed list: the destructor completes and the
    storage of the sentinel is released; every former element is detached and
    no node outside the list is written, so a node that still points at the
    released sentinel is a node outside the list that pointed at it before;
    every other well-formed list stays well formed. *)
Theorem destroy_spec (h : heap) (f : loc) (xs : list loc) :
  is_list h f xs →
  ∃ h',
    (∀ fuel, length xs < fuel → list_destroy fuel f h = Done tt h')
    ∧ h' !! f = None
    ∧ (∀ x, x ∈ xs → detached h' x)
    ∧ (∀ a, a ∉ f :: xs → h' !! a = h !! a)
    ∧ (∀ a nd, h' !! a = Some nd → next nd = Some f ∨ prev nd = Some f →
         a ∉ f :: xs ∧ h !! a = Some nd)
    ∧ (∀ g ys, is_list h g ys → f ∉ g :: ys → is_list h' g ys).
Proof.
  intros Hl.
  destruct (clear_spec _ _ _ Hl) as (h1 & Hrun & Hl1 & Hdet & Hframe).
  pose proof (is_list_NoDup _ _ _ Hl) as [Hfx _]%NoDup_cons.
  assert (∀ x, x ∈ xs → detached (delete f h1) x) as Hdet'.
  { intros x Hx. unfold detached. rewrite lookup_delete_ne; [by apply Hdet|].
    by intros <-. }
  assert (∀ a, a ∉ f :: xs → delete f h1 !! a = h !! a) as Hframe'.
  { intros a Ha. rewrite lookup_delete_ne; [by apply Hframe|].
    intros <-. apply Ha. solve_in. }
  exists (delete f h1). split_and!; try done.
  - intros fuel Hfuel. unfold list_destroy, list_dtor.
    erewrite run_bind_Done by (by apply Hrun).
    unfold free.
    destruct (is_list_elem_live _ _ _ f Hl1) as [nd ->]; [solve_in|done].
  - apply lookup_delete_eq.
  - intros a nd Ha Hptr.
    destruct (decide (a ∈ f :: xs)) as [[->|Hin]%elem_of_cons|Hout].
    + by rewrite lookup_delete_eq in Ha.
    + rewrite (Hdet' a Hin) in Ha. injection Ha as <-.
      destruct Hptr; discriminate.
    + split; [done|]. by rewrite <-Hframe'.
  - intros g ys Hg Hfg. apply (cycle_ext h); [|done].
    intros a Ha. apply Hframe'. intros Hin.
    apply Hfg. apply (cycles_share h (g :: ys) (f :: xs) a Hg Hl Ha Hin).
    solve_in.
Qed.

Lemma destroy_spec_witness :
  is_list sample_heap 1 [10%positive; 11%positive]
  ∧ ∃ h',
      (∀ fuel, 2 < fuel → list_destroy fuel 1 sample_heap = Done tt h')
      ∧ h' !! 1%positive = None
      ∧ (∀ x, x ∈ [10%positive; 11%positive] → detached h' x).
Proof.
  split; [exact sample_heap_is_list|].
  destruct (destroy_spec sample_heap 1 [10%positive; 11%positive]
              sample_heap_is_list) as (h' & Hrun & Hf & Hdet & _).
  exists h'. exact (conj Hrun (conj Hf Hdet)).
Defined.

(** ** Emptying a list *)

(** The heap in which a list has been emptied and its elements detached is
    determined by the heap before. *)
Lemma emptied_unique (h h1 h2 : heap) (f : loc) (xs : list loc) :
  is_list h1 f [] → (∀ x, x ∈ xs → detached h1 x) →
  (∀ a, a ∉ f :: xs → h1 !! a = h !! a) →
  is_list h2 f [] → (∀ x, x ∈ xs → detached h2 x) →
  (∀ a, a ∉ f :: xs → h2 !! a = h !! a) →
  h1 = h2.
Proof.
  intros Hl1 Hd1 Hf1 Hl2 Hd2 Hf2. apply map_eq. intros a.
  destruct (decide (a = f)) as [->|Haf].
  - pose proof (cycle_next _ _ _ Hl1) as Hn1.
    pose proof (cycle_prev _ _ _ Hl1) as Hp1.
    pose proof (cycle_next _ _ _ Hl2) as Hn2.
    pose proof (cycle_prev _ _ _ Hl2) as Hp2.
    simpl in *.
    pose proof (proj2 (lookup_fields _ _ _ _) (conj Hn1 Hp1)) as ->.
    by pose proof (proj2 (lookup_fields _ _ _ _) (conj Hn2 Hp2)) as ->.
  - destruct (decide (a ∈ xs)) as [Hin|Hin].
    + by rewrite (Hd1 a Hin), (Hd2 a Hin).
    + rewrite Hf1, Hf2; [done|revert Haf Hin; solve_in..].
Qed.

Lemma pop_front_all (h : heap) (f : loc) (xs : list loc) :
  is_list h f xs →
  ∃ h', run_ops f (replicate (length xs) PopFront) h = Done tt h'
        ∧ is_list h' f []
        ∧ (∀ x, x ∈ xs → detached h' x)
        ∧ (∀ a, a ∉ f :: xs → h' !! a = h !! a).
Proof.
  revert h. induction xs as [|x xs IH]; intros h Hl.
  - exists h. split_and!; try done. by intros ? ?%elem_of_nil.
  - pose proof (cycle_next _ _ _ Hl) as Hn. simpl in Hn.
    pose proof (erase_list_run _ _ [] _ _ Hl) as Hrun.
    pose proof (erase_list_post _ _ [] _ _ Hl) as Hpost.
    simpl in Hrun, Hpost.
    assert (live h x) as Lx by (eapply is_list_elem_live; [done|solve_in]).
    pose proof (unlinked_detached h x (hd f xs) f Lx) as Hdx.
    destruct (IH _ Hpost) as (h' & Hpop & Hl' & Hdet & Hframe).
    pose proof (is_list_NoDup _ _ _ Hl) as Hnd.
    apply NoDup_cons in Hnd as [Hf Hnd]. apply NoDup_cons in Hnd as [Hx Hnd].
    apply not_elem_of_cons in Hf as [Hfx Hf].
    exists h'. split_and!; try done.
    + simpl length. simpl replicate. simpl run_ops. unfold pop_front.
      rewrite run_bind_assoc. erewrite run_load_next by done.
      by erewrite run_bind_Done by done.
    + intros y [->|Hy]%elem_of_cons; [|by apply Hdet].
      unfold detached. rewrite Hframe; [done|]. solve_in.
    + intros a Ha. rewrite Hframe by (revert Ha; solve_in).
      pose proof (hd_elem f xs) as Hhd.
      apply unlinked_frame; [revert Ha; solve_in| |revert Ha; solve_in].
      intros ->. revert Ha Hhd. solve_in.
Qed.

Lemma pop_back_all (h : heap) (f : loc) (xs : list loc) :
  is_list h f xs →
  ∃ h', run_ops f (replicate (length xs) PopBack) h = Done tt h'
        ∧ is_list h' f []
        ∧ (∀ x, x ∈ xs → detached h' x)
        ∧ (∀ a, a ∉ f :: xs → h' !! a = h !! a).
Proof.
  revert h. induction xs as [|x xs IH] using rev_ind; intros h Hl.
  - exists h. split_and!; try done. by intros ? ?%elem_of_nil.
  - pose proof (cycle_prev _ _ _ Hl) as Hp.
    rewrite last_snoc in Hp. simpl in Hp.
    pose proof (erase_list_run _ _ _ _ _ Hl) as Hrun.
    pose proof (erase_list_post _ _ _ _ _ Hl) as Hpost.
    rewrite app_nil_r in Hpost. simpl hd in Hrun, Hpost.
    assert (live h x) as Lx by (eapply is_list_elem_live; [done|solve_in]).
    pose proof (unlinked_detached h x f (default f (last xs)) Lx) as Hdx.
    destruct (IH _ Hpost) as (h' & Hpop & Hl' & Hdet & Hframe).
    pose proof (is_list_NoDup _ _ _ Hl) as Hnd.
    apply NoDup_cons in Hnd as [Hf Hnd].
    apply NoDup_app in Hnd as (Hnd & Hx & _).
    apply not_elem_of_app in Hf as [Hf Hfx%not_elem_of_cons].
    exists h'. split_and!; try done.
    + rewrite length_app, Nat.add_1_r. simpl replicate. simpl run_ops.
      unfold pop_back.
      rewrite run_bind_assoc. erewrite run_load_prev by done.
      by erewrite run_bind_Done by done.
    + intros y [Hy|Hy]%elem_of_app; [by apply Hdet|].
      apply list_elem_of_singleton in Hy as ->.
      unfold detached. rewrite Hframe; [done|].
      apply not_elem_of_cons. split; [intros ->; by destruct Hfx|].
      intros Hin. apply (Hx _ Hin). solve_in.
    + intros a Ha. rewrite Hframe by (revert Ha; solve_in).
      pose proof (default_last_elem f xs) as Hlast.
      apply unlinked_frame; [revert Ha; solve_in|revert Ha; solve_in|].
      intros ->. revert Ha Hlast. solve_in.
Qed.

(** X19: [clear] does what popping every element does: on a well-formed
    list, [clear], as many [pop_front] calls as the list has elements, and as
    many [pop_back] calls, all complete with the same heap. *)
Theorem clear_pop_all (h : heap) (f : loc) (xs : list loc) :
  is_list h f xs →
  ∃ h', clear (S (length xs)) f h = Done tt h'
        ∧ run_ops f (replicate (length xs) PopFront) h = Done tt h'
        ∧ run_ops f (replicate (length xs) PopBack) h = Done tt h'.
Proof.
  intros Hl.
  destruct (clear_spec _ _ _ Hl) as (h0 & Hrun & Hl0 & Hd0 & Hf0).
  destruct (pop_front_all _ _ _ Hl) as (h1 & Hrun1 & Hl1 & Hd1 & Hf1).
  destruct (pop_back_all _ _ _ Hl) as (h2 & Hrun2 & Hl2 & Hd2 & Hf2).
  exists h0. split; [apply Hrun; lia|].
  rewrite (emptied_unique h h0 h1 f xs) at 1 by done.
  rewrite (emptied_unique h h0 h2 f xs) by done. done.
Qed.

Lemma clear_pop_all_witness :
  is_list sample_heap 1 [10%positive; 11%positive]
  ∧ ∃ h', clear 3 1 sample_heap = Done tt h'
          ∧ run_ops 1 [PopFront; PopFront] sample_heap = Done tt h'
          ∧ run_ops 1 [PopBack; PopBack] sample_heap = Done tt h'.
Proof.
  split; [exact sample_heap_is_list|].
  exact (clear_pop_all sample_heap 1 [10%positive; 11%positive]
           sample_heap_is_list).
Defined.
